(** * LSMTool: the makesourcedb codec and the catalog merge

    A shallow embedding of [lsmtool/tableio.py] (header parsing, data-line
    decoding, spectral-index padding, angle parsing, the writer) and of
    [lsmtool/operations/concatenate.py] (the merge of two sky models),
    with the properties of the specification stated and settled on it.

    Conventions of the embedding:
    - a Python [str] is a [string]; the [str] methods the code calls are
      the functions of module [Py];
    - a raised exception is the [Raise] case of [result];
    - a Python [float] is an abstract carrier with the operations of the
      class [PyFloat]; the concrete instance [DecFloat] (exact rationals,
      decimal literals) is used to run the code on examples;
    - a [dict] with string keys is a [gmap string _];
    - NumPy and Astropy calls are modelled by their documented behaviour,
      stated in the comment of each definition. *)

From Stdlib Require Import ZArith QArith Qabs Qround Ascii String List Lia Bool.
From stdpp Require Import base tactics option list gmap strings sorting.


(** ** Exceptions *)

Inductive exn :=
  | Exception (msg : string)
  | ValueError
  | IndexError
  | AttributeError
  | TypeError
  | KeyError.

Inductive result (A : Type) :=
  | Ok (a : A)
  | Raise (e : exn).
Arguments Ok {A} a.
Arguments Raise {A} e.

(** The exception monad, with stdpp's [x ← m; k] notation. *)
Global Instance result_ret : MRet result := λ A a, Ok a.
Global Instance result_bind : MBind result := λ A B k r,
  match r with
  | Ok a => k a
  | Raise e => Raise e
  end.

(** The result of a computation, seen through [f]. *)
Definition result_map {A B} (f : A → B) (r : result A) : result B :=
  match r with
  | Ok a => Ok (f a)
  | Raise e => Raise e
  end.

Definition of_option {A} (o : option A) (e : exn) : result A :=
  match o with
  | Some a => Ok a
  | None => Raise e
  end.

(** [try: ... except: raise e] around a computation. *)
Definition reraise {A} (e : exn) (r : result A) : result A :=
  match r with
  | Ok a => Ok a
  | Raise _ => Raise e
  end.

(** ** The [str] methods used by the code *)

Module Py.

(** [c in s] for a one-character [c]. *)
Fixpoint contains_char (c : ascii) (s : string) : bool :=
  match s with
  | "" => false
  | String d s' => if decide (d = c) then true else contains_char c s'
  end.

(** [s.split(sep)] for a one-character separator. *)
Fixpoint split (sep : ascii) (s : string) : list string :=
  match s with
  | "" => [""]
  | String c s' =>
      if decide (c = sep) then "" :: split sep s'
      else match split sep s' with
           | [] => [String c ""]
           | h :: t => String c h :: t
           end
  end.

(** [sep.join(l)]. *)
Fixpoint join (sep : string) (l : list string) : string :=
  match l with
  | [] => ""
  | x :: l' =>
      match l' with
      | [] => x
      | _ :: _ => x +:+ sep +:+ join sep l'
      end
  end.

(** [sub in s]. *)
Fixpoint contains (sub s : string) : bool :=
  String.prefix sub s ||
  match s with
  | "" => false
  | String _ s' => contains sub s'
  end.

Definition startswith (s pre : string) : bool := String.prefix pre s.

Definition endswith (s suf : string) : bool :=
  String.prefix (String.rev suf) (String.rev s).

Definition lower_char (c : ascii) : ascii :=
  let n := nat_of_ascii c in
  if (65 <=? n)%nat && (n <=? 90)%nat then ascii_of_nat (n + 32) else c.

(** [s.lower()] on a byte string. *)
Fixpoint lower (s : string) : string :=
  match s with
  | "" => ""
  | String c s' => String (lower_char c) (lower s')
  end.

Fixpoint lstrip (chars s : string) : string :=
  match s with
  | "" => ""
  | String c s' => if contains_char c chars then lstrip chars s' else s
  end.

Fixpoint rstrip (chars s : string) : string :=
  match s with
  | "" => ""
  | String c s' =>
      match rstrip chars s' with
      | "" => if contains_char c chars then "" else String c ""
      | r => String c r
      end
  end.

(** [s.strip(chars)]. *)
Definition strip (chars s : string) : string := rstrip chars (lstrip chars s).

Definition whitespace : string :=
  String " " (String "009" (String "010" (String "011"
    (String "012" (String "013" ""))))).

(** [s.strip()]. *)
Definition strip_ws (s : string) : string := strip whitespace s.

(** [s.replace(old, new, count)] for one-character [old] and [new]. *)
Fixpoint replace_char_n (old new : ascii) (count : nat) (s : string) : string :=
  match s with
  | "" => ""
  | String c s' =>
      match count with
      | O => s
      | S k =>
          if decide (c = old) then String new (replace_char_n old new k s')
          else String c (replace_char_n old new count s')
      end
  end.

(** [s.replace(old, new)] for one-character [old] and [new]. *)
Fixpoint replace_char (old new : ascii) (s : string) : string :=
  match s with
  | "" => ""
  | String c s' =>
      String (if decide (c = old) then new else c) (replace_char old new s')
  end.

(** [s.replace(old, new)] for a non-empty [old]: the occurrences of [old]
    are replaced from left to right, without overlap.  [skip] counts the
    characters of an occurrence still to be dropped. *)
Fixpoint replace_go (old new : string) (skip : nat) (s : string) : string :=
  match s with
  | "" => ""
  | String c s' =>
      match skip with
      | S k => replace_go old new k s'
      | O =>
          if String.prefix old s
          then new +:+ replace_go old new (String.length old - 1) s'
          else String c (replace_go old new 0 s')
      end
  end.

Definition replace (old new s : string) : string := replace_go old new 0 s.

(** [l.index(x)], which raises [ValueError] when [x] is not in [l]. *)
Fixpoint index (x : string) (l : list string) : result nat :=
  match l with
  | [] => Raise ValueError
  | y :: l' => if decide (y = x) then Ok 0%nat else i ← index x l'; Ok (S i)
  end.

(** [s[i:j]]. *)
Definition slice (i j : nat) (s : string) : string := String.substring i (j - i) s.

(** Reads the longest prefix of decimal digits: its value, the number of
    digits read and the rest of the string. *)
Fixpoint digits (acc : Z) (n : nat) (s : string) : Z * nat * string :=
  match s with
  | "" => (acc, n, "")
  | String c s' =>
      match Ascii.is_nat c with
      | Some d => digits (10 * acc + Z.of_nat d)%Z (S n) s'
      | None => (acc, n, s)
      end
  end.

(** [int(s)] for a decimal literal; [None] when it raises [ValueError]. *)
Definition parse_int (s : string) : option Z :=
  let unsigned (t : string) :=
    let '(v, n, r) := digits 0 0 t in
    match r with
    | "" => if n is O then None else Some v
    | _ => None
    end in
  match strip_ws s with
  | String "-" s' => Z.opp <$> unsigned s'
  | String "+" s' => unsigned s'
  | s' => unsigned s'
  end.

(** [avoids chars s]: no character of [s] is one of [chars]. *)
Fixpoint avoids (chars s : string) : bool :=
  match s with
  | "" => true
  | String c s' => negb (contains_char c chars) && avoids chars s'
  end.

(** [within chars s]: every character of [s] is one of [chars]. *)
Fixpoint within (chars s : string) : bool :=
  match s with
  | "" => true
  | String c s' => contains_char c chars && within chars s'
  end.

Definition digit_char (d : Z) : ascii := ascii_of_nat (48 + Z.to_nat d).

Fixpoint str_nat_go (fuel : nat) (n : Z) (acc : string) : string :=
  match fuel with
  | O => acc
  | S k =>
      let acc' := String (digit_char (n mod 10)) acc in
      if (n <? 10)%Z then acc' else str_nat_go k (n / 10)%Z acc'
  end.

(** The decimal digits of a natural number. *)
Definition str_nat (n : Z) : string :=
  str_nat_go (S (Z.to_nat (Z.log2 n))) n "".

(** [str(n)] for an integer. *)
Definition str_int (n : Z) : string :=
  if (n <? 0)%Z then String "-" (str_nat (- n)) else str_nat n.

Arguments contains_char c%_char s.
Arguments split sep%_char s.
Arguments replace_char_n (old new)%_char count s.
Arguments replace_char (old new)%_char s.

End Py.

(** ** Python floats *)

(** The operations on [float] that the code uses.  [fofZ n] is the literal
    [n.0]; [feqb] is [==]; [fparse] is the constructor [float(s)] applied to
    a string ([None] when it raises [ValueError]); [fstr] is [str(x)] and
    [frepr] is [repr(x)], which [str] of a list applies to its elements;
    [fmt_ra x] is [Angle(x, unit='degree').to_string(unit='hourangle',
    sep=':')] and [fmt_dec x] is
    [Angle(x, unit='degree').to_string(unit='degree', sep='.')]; [fangle s]
    is the number of degrees of [Angle(s, unit='degree')] for a string [s]
    ([None] when Astropy cannot read an angle in [s] and raises
    [ValueError]). *)
Class PyFloat (F : Type) := {
  fofZ : Z → F;
  fadd : F → F → F;
  fmul : F → F → F;
  fdiv : F → F → F;
  feqb : F → F → bool;
  fparse : string → option F;
  fstr : F → string;
  frepr : F → string;
  fmt_ra : F → string;
  fmt_dec : F → string;
  fangle : string → option F;
}.

Definition fzero `{PyFloat F} : F := fofZ 0.

(** An instance for running the code on examples: exact rationals, read
    from and printed as plain decimal literals (optional sign, digits,
    optional fraction; no exponent).  Of the texts that Astropy reads as an
    angle the instance reads the plain decimal literals only; the tables of
    the examples hold numbers in [Ra] and [Dec]. *)
Module DecFloat.

Definition parse_unsigned (s : string) : option Q :=
  let '(ip, n1, r1) := Py.digits 0 0 s in
  match r1 with
  | "" => if n1 is O then None else Some (ip # 1)
  | String "." r2 =>
      let '(fp, n2, r3) := Py.digits 0 0 r2 in
      match r3 with
      | "" =>
          if (n1 + n2)%nat is O then None
          else Some (Qred ((ip # 1) + (fp # 1) / ((10 ^ Z.of_nat n2)%Z # 1)))
      | _ => None
      end
  | _ => None
  end.

(** [float(s)]: surrounding white space is ignored. *)
Definition parse (s : string) : option Q :=
  match Py.strip_ws s with
  | String "-" s' => Qopp <$> parse_unsigned s'
  | String "+" s' => parse_unsigned s'
  | s' => parse_unsigned s'
  end.

Fixpoint frac_digits (fuel : nat) (r d : Z) : string :=
  match fuel with
  | O => ""
  | S k =>
      if (r =? 0)%Z then ""
      else String (Py.digit_char (10 * r / d)) (frac_digits k (10 * r mod d)%Z d)
  end.

(** [str(x)] for a short decimal. *)
Definition str (x : Q) : string :=
  let d := Z.pos (Qden x) in
  let a := Z.abs (Qnum x) in
  (if (Qnum x <? 0)%Z then "-" else "") +:+ Py.str_nat (a / d) +:+ "." +:+
  match frac_digits 12 (a mod d) d with
  | "" => "0"
  | f => f
  end.

Definition two_digits (n : Z) : string :=
  if (n <? 10)%Z then "0" +:+ Py.str_nat n else Py.str_nat n.

(** A sexagesimal rendering [d<sep>mm<sep>ss[.fff]] of [x], digits after
    the seconds only when they are needed. *)
Definition sexagesimal (sep : string) (x : Q) : string :=
  let a := Qabs x in
  let d := Qfloor a in
  let rm := Qred ((a - (d # 1)) * 60) in
  let m := Qfloor rm in
  let rs := Qred ((rm - (m # 1)) * 60) in
  let s := Qfloor rs in
  let fs := Qred (rs - (s # 1)) in
  (if Qlt_le_dec x 0 then "-" else "") +:+ Py.str_nat d +:+ sep +:+
  two_digits m +:+ sep +:+ two_digits s +:+
  match frac_digits 8 (Qnum fs) (Z.pos (Qden fs)) with
  | "" => ""
  | f => "." +:+ f
  end.

Global Instance float : PyFloat Q := {|
  fofZ n := n # 1;
  fadd x y := Qred (x + y);
  fmul x y := Qred (x * y);
  fdiv x y := Qred (x / y);
  feqb := Qeq_bool;
  fparse := parse;
  fstr := str;
  frepr := str;
  fmt_ra x := sexagesimal ":" (Qred (x / 15));
  fmt_dec x := sexagesimal "." x;
  fangle := parse;
|}.

End DecFloat.

(** ** tableio.py: the column tables *)

(** A Python value held in a table cell, a column default or the table's
    [meta] dictionary.  [VNone] is [None] (a masked entry after
    [.data.tolist()]); [VPos] is the two-element list
    [[patchRA[0], patchDec[0]]] stored for a patch. *)
Inductive value (F : Type) :=
  | VNone
  | VStr (s : string)
  | VInt (n : Z)
  | VFloat (x : F)
  | VList (l : list F)
  | VPos (ra dec : F).
Arguments VNone {F}.
Arguments VStr {F} s.
Arguments VInt {F} n.
Arguments VFloat {F} x.
Arguments VList {F} l.
Arguments VPos {F} ra dec.

Global Instance value_inhabited F : Inhabited (value F) := populate VNone.

Definition allowedColumnNames : gmap string string :=
  list_to_map [
    ("name", "Name"); ("type", "Type"); ("patch", "Patch");
    ("ra", "Ra"); ("dec", "Dec"); ("i", "I"); ("q", "Q"); ("u", "U"); ("v", "V");
    ("majoraxis", "MajorAxis"); ("minoraxis", "MinorAxis");
    ("orientation", "Orientation");
    ("ishapelet", "IShapelet"); ("qshapelet", "QShapelet");
    ("ushapelet", "UShapelet"); ("vshapelet", "VShapelet");
    ("category", "Category");
    ("rotationmeasure", "RotationMeasure");
    ("polarizationangle", "PolarizationAngle");
    ("polarizedfraction", "PolarizedFraction");
    ("referencewavelength", "ReferenceWavelength");
    ("referencefrequency", "ReferenceFrequency");
    ("spectralindex", "SpectralIndex") ].

Section Tables.
Context `{PyFloat F}.

(** [allowedColumnDefaults].  The entry of ['spectralindex'] is a list
    object that the reader may extend in place (see [skyModelReader]); its
    current content [spdef] is threaded through the reader and the writer.
    At import time it is [[0.0]]. *)
Definition allowedColumnDefaults (spdef : list F) : gmap string (value F) :=
  list_to_map [
    ("name", VStr "N/A"); ("type", VStr "N/A"); ("patch", VStr "N/A");
    ("ra", VStr "N/A"); ("dec", VStr "N/A");
    ("i", VFloat fzero); ("q", VFloat fzero); ("u", VFloat fzero);
    ("v", VFloat fzero);
    ("majoraxis", VFloat fzero); ("minoraxis", VFloat fzero);
    ("orientation", VFloat fzero);
    ("ishapelet", VStr "N/A"); ("qshapelet", VStr "N/A");
    ("ushapelet", VStr "N/A"); ("vshapelet", VStr "N/A");
    ("category", VInt 2);
    ("rotationmeasure", VFloat fzero); ("polarizationangle", VFloat fzero);
    ("polarizedfraction", VFloat fzero);
    ("referencewavelength", VStr "N/A");
    ("referencefrequency", VFloat fzero);
    ("spectralindex", VList spdef) ].

End Tables.

(** ** tableio.py: the header line *)

Section Header.
Context `{PyFloat F}.

(** Lines 92-98: the first line that contains [format], in any case. *)
Definition find_format_line (lines : list string) : result string :=
  of_option
    (list_find (λ line, Py.contains "format" (Py.lower line) = true) lines
       ≫= λ '(_, line), Some line)
    (Exception "No valid format line found in file.").

(** Lines 99-108. *)
Definition normalise_format (line : string) : result string :=
  let formatString := Py.strip "# " (Py.strip_ws line) in
  if Py.endswith (Py.lower formatString) "format" then
    let parts := removelast (Py.split "=" formatString) in
    Ok ("FORMAT = " +:+ Py.strip "# ()" (Py.join "=" parts))
  else if Py.startswith (Py.lower formatString) "format" then
    let parts := tail (Py.split "=" formatString) in
    Ok ("FORMAT = " +:+ Py.strip "# ()" (Py.join "=" parts))
  else Raise (Exception "Format line not understood.").

(** Lines 126-130: the last token with an unmatched ['['] and the last
    token with an unmatched [']']. *)
Definition opens (cn : string) : bool :=
  Py.contains_char "[" cn && negb (Py.contains_char "]" cn).
Definition closes (cn : string) : bool :=
  Py.contains_char "]" cn && negb (Py.contains_char "[" cn).


Definition scan_brackets (colNames : list string) : option string * option string :=
  foldl (λ '(cnStart, cnEnd) cn,
           (if opens cn then Some cn else cnStart,
            if closes cn then Some cn else cnEnd))
        (None, None) colNames.

(** Lines 136-148, one iteration of the loop over [enumerate(colNames)];
    the state is [(colNamesFixed, toJoin)] and [n] is [len(colNames)]. *)
Definition rejoin_step (indx1 indx2 n : nat) (st : list string * list string)
    (i : nat) (cn : string) : list string * list string :=
  let '(colNamesFixed, toJoin) := st in
  if (i <? indx1)%nat then (colNamesFixed ++ [cn], toJoin)
  else if (indx1 <=? i)%nat && (i <=? indx2)%nat then
    let toJoin' := toJoin ++ [cn] in
    if (i =? n - 1)%nat
    then (colNamesFixed ++ [Py.join "," toJoin'], toJoin')
    else (colNamesFixed, toJoin')
  else
    if (i =? indx2 + 1)%nat
    then (colNamesFixed ++ [Py.join "," toJoin; cn], toJoin)
    else (colNamesFixed ++ [cn], toJoin).

Fixpoint rejoin_loop (indx1 indx2 n : nat) (st : list string * list string)
    (i : nat) (l : list string) : list string * list string :=
  match l with
  | [] => st
  | cn :: l' => rejoin_loop indx1 indx2 n (rejoin_step indx1 indx2 n st i cn) (S i) l'
  end.

(** Lines 124-149.  [colNames.index(cnEnd)] raises [ValueError] when no
    token closes the bracket ([cnEnd] is [None]). *)
Definition fix_colNames (colNames : list string) : result (list string) :=
  match scan_brackets colNames with
  | (None, _) => Ok colNames
  | (Some cnStart, cnEnd) =>
      indx1 ← Py.index cnStart colNames;
      indx2 ← (match cnEnd with
               | Some e => Py.index e colNames
               | None => Raise ValueError
               end);
      Ok (rejoin_loop indx1 indx2 (length colNames) ([], []) 0 colNames).1
  end.

(** Lines 156-171: the default written after [=], if it reads as a float
    or as a bracketed list of floats. *)
Definition parse_default (parts : list string) : option (value F) :=
  match parts with
  | [_; p1] =>
      if Py.contains_char "[" p1 then
        VList <$> mapM (λ p, fparse (Py.strip_ws p))
                       (Py.split "," (Py.strip "'[]" p1))
      else VFloat <$> fparse (Py.strip "'" p1)
  | _ => None
  end.

(** Lines 156-184 for one token: the canonical column name, the column's
    default and the explicit default, which also goes to [metaDict]. *)
Definition column_spec (spdef : list F) (cn : string)
    : result (string * option (value F) * option (value F)) :=
  let parts := Py.split "=" cn in
  let colName := Py.lower (Py.strip_ws (hd "" parts)) in
  let defaultVal := parse_default parts in
  if decide (colName = "") then
    Raise (Exception "Skipping of columns is not yet supported.")
  else
    match allowedColumnNames !! colName with
    | None => Raise (Exception "Column is not currently allowed")
    | Some canon =>
        Ok (canon,
            match defaultVal with
            | Some v => Some v
            | None => allowedColumnDefaults spdef !! colName
            end,
            defaultVal)
    end.

Record header := {
  h_colNames : list string;
  h_colDefaults : list (option (value F));
  h_explicit : list (option (value F));
  h_meta : gmap string (value F);
  h_hasPatches : bool;
}.

(** Lines 99-184. *)
Definition parse_header (spdef : list F) (line : string) : result header :=
  formatString ← normalise_format line;
  let hasPatches := Py.contains "Patch" formatString in
  if negb (Py.contains_char "," formatString) then
    Raise (Exception "Sky model must use ',' as a field separator.")
  else
    colNames ← fix_colNames (Py.split "," formatString);
    first ← of_option (Py.split "=" (hd "" colNames) !! 1%nat) IndexError;
    specs ← mapM (column_spec spdef) (first :: tail colNames);
    Ok {| h_colNames := specs.*1.*1;
          h_colDefaults := specs.*1.*2;
          h_explicit := specs.*2;
          h_meta := foldl (λ m '(cn, _, e),
                             match e with
                             | Some v => <[cn := v]> m
                             | None => m
                             end) ∅ specs;
          h_hasPatches := hasPatches |}.

End Header.

(** ** tableio.py: angles *)

Section Angles.
Context `{PyFloat F}.

(** [float(parts[k])]. *)
Definition float_at (parts : list string) (k : nat) : result F :=
  p ← of_option (parts !! k) IndexError;
  of_option (fparse p) ValueError.

(** Lines 330-332, one element of the comprehension. *)
Definition ra_of_string (rasex : string) : result F :=
  let parts := Py.split ":" rasex in
  h ← float_at parts 0;
  m ← float_at parts 1;
  s ← float_at parts 2;
  Ok (fmul (fadd (fadd h (fdiv m (fofZ 60))) (fdiv s (fofZ 3600))) (fofZ 15)).

(** Lines 363-366, one element of the two comprehensions. *)
Definition dec_of_string (decstr : string) : result F :=
  let decsex := Py.replace_char_n "." ":" 2 decstr in
  let parts := Py.split ":" decsex in
  d ← float_at parts 0;
  m ← float_at parts 1;
  s ← float_at parts 2;
  Ok (fadd (fadd d (fdiv m (fofZ 60))) (fdiv s (fofZ 3600))).

(** A string method called on a value: [AttributeError] unless the value
    is a string. *)
Definition on_str {A} (f : string → result A) (v : value F) : result A :=
  match v with
  | VStr s => f s
  | _ => Raise AttributeError
  end.

(** [Angle(values, unit='degree')] on numbers. *)
Definition degrees (v : value F) : result F :=
  match v with
  | VFloat x => Ok x
  | VInt n => Ok (fofZ n)
  | _ => Raise TypeError
  end.

(** [RA2Angle] on a list; a lone string or float is first wrapped into a
    one-element list (line 326).  [RA[0]] raises [IndexError] on an empty
    list. *)
Definition RA2Angle (RA : list (value F)) : result (list F) :=
  match RA with
  | [] => Raise IndexError
  | VStr _ :: _ =>
      reraise (Exception "RA values not understood.") (mapM (on_str ra_of_string) RA)
  | _ :: _ => mapM degrees RA
  end.

(** [Dec2Angle], lines 358-374. *)
Definition Dec2Angle (Dec : list (value F)) : result (list F) :=
  match Dec with
  | [] => Raise IndexError
  | VStr _ :: _ =>
      reraise (Exception "Dec values not understood.") (mapM (on_str dec_of_string) Dec)
  | _ :: _ => mapM degrees Dec
  end.

End Angles.

(** ** tableio.py: the data lines *)

Section Lines.
Context `{PyFloat F}.

Fixpoint find_char (c : ascii) (s : string) : option nat :=
  match s with
  | "" => None
  | String d s' => if decide (d = c) then Some 0%nat else S <$> find_char c s'
  end.

Fixpoint rfind_char (c : ascii) (s : string) : option nat :=
  match s with
  | "" => None
  | String d s' =>
      match rfind_char c s' with
      | Some i => Some (S i)
      | None => if decide (d = c) then Some 0%nat else None
      end
  end.

(** [re.search('\[.*\]', line)]: the leftmost match starts at the first
    ['['] and, the star being greedy, ends after the last [']'] of the
    line; there is a match when that [']'] comes after that ['[']. The
    result is [(a.start(), a.end())].  A line holds no inner newline. *)
Definition search_brackets (line : string) : option (nat * nat) :=
  match find_char "[" line, rfind_char "]" line with
  | Some i, Some j => if (i <? j)%nat then Some (i, S j) else None
  | _, _ => None
  end.

(** Lines 198-204. *)
Definition mask_brackets (line : string) : string :=
  match search_brackets line with
  | None => line
  | Some (i, j) =>
      let b := Py.slice i j line in
      let c := Py.strip "[]" b in
      let c := if Py.contains_char "," c then Py.replace_char "," ";" c else c in
      Py.replace b c line
  end.

Definition newline : string := String "010" "".

(** The state of the loop over the lines: [metaDict] and [outlines]. *)
Record lines_state := {
  ls_meta : gmap string (value F);
  ls_outlines : list string;
}.

Definition is_header_or_comment (line : string) : bool :=
  Py.startswith line "FORMAT" || Py.startswith line "format" || Py.startswith line "#".

(** Lines 197-205: the fields of a line. *)
Definition fields (line : string) : list string :=
  Py.split "," (mask_brackets (Py.strip newline line)).

(** Lines 211-214. *)
Definition patch_entry (colLines : list string) : result (string * value F) :=
  let patchName := Py.strip_ws (colLines !!! 2%nat) in
  patchRA ← RA2Angle [VStr (Py.strip_ws (colLines !!! 3%nat))];
  patchDec ← Dec2Angle [VStr (Py.strip_ws (colLines !!! 4%nat))];
  ra ← of_option (patchRA !! 0%nat) IndexError;
  dec ← of_option (patchDec !! 0%nat) IndexError;
  Ok (patchName, VPos ra dec).

(** Lines 217-219: pad with blank fields up to the number of columns. *)
Definition padded (ncols : nat) (colLines : list string) : string :=
  Py.join "," (colLines ++ replicate (ncols - length colLines) " ").

(** Lines 191-219, one iteration; [ncols] is [len(colNames)]. *)
Definition read_line (ncols : nat) (st : lines_state) (line : string)
    : result lines_state :=
  if is_header_or_comment line then Ok st
  else
    let colLines := fields line in
    if decide (Py.strip_ws (hd "" colLines) = "") then
      if (4 <? length colLines)%nat then
        '(patchName, pos) ← patch_entry colLines;
        Ok {| ls_meta := <[patchName := pos]> (ls_meta st);
              ls_outlines := ls_outlines st |}
      else Ok st
    else
      Ok {| ls_meta := ls_meta st;
            ls_outlines := ls_outlines st ++ [padded ncols colLines] |}.

Fixpoint read_lines (ncols : nat) (st : lines_state) (lines : list string)
    : result lines_state :=
  match lines with
  | [] => Ok st
  | line :: lines' => st' ← read_line ncols st line; read_lines ncols st' lines'
  end.

End Lines.

(** ** The specification's [parseDec] *)

Section SpecParseDec.
Context `{PyFloat F}.

(** The text before and after the first occurrence of [c]. *)
Fixpoint cut (c : ascii) (s : string) : option (string * string) :=
  match s with
  | "" => None
  | String d s' =>
      if decide (d = c) then Some ("", s')
      else '(a, r) ← cut c s'; Some (String d a, r)
  end.

(** The specification's words for one declination string: only the first
    two ['.'] separate fields, which gives three parts, read as floats
    [D], [M] and [S]; the value is [D + M/60 + S/3600]. *)
Definition spec_parseDec_string (s : string) : option F :=
  '(ds, r) ← cut "." s;
  '(ms, ss) ← cut "." r;
  D ← fparse ds;
  M ← fparse ms;
  S ← fparse ss;
  Some (fadd (fadd D (fdiv M (fofZ 60))) (fdiv S (fofZ 3600))).

Definition spec_parseDec_value (v : value F) : option F :=
  match v with
  | VStr s => spec_parseDec_string s
  | _ => None
  end.

(** The specification's [parseDec] on a batch of strings; a token that
    cannot be read fails the batch. *)
Definition spec_parseDec (values : list (value F)) : result (list F) :=
  of_option (mapM spec_parseDec_value values) (Exception "Dec values not understood.").

(** The strings of a batch hold no [':']. *)
Definition colon_free (v : value F) : bool :=
  match v with
  | VStr s => Py.avoids ":" s
  | _ => true
  end.

(** The rule of the specification: on every batch whose first element is
    a string, [Dec2Angle] gives what [parseDec] gives. *)
Definition parseDec_on_strings : Prop :=
  ∀ (s0 : string) (rest : list (value F)),
    Dec2Angle (VStr s0 :: rest) = spec_parseDec (VStr s0 :: rest).

End SpecParseDec.

(** ** tableio.py: spectral indices *)

Section Spectral.
Context `{PyFloat F}.

(** [[float(f) for f in l.split(';')]]: [AttributeError] when [l] is not
    a string, [ValueError] when a piece is not a float. *)
Definition spectral_entry (l : value F) : result (list F) :=
  on_str (λ s, of_option (mapM fparse (Py.split ";" s)) ValueError) l.

(** Lines 245-253, one iteration of the first loop; the bare [except]
    swallows every exception. *)
Definition maxLen_step (maxLen : nat) (l : value F) : nat :=
  match l with
  | VFloat _ => 1
  | _ =>
      match spectral_entry l with
      | Ok specEntry =>
          if (maxLen <? length specEntry)%nat then length specEntry else maxLen
      | Raise _ => maxLen
      end
  end.

Definition spectral_maxLen (specOld : list (value F)) : nat :=
  foldl maxLen_step 0%nat specOld.

(** Lines 261-262: [while len(specEntry) < maxLen: specEntry.append(0.0)]. *)
Definition zero_pad (maxLen : nat) (specEntry : list F) : list F :=
  specEntry ++ replicate (maxLen - length specEntry) fzero.

(** Lines 256-265, one iteration of the second loop. *)
Definition spectral_row (maxLen : nat) (l : value F) : list F :=
  match (match l with
         | VFloat x => Ok [x]
         | _ => spectral_entry l
         end) with
  | Ok specEntry => zero_pad maxLen specEntry
  | Raise _ => replicate maxLen fzero
  end.

(** Lines 241-265: [specVec] and [maxLen] from [specOld]. *)
Definition convert_spectral (specOld : list (value F)) : list (list F) * nat :=
  let maxLen := spectral_maxLen specOld in
  (spectral_row maxLen <$> specOld, maxLen).

(** [np.array(specVec, dtype=np.float)]: the rows must have one length. *)
Definition np_array (specVec : list (list F)) : result (list (list F)) :=
  match specVec with
  | [] => Ok []
  | r :: _ =>
      if forallb (λ r', (length r' =? length r)%nat) specVec
      then Ok specVec else Raise ValueError
  end.

(** The cells of a NumPy column have one type: in a column of floats every
    cell is a float or is masked; in any other column no cell is a float. *)
Definition float_column (col : list (value F)) : bool :=
  forallb (λ v, match v with VFloat _ | VNone => true | _ => false end) col.
Definition no_float (col : list (value F)) : bool :=
  forallb (λ v, match v with VFloat _ => false | _ => true end) col.

(** The coefficients that the loader reads in a cell: the number of a float
    cell, the floats between the [';'] of a text cell; none in a masked
    cell, in a text that does not read as floats, and in a cell of any other
    type. *)
Definition observed (v : value F) : list F :=
  match v with
  | VFloat x => [x]
  | VStr s => default [] (mapM fparse (Py.split ";" s))
  | _ => []
  end.

End Spectral.

(** ** The Astropy table *)

Section Table.
Context `{PyFloat F}.

(** A table: its columns in order, each a name and the cells of the rows
    ([VNone] for a masked cell), the [meta] dictionary, and whether the
    table is masked (its columns then have [filled] and [fill_value]). *)
Record table := {
  t_columns : list (string * list (value F));
  t_meta : gmap string (value F);
  t_masked : bool;
}.

Definition keys (t : table) : list string := (t_columns t).*1.

(** [table[name].data.tolist()]. *)
Definition column (name : string) (t : table) : result (list (value F)) :=
  of_option ((λ c, c.2.2) <$> list_find (λ c, c.1 = name) (t_columns t)) KeyError.

(** [remove_column(name)] followed by [add_column(col, index=...)] at the
    index the column had. *)
Definition set_column (name : string) (col : list (value F)) (t : table) : table :=
  {| t_columns := (λ c, if decide (c.1 = name) then (name, col) else c) <$> t_columns t;
     t_meta := t_meta t;
     t_masked := t_masked t |}.

Definition nrows (t : table) : nat :=
  match t_columns t with
  | [] => 0
  | c :: _ => length c.2
  end.

(** Modelled from Astropy: how [io.ascii] types a column of tokens.  An
    empty token is a masked cell, which every converter accepts.  The
    columns [Name], [Type] and [Patch] are converted with ['S50'], strings
    cut at 50 characters.  Every other column is tried as [int], then as
    [float], then as [str].  The [int] converter reads the tokens in order
    and stops at the first one it cannot convert: when that token is an
    integer that does not fit in 64 bits ([OverflowError]) the column is
    reverted to text; when it is no integer ([ValueError]) the [float]
    converter is tried, and [str] after it. *)
Definition is_blank (tok : string) : bool := bool_decide (tok = "").

Definition int64 (n : Z) : bool := ((- 2 ^ 63 <=? n) && (n <? 2 ^ 63))%Z.

Definition convert_column (s50 : bool) (toks : list string) : list (value F) :=
  let cells (mk : string → value F) :=
    (λ tok, if is_blank tok then VNone else mk tok) <$> toks in
  let every {A} (conv : string → option A) :=
    forallb (λ tok, is_blank tok || bool_decide (is_Some (conv tok))) toks in
  if s50 then cells (λ tok, VStr (String.substring 0 50 tok))
  else
    match list_find (λ tok, is_blank tok = false ∧
                            int64 <$> Py.parse_int tok ≠ Some true) toks with
    | None => cells (λ tok, VInt (default 0%Z (Py.parse_int tok)))
    | Some (_, tok) =>
        if bool_decide (is_Some (Py.parse_int tok)) then cells VStr
        else if every fparse then cells (λ tok, VFloat (default fzero (fparse tok)))
        else cells VStr
    end.

(** Modelled from Astropy: [Table.read(text, format='ascii.no_header',
    delimiter=',', names=colNames, comment='#', data_start=0,
    converters=...)] on the joined [outlines].  Blank lines and the lines
    that begin with the comment character are dropped, each line is split
    on [','] and its tokens are stripped; a line whose number of tokens
    differs from the number of names is an error; the table is masked when
    a token is empty. *)
Definition ascii_read (colNames : list string) (outlines : list string)
    : result (list (string * list (value F)) * bool) :=
  let data :=
    filter (λ l, Py.strip_ws l ≠ "" ∧ Py.startswith l "#" = false) outlines in
  let toks := (λ l, Py.strip_ws <$> Py.split "," l) <$> data in
  if forallb (λ r, (length r =? length colNames)%nat) toks then
    Ok (imap (λ j name,
                (name, convert_column
                         (bool_decide (name ∈ ["Name"; "Type"; "Patch"]))
                         ((λ r, r !!! j) <$> toks)))
             colNames,
        existsb (existsb is_blank) toks)
  else Raise (Exception "InconsistentTableError").

End Table.
Arguments table F : clear implicits.

(** ** tableio.py: [skyModelReader] *)

Section Reader.
Context `{PyFloat F}.

(** Lines 239-269. *)
Definition read_spectral (t : table F) : result (table F * option nat) :=
  if bool_decide ("SpectralIndex" ∈ keys t) then
    specOld ← column "SpectralIndex" t;
    let '(specVec, maxLen) := convert_spectral specOld in
    specCol ← np_array specVec;
    Ok (set_column "SpectralIndex" (VList <$> specCol) t, Some maxLen)
  else Ok (t, None).

(** Lines 293-305.  Only the default of [SpectralIndex] is changed: in a
    masked table the list is padded in place to [maxLen].  That list is
    the object stored in [metaDict] when the header gave the default
    (unless a patch of that name has replaced the entry by a position),
    and the object stored in the module's [allowedColumnDefaults] when it
    did not; the result is the new [metaDict] and the new content of the
    module's list. *)
Definition pad_spectral_default (hdr : header) (masked : bool) (maxLen : option nat)
    (meta : gmap string (value F)) (spdef : list F)
    : result (gmap string (value F) * list F) :=
  match list_find (λ c, c.1.1 = "SpectralIndex")
          (zip (zip (h_colNames hdr) (h_colDefaults hdr)) (h_explicit hdr)) with
  | Some (_, (_, Some colDefault, explicit)) =>
      if masked then
        match colDefault, maxLen with
        | VList l, Some n =>
            let l' := zero_pad n l in
            match explicit with
            | Some _ =>
                Ok (match meta !! "SpectralIndex" with
                    | Some (VList _) => <["SpectralIndex" := VList l']> meta
                    | _ => meta
                    end, spdef)
            | None => Ok (meta, l')
            end
        | _, _ => Raise TypeError
        end
      else Ok (meta, spdef)
  | _ => Ok (meta, spdef)
  end.

(** [skyModelReader] on the lines of the file.  [spdef] is the content of
    the module's default list for [SpectralIndex] before the call; its
    content after the call comes with the table.  Units and fill values
    are attributes of the columns that no cell depends on; they are left
    out. *)
Definition skyModelReader (spdef : list F) (lines : list string)
    : result (table F * list F) :=
  formatString ← find_format_line lines;
  hdr ← parse_header spdef formatString;
  let colNames := h_colNames hdr in
  st ← read_lines (length colNames)
         {| ls_meta := h_meta hdr; ls_outlines := [] |} lines;
  let outlines := ls_outlines st ++ [newline] in
  _ ← Py.index "Name" colNames;
  _ ← Py.index "Type" colNames;
  '(cols, masked) ← ascii_read colNames outlines;
  '(t1, maxLen) ← read_spectral {| t_columns := cols; t_meta := ∅; t_masked := masked |};
  RARaw ← column "Ra" t1;
  RACol ← RA2Angle RARaw;
  let t2 := set_column "Ra" (VFloat <$> RACol) t1 in
  DecRaw ← column "Dec" t2;
  DecCol ← Dec2Angle DecRaw;
  let t3 := set_column "Dec" (VFloat <$> DecCol) t2 in
  '(meta, spdef') ← pad_spectral_default hdr masked maxLen (ls_meta st) spdef;
  Ok ({| t_columns := t_columns t3; t_meta := meta; t_masked := masked |}, spdef').

End Reader.

(** ** tableio.py: [skyModelWriter] *)

Section Writer.
Context `{PyFloat F}.

(** [str(l)] for a list of floats. *)
Definition str_list (l : list F) : string :=
  "[" +:+ Py.join ", " (frepr <$> l) +:+ "]".

(** ['{0}'.format(v)]. *)
Definition str_value (v : value F) : string :=
  match v with
  | VNone => "None"
  | VStr s => s
  | VInt n => Py.str_int n
  | VFloat x => fstr x
  | VList l => str_list l
  | VPos ra dec => str_list [ra; dec]
  end.

(** Lines 415-429: the header token of a column, [None] for a column that
    is not in [allowedColumnNames]. *)
Definition header_token (meta : gmap string (value F)) (colKey : string)
    : option string :=
  colName ← allowedColumnNames !! Py.lower colKey;
  Some match meta !! colName with
       | Some v => colName +:+ "='" +:+ str_value v +:+ "'"
       | None =>
           if decide (colName = "SpectralIndex") then colName +:+ "='[]'"
           else colName
       end.

(** [==] between a list of floats and a default. *)
Definition list_eqb (l1 l2 : list F) : bool :=
  (length l1 =? length l2)%nat && forallb (λ p, feqb p.1 p.2) (zip l1 l2).

Definition equals_default (dlist : list F) (v : option (value F)) : bool :=
  match v with
  | Some (VList l) => list_eqb dlist l
  | Some (VPos ra dec) => list_eqb dlist [ra; dec]
  | _ => false
  end.

(** Lines 502-508 for a text cell [s]: in the columns [Ra] and [Dec] the
    text goes through [Angle(s, unit='degree')], which reads an angle in it
    or raises [ValueError]; in any other column it is written as it is. *)
Definition text_str (colKey : string) (s : string) : result string :=
  if decide (colKey = "Ra") then
    x ← of_option (fangle s) ValueError; Ok (fmt_ra x)
  else if decide (colKey = "Dec") then
    x ← of_option (fangle s) ValueError; Ok (fmt_dec x)
  else Ok s.

(** Lines 485-509: the text of one cell of a row of [table.filled(-9999)].
    A masked cell holds [-9999] there, as a number in a numeric column and
    as the text ['-9999'] in a string column ([is_str]). *)
Definition cell_str (spdef : list F) (meta : gmap string (value F))
    (colKey colName : string) (is_str : bool) (d : value F) : result string :=
  match d with
  | VNone => if is_str then text_str colKey "-9999" else Ok " "
  | VList dl =>
      if existsb (λ x, feqb x (fofZ (-9999))) dl then Ok " "
      else
        let defaultVal := allowedColumnDefaults spdef !! Py.lower colName in
        let blank :=
          match meta !! colName with
          | Some fillVal => equals_default dl (Some fillVal)
          | None => equals_default dl defaultVal
          end in
        Ok (str_list (if blank then [] else dl))
  | VFloat x =>
      if feqb x (fofZ (-9999)) then Ok " "
      else if decide (colKey = "Ra") then Ok (fmt_ra x)
      else if decide (colKey = "Dec") then Ok (fmt_dec x)
      else Ok (fstr x)
  | VInt n =>
      if decide (n = (-9999)%Z) then Ok " "
      else if decide (colKey = "Ra") then Ok (fmt_ra (fofZ n))
      else if decide (colKey = "Dec") then Ok (fmt_dec (fofZ n))
      else Ok (Py.str_int n)
  | VStr s => text_str colKey s
  | VPos ra dec => Ok (str_list [ra; dec])
  end.

(** Lines 511-512: [while line[-1] == ' ': line.pop()], which raises
    [IndexError] once the list is empty. *)
Fixpoint pop_blanks (rev_line : list string) : result (list string) :=
  match rev_line with
  | [] => Raise IndexError
  | x :: rest => if decide (x = " ") then pop_blanks rest else Ok (reverse rev_line)
  end.

(** A string column: one of the ['S50'] columns or a column with a text
    cell. *)
Definition is_str_column (c : string * list (value F)) : bool :=
  bool_decide (c.1 ∈ ["Name"; "Type"; "Patch"]) ||
  existsb (λ v, match v with VStr _ => true | _ => false end) c.2.

(** Lines 480-484: the columns that [rowStr] writes, each with its name
    in [allowedColumnNames]; a column that has none is passed over. *)
Definition known_columns (t : table F) : list (string * list (value F) * string) :=
  omap (λ c, colName ← allowedColumnNames !! Py.lower c.1; Some (c, colName))
       (t_columns t).

(** Lines 479-509 of [rowStr]: the list [line] when the loop over the
    columns ends, before the trailing blanks are popped. *)
Definition row_cells (spdef : list F) (t : table F) (i : nat) : result (list string) :=
  mapM (λ cn : string * list (value F) * string,
          cell_str spdef (t_meta t) cn.1.1 cn.2 (is_str_column cn.1) (cn.1.2 !!! i))
       (known_columns t).

(** [rowStr(row, metaDict)] for row [i] of the table. *)
Definition rowStr (spdef : list F) (t : table F) (i : nat) : result (list string) :=
  line ← row_cells spdef t i;
  pop_blanks (reverse line).

(** Lines 449-452 and 454-457. *)
Definition row_lines (spdef : list F) (t : table F) : result (list string) :=
  ls ← mapM (rowStr spdef t) (seq 0 (nrows t));
  Ok (concat ((λ line, [Py.join ", " line; newline]) <$> ls)).

(** Insertion of [i] before the first index whose key is not smaller. *)
Fixpoint insert_by (key : nat → string) (i : nat) (l : list nat) : list nat :=
  match l with
  | [] => [i]
  | j :: l' =>
      if String.leb (key i) (key j) then i :: l
      else j :: insert_by key i l'
  end.

(** A stable sort of the row indices by key. *)
Definition argsort (key : nat → string) (n : nat) : list nat :=
  foldr (insert_by key) [] (seq 0 n).

(** The distinct values of a sorted list. *)
Fixpoint uniq (l : list string) : list string :=
  match l with
  | [] => []
  | x :: l' =>
      match l' with
      | [] => [x]
      | y :: _ => if decide (x = y) then uniq l' else x :: uniq l'
      end
  end.

(** Modelled from Astropy: [table.group_by('Patch')] gives the table with
    its rows sorted by the key, rows of equal key in their former order,
    and [groups.keys], the distinct keys in ascending order.  A masked
    key is refused. *)
Definition group_by_Patch (t : table F) : result (table F * list string) :=
  patchCol ← column "Patch" t;
  names ← mapM (λ v, match v with
                     | VStr s => Ok s
                     | _ => Raise ValueError
                     end) patchCol;
  let order := argsort (λ i, names !!! i) (length names) in
  Ok ({| t_columns := (λ c, (c.1, (λ i, c.2 !!! i) <$> order)) <$> t_columns t;
         t_meta := t_meta t;
         t_masked := t_masked t |},
      uniq ((λ i, names !!! i) <$> order)).

(** Lines 444-448: the text of a patch-definition line. *)
Definition patch_definition_line (patchName : string) (gRA gDec : F) : string :=
  " , , " +:+ patchName +:+ ", " +:+ fmt_ra gRA +:+ ", " +:+ fmt_dec gDec +:+ newline.

(** Lines 439-448: the patch-definition line of a patch.  The unpacking
    [gRA, gDec = table.meta[patchName]] needs a sequence of two elements:
    a number or [None] raises [TypeError], a sequence of another length
    raises [ValueError]; the two characters of a string of length two go
    through [Angle(_, unit='degree')] as texts. *)
Definition patch_line (meta : gmap string (value F)) (patchName : string)
    : result string :=
  '(gRA, gDec) ← match meta !! patchName with
                  | Some (VPos ra dec) => Ok (ra, dec)
                  | Some (VList [ra; dec]) => Ok (ra, dec)
                  | Some (VList _) => Raise ValueError
                  | Some (VStr (String a (String b ""))) =>
                      ra ← of_option (fangle (String a "")) ValueError;
                      dec ← of_option (fangle (String b "")) ValueError;
                      Ok (ra, dec)
                  | Some (VStr _) => Raise ValueError
                  | Some _ => Raise TypeError
                  | None => Ok (fzero, fzero)
                  end;
  Ok (patch_definition_line patchName gRA gDec).

(** Lines 413-432. *)
Definition format_lines (t : table F) : list string :=
  ["FORMAT = " +:+ Py.join ", " (omap (header_token (t_meta t)) (keys t));
   newline; newline].

(** [skyModelWriter]: the list [outLines] written to the file.  The
    conversion of units is the identity on a table that already has the
    units of [allowedColumnUnits]. *)
Definition skyModelWriter (spdef : list F) (t : table F) : result (list string) :=
  if bool_decide ("Patch" ∈ keys t) then
    '(t', patchNames) ← group_by_Patch t;
    patchLines ← mapM (patch_line (t_meta t')) patchNames;
    rowLines ← row_lines spdef t';
    Ok (format_lines t ++ patchLines ++ rowLines)
  else
    rowLines ← row_lines spdef t;
    Ok (format_lines t ++ rowLines).

End Writer.

(** ** Files *)

(** [f.writelines(outLines)]: the text of the file. *)
Definition writelines (outLines : list string) : string :=
  foldr String.app "" outLines.

(** [f.readlines()]: the lines of a text, each with its newline. *)
Fixpoint readlines (text : string) : list string :=
  match text with
  | "" => []
  | String c text' =>
      if decide (c = "010"%char) then String c "" :: readlines text'
      else match readlines text' with
           | [] => [String c ""]
           | l :: ls => String c l :: ls
           end
  end.

(** ** operations/concatenate.py *)

Section Concatenate.
Context `{PyFloat F} {A : Type}.

(** A row of a sky model, as [concatenate] looks at it: its name, its
    position in degrees, its spectral index, and the other columns. *)
Record source := {
  src_Name : string;
  src_RA : F;
  src_Dec : F;
  src_SpectralIndex : list F;
  src_rest : A;
}.

(** A row of the merged table: the row it comes from, its current name,
    its cell in the [match] column when there is one, and its spectral
    index once the column is added back. *)
Record merged := {
  row_src : source;
  row_Name : string;
  row_match : option nat;
  row_SpectralIndex : list F;
}.

(** The great-circle separation, in degrees, of two positions
    [(RA, Dec)]: Astropy's [separation], a parameter of the model. *)
Variable separation : F * F → F * F → Q.

(** The order in which [for name in set(names)] visits the names. *)
Variable iter_set : list string → list string.

(** The width of the column [Name] of the stacked table, a column of
    strings of fixed width: the larger of the widths of the two columns
    stacked ([skyModelReader] asks for 50 characters, line 227); an
    assignment to a cell keeps the first [nameWidth] characters. *)
Variable nameWidth : nat.

(** Modelled from the spec: [getColValues('RA')] and [getColValues('Dec')]
    (skymodel.py, not among the sources) are taken to return the right
    ascension and the declination of each row, in degrees. *)
Definition position (s : source) : F * F := (src_RA s, src_Dec s).

Inductive match_mode := ByName | ByPosition.

(** [matchBy.lower()] compared with ['name'] and ['position']. *)
Definition match_mode_of (matchBy : string) : option match_mode :=
  let m := Py.lower matchBy in
  if decide (m = "name") then Some ByName
  else if decide (m = "position") then Some ByPosition
  else None.

(** The nearest of [catalogcoord] to [p]: its index and its separation,
    the first one among equally near points. *)
Fixpoint nearest_from (p : F * F) (catalogcoord : list (F * F)) (j : nat)
    (best : nat * Q) : nat * Q :=
  match catalogcoord with
  | [] => best
  | q :: rest =>
      let d := separation p q in
      nearest_from p rest (S j) (if Qlt_le_dec d best.2 then (j, d) else best)
  end.

Definition nearest (p : F * F) (catalogcoord : list (F * F)) : option (nat * Q) :=
  match catalogcoord with
  | [] => None
  | q :: rest => Some (nearest_from p rest 1 (0%nat, separation p q))
  end.

(** Modelled from Astropy: [catalog.match_to_catalog_sky(catalogcoord)]
    gives, for each position of [catalog], the index into [catalogcoord]
    of the nearest position there and the separation to it ([idx] and
    [d2d], of the length of [catalog]).  An empty [catalogcoord] is
    refused. *)
Definition match_to_catalog_sky (catalog catalogcoord : list (F * F))
    : result (list (nat * Q)) :=
  match catalogcoord with
  | [] => Raise ValueError
  | _ :: _ => mapM (λ p, of_option (nearest p catalogcoord) ValueError) catalog
  end.

(** Line 127, [matchCol2[idx[matches]] = matchCol1[matches]], for one
    row [i] of catalog 1 ([matchCol1[i]] is [i]); NumPy assigns in the
    order of [matches], so a later row overwrites an earlier one. *)
Definition assign_match (radius : Q) (matchCol2 : list nat) (i : nat) (m : nat * Q)
    : list nat :=
  if Qle_bool m.2 radius then <[m.1 := i]> matchCol2 else matchCol2.

Fixpoint assign_matches (radius : Q) (matchCol2 : list nat) (i : nat)
    (ms : list (nat * Q)) : list nat :=
  match ms with
  | [] => matchCol2
  | m :: ms' => assign_matches radius (assign_match radius matchCol2 i m) (S i) ms'
  end.

(** Lines 115-127: [matchCol1] and [matchCol2]. *)
Definition match_columns (radius : Q) (LSM1 LSM2 : list source)
    : result (list nat * list nat) :=
  ms ← match_to_catalog_sky (position <$> LSM1) (position <$> LSM2);
  Ok (seq 0 (length LSM1),
      assign_matches radius (seq (length LSM1) (length LSM2)) 0 ms).

(** Lines 111-134: the stacked rows, without their spectral index. *)
Definition stack (mode : match_mode) (radius : Q) (LSM1 LSM2 : list source)
    : result (list (source * option nat)) :=
  match mode with
  | ByName => Ok ((λ s, (s, None)) <$> (LSM1 ++ LSM2))
  | ByPosition =>
      '(matchCol1, matchCol2) ← match_columns radius LSM1 LSM2;
      Ok (zip LSM1 (Some <$> matchCol1) ++ zip LSM2 (Some <$> matchCol2))
  end.

(** [spCol[np.where(nameCol.data == name)]]: the spectral indices of the
    rows of that name. *)
Definition spectral_of (name : string) (LSM : list source) : list (list F) :=
  src_SpectralIndex <$> filter (λ s, src_Name s = name) LSM.

(** [spData[i] = v] where [spData] is [np.zeros((len(LSM1), 2))]: NumPy
    broadcasts the array [v], of shape [(k, w)], to the shape [(2,)] of
    the row.  One row of two numbers fits, one row of one number is
    repeated, and anything else raises [ValueError]. *)
Definition assign_spData_row (v : list (list F)) : result (list F) :=
  match v with
  | [[x]] => Ok [x; x]
  | [[x; y]] => Ok [x; y]
  | _ => Raise ValueError
  end.

(** Lines 138-144, one iteration. *)
Definition spData_row (LSM1 LSM2 : list source) (name : string) : result (list F) :=
  if bool_decide (name ∈ src_Name <$> LSM2)
  then assign_spData_row (spectral_of name LSM2)
  else assign_spData_row (spectral_of name LSM1).

(** Lines 136-146. *)
Definition add_spectral (LSM1 LSM2 : list source) (stacked : list (source * option nat))
    : result (list merged) :=
  mapM (λ '(s, m),
          sp ← spData_row LSM1 LSM2 (src_Name s);
          Ok {| row_src := s; row_Name := src_Name s;
                row_match := m; row_SpectralIndex := sp |}) stacked.

(** [np.where(vals == val)[0]], for [vals] whose first index is [i]. *)
Fixpoint where_from {K} `{EqDecision K} (i : nat) (vals : list K) (val : K) : list nat :=
  match vals with
  | [] => []
  | v :: vals' =>
      if decide (v = val) then i :: where_from (S i) vals' val
      else where_from (S i) vals' val
  end.

Definition where_eq {K} `{EqDecision K} (vals : list K) (val : K) : list nat :=
  where_from 0 vals val.

(** Lines 155-162: the list [toRemove].  Every row whose value several
    rows have appends an entry: with ['from1'] the array [indx[1:]], with
    any other [keep] the number [indx[0]], written here as the array of
    that one number. *)
Definition toRemove {K} `{EqDecision K} (keep : string) (vals : list K)
    : list (list nat) :=
  omap (λ val,
          let indx := where_eq vals val in
          if (1 <? length indx)%nat then
            Some (if decide (keep = "from1") then drop 1 indx else take 1 indx)
          else None) vals.

(** Modelled from NumPy: the index array that [keep_mask[toRemove] = False]
    makes of the list [toRemove].  Numbers, and arrays of one length, make
    an array of integers, which lists the indices of all the entries;
    arrays of different lengths make no array of integers, and the
    indexing raises [IndexError]. *)
Definition index_array (entries : list (list nat)) : result (list nat) :=
  match entries with
  | [] => Ok []
  | a :: _ =>
      if forallb (λ b, (length b =? length a)%nat) entries
      then Ok (concat entries) else Raise IndexError
  end.

(** The rows whose index is not in [removed]; [i] is the index of the
    first of [rows]. *)
Fixpoint remove_from {B} (i : nat) (removed : list nat) (rows : list B) : list B :=
  match rows with
  | [] => []
  | r :: rows' =>
      if decide (i ∈ removed) then remove_from (S i) removed rows'
      else r :: remove_from (S i) removed rows'
  end.

(** Modelled from Astropy: [table.remove_rows(toRemove)] clears
    [keep_mask] at the indices of the index array and keeps the rows whose
    mask is still set: a row is removed when it is listed, whatever the
    number of times. *)
Definition remove_rows {B} (entries : list (list nat)) (rows : list B)
    : result (list B) :=
  removed ← index_array entries;
  Ok (remove_from 0 removed rows).

(** Lines 150-154: the cell of a row in the column [colName]. *)
Definition duplicate_key (mode : match_mode) (r : merged) : string + option nat :=
  match mode with
  | ByName => inl (row_Name r)
  | ByPosition => inr (row_match r)
  end.

(** Lines 148-163. *)
Definition resolve_conflicts (mode : match_mode) (keep : string) (rows : list merged)
    : result (list merged) :=
  if bool_decide (keep = "from1" ∨ keep = "from2")
  then remove_rows (toRemove keep (duplicate_key mode <$> rows)) rows
  else Ok rows.

(** Row [i] comes after a row of the same key. *)
Definition later_occurrence {K} (vals : list K) (i : nat) : Prop :=
  ∃ j v, j < i ∧ vals !! j = Some v ∧ vals !! i = Some v.

(** Row [i] is the first of several rows of one key. *)
Definition first_of_several {K} (vals : list K) (i : nat) : Prop :=
  ∃ v, vals !! i = Some v ∧ (∀ j, j < i → vals !! j ≠ Some v) ∧
       ∃ j, i < j ∧ vals !! j = Some v.

(** [table['Name'][i] = s]: the column stores the first [nameWidth]
    characters of [s]. *)
Definition set_Name (i : nat) (s : string) (current : list string) : list string :=
  <[i := String.substring 0 nameWidth s]> current.

(** Lines 168-171, one iteration: [names] is the array that
    [getColValues('Name')] returned before the loop, a copy of the column,
    and [current] is the column being renamed. *)
Definition rename_one (names : list string) (current : list string) (name : string)
    : list string :=
  match where_eq names name with
  | i0 :: i1 :: _ => set_Name i1 (name +:+ "_2") (set_Name i0 (name +:+ "_1") current)
  | _ => current
  end.

(** Lines 167-171: the loop, on the column [names]. *)
Definition rename_duplicates (names : list string) : list string :=
  foldl (rename_one names) names (iter_set names).

(** Modelled from the spec: [SkyModel.getColValues] is a method of
    skymodel.py, which is not among the sources.  [getColValues('Name')] is
    taken to return the values of the column [Name] of the table, in the
    order of the rows, in an array of its own. *)
Definition getColValues_Name (rows : list merged) : list string :=
  row_Name <$> rows.

(** Lines 165-171. *)
Definition rename_rows (rows : list merged) : list merged :=
  zip_with (λ r n, {| row_src := row_src r; row_Name := n;
                      row_match := row_match r;
                      row_SpectralIndex := row_SpectralIndex r |})
           rows (rename_duplicates (getColValues_Name rows)).

(** Lines 173-174. *)
Definition drop_match (r : merged) : merged :=
  {| row_src := row_src r; row_Name := row_Name r;
     row_match := None; row_SpectralIndex := row_SpectralIndex r |}.

(** [concatenate(LSM1, LSM2, matchBy, radius, keep)]: the rows of
    [LSM1.table] after the call.  With a [matchBy] that is neither
    ['name'] nor ['position'] no table is stacked and the call fails
    when the spectral index column is added to a table that still has
    it.  The calls [LSM2.group('every')], [LSM2.ungroup()] (lines 94-97)
    and [LSM1._updateGroups(method='mid')] (lines 176-177) go to
    skymodel.py, which is not among the sources; by the specification they
    set the [Patch] column and the reference positions in [meta], which are
    among the other columns [src_rest] here and are left as they are. *)
Definition concatenate (LSM1 LSM2 : list source) (matchBy : string) (radius : Q)
    (keep : string) : result (list merged) :=
  mode ← of_option (match_mode_of matchBy) ValueError;
  stacked ← stack mode radius LSM1 LSM2;
  rows ← add_spectral LSM1 LSM2 stacked;
  kept ← resolve_conflicts mode keep rows;
  Ok (drop_match <$> rename_rows kept).

End Concatenate.
Arguments source F A : clear implicits.
Arguments merged F A : clear implicits.

(** ** The rename pass, in the specification's words *)

(** The name of row [i], now called [name], after the rename pass over the
    column [names]: of a name that several rows have, the first row gets
    the suffix [_1] and the second the suffix [_2]; every other row keeps
    its name. *)
Definition renamed (names : list string) (i : nat) (name : string) : string :=
  match where_eq names name with
  | i0 :: i1 :: _ =>
      if decide (i = i0) then name +:+ "_1"
      else if decide (i = i1) then name +:+ "_2"
      else name
  | _ => name
  end.

Section RenameSpec.
Context `{PyFloat F} {A : Type}.
Variable separation : F * F → F * F → Q.

(** The result [out] of a merge is the table that conflict resolution
    leaves ([rows], computed from the stacked rows with their spectral
    index), with each row renamed as [renamed] says. *)
Definition renamed_after_resolution (LSM1 LSM2 : list (source F A))
    (matchBy : string) (radius : Q) (keep : string) (out : list (merged F A)) : Prop :=
  ∃ mode stacked rows0 rows,
    match_mode_of matchBy = Some mode ∧
    stack separation mode radius LSM1 LSM2 = Ok stacked ∧
    add_spectral LSM1 LSM2 stacked = Ok rows0 ∧
    resolve_conflicts mode keep rows0 = Ok rows ∧
    length out = length rows ∧
    ∀ i r, rows !! i = Some r →
      row_Name <$> out !! i = Some (renamed (row_Name <$> rows) i (row_Name r)).

End RenameSpec.

(** ** Matching by position, in the specification's words *)

Section MatchSpec.
Context `{PyFloat F} {A : Type}.
Variable separation : F * F → F * F → Q.




End MatchSpec.

(** ** Data for the examples *)

(** The great-circle separation of two positions on one meridian (equal
    right ascensions, declinations in degrees) is the difference of their
    declinations.  All the positions of the examples have right ascension
    0. *)
Definition meridian_separation (p q : Q * Q) : Q := Qred (Qabs (p.2 - q.2)).

(** A source on the meridian of right ascension 0. *)
Definition source_at (name : string) (dec : Q) (sp : list Q) : source Q () :=
  {| src_Name := name; src_RA := 0%Q; src_Dec := dec;
     src_SpectralIndex := sp; src_rest := () |}.

(** ** The order of the patches, in the specification's words *)

Section PatchOrderSpec.
Context `{PyFloat F}.

(** The distinct values of a list in the order of their first occurrence. *)
Definition first_seen (l : list string) : list string :=
  foldl (λ seen x, if decide (x ∈ seen) then seen else seen ++ [x]) [] l.

(** The rule of the specification: after the header the written lines are
    the patch-definition lines, one per patch, in the order in which the
    patches are first seen in the [Patch] column, and then the rows. *)
Definition patches_first_seen (spdef : list F) (t : table F) : Prop :=
  ∀ out names,
    skyModelWriter spdef t = Ok out →
    column "Patch" t = Ok (VStr <$> names) →
    ∃ patchLines rowLines,
      mapM (patch_line (t_meta t)) (first_seen names) = Ok patchLines ∧
      out = format_lines t ++ patchLines ++ rowLines.

(** The reference position that a patch-definition line shows: the pair
    that [meta] holds under the name of the patch, [(0, 0)] when it holds
    nothing (a text of two characters is a pair as well, of two texts that
    are read as angles). *)
Definition reference_position (meta : gmap string (value F)) (patchName : string)
    : option (F * F) :=
  match meta !! patchName with
  | None => Some (fzero, fzero)
  | Some (VPos ra dec) => Some (ra, dec)
  | Some (VList [ra; dec]) => Some (ra, dec)
  | Some (VStr (String a (String b ""))) =>
      ra ← fangle (String a ""); dec ← fangle (String b ""); Some (ra, dec)
  | Some _ => None
  end.

(** What the code does: after the header come the patch-definition lines,
    one per patch, in ascending order of the names of the patches, each
    showing the reference position of the patch, and then the rows, sorted
    by patch, the rows of one patch in the order they have in the table
    ([order] lists the indices of the rows as they are written). *)
Definition patches_ascending (spdef : list F) (t : table F) (out : list string) : Prop :=
  ∃ (names patchNames patchLines rowLines : list string) (order : list nat) (t' : table F),
    column "Patch" t = Ok (VStr <$> names) ∧
    out = format_lines t ++ patchLines ++ rowLines ∧
    StronglySorted (strict String.le) patchNames ∧
    (∀ p, p ∈ patchNames ↔ p ∈ names) ∧
    Forall2 (λ p line, ∃ ra dec, reference_position (t_meta t) p = Some (ra, dec) ∧
                                 line = patch_definition_line p ra dec)
            patchNames patchLines ∧
    order ≡ₚ seq 0 (length names) ∧
    StronglySorted String.le ((λ i, names !!! i) <$> order) ∧
    (∀ p q i j, p < q → order !! p = Some i → order !! q = Some j →
                names !!! i = names !!! j → i < j) ∧
    t_columns t' = (λ c, (c.1, (λ i, c.2 !!! i) <$> order)) <$> t_columns t ∧
    t_meta t' = t_meta t ∧
    row_lines spdef t' = Ok rowLines.

End PatchOrderSpec.

(** A table of two sources whose patches come in the order [b], [a]; only
    [b] has a reference position in [meta]. *)
Definition table_b_a : table Q :=
  {| t_columns :=
       [("Name", [VStr "s1"; VStr "s2"]);
        ("Type", [VStr "POINT"; VStr "POINT"]);
        ("Patch", [VStr "b"; VStr "a"]);
        ("Ra", [VFloat 180%Q; VFloat 15%Q]);
        ("Dec", [VFloat 10%Q; VFloat (-21 # 2)%Q]);
        ("I", [VFloat (3 # 2)%Q; VFloat 2%Q])];
     t_meta := {[ "b" := VPos 180%Q 10%Q ]};
     t_masked := false |}.

(** Reading a file and writing a table, on the text of the file. *)
Section FileIO.
Context `{PyFloat F}.

Definition read_file (spdef : list F) (text : string) : result (table F * list F) :=
  skyModelReader spdef (readlines text).

Definition write_file (spdef : list F) (t : table F) : result string :=
  outLines ← skyModelWriter spdef t;
  Ok (writelines outLines).

(** Read a file, write the table, read what was written: the two tables. *)
Definition round_trip (spdef : list F) (text : string) : result (table F * table F) :=
  '(t1, spdef1) ← read_file spdef text;
  written ← write_file spdef1 t1;
  '(t2, _) ← read_file spdef1 written;
  Ok (t1, t2).

End FileIO.

(** A sky model of one source whose spectral index is the default of the
    header. *)
Definition file_one_source : string :=
  "FORMAT = Name, Type, Ra, Dec, I, SpectralIndex='[-0.8]'" +:+ newline +:+
  "a, POINT, 12:00:00, 10.00.00, 1.5, [-0.8]" +:+ newline.

(** A sky model of two sources, one of which has the default spectral
    index. *)
Definition file_two_sources : string :=
  "FORMAT = Name, Type, Ra, Dec, I, SpectralIndex='[-0.8]'" +:+ newline +:+
  "a, POINT, 12:00:00, 10.00.00, 1.5, [-0.8]" +:+ newline +:+
  "b, POINT, 12:00:00, 11.00.00, 2.5, [-0.7]" +:+ newline.

(** Catalog 1 has one source; catalog 2 has two sources near it, the first
    one nearer. *)
Definition catalog_p : list (source Q ()) := [source_at "p0" 10 [0; 0]%Q].
Definition catalog_q : list (source Q ()) :=
  [source_at "q0" (1001 # 100) [0; 0]%Q; source_at "q1" (1002 # 100) [0; 0]%Q].

(** Two catalogs that both have a source named [X]. *)
Definition catalog_X1 : list (source Q ()) :=
  [source_at "A" 10 [1; 2]%Q; source_at "X" 20 [3; 4]%Q].
Definition catalog_X2 : list (source Q ()) :=
  [source_at "X" 30 [5; 6]%Q; source_at "C" 40 [7; 8]%Q].

(** ** tableio.py: [skyModelIdentify] *)

(** What [args[0]] is: the name of a file that can be opened or an open
    file, with the lines that iterating over the file gives, or an object
    of another type. *)
Inductive identify_arg :=
  | FileName (lines : list string)
  | FileObject (lines : list string)
  | OtherObject.

(** Lines 382-391. *)
Definition skyModelIdentify (arg : identify_arg) : bool :=
  match arg with
  | FileName lines | FileObject lines =>
      existsb (λ line, Py.startswith line "FORMAT" || Py.startswith line "format") lines
  | OtherObject => false
  end.

(** ** The ends of a string *)

Fixpoint last_char (s : string) : option ascii :=
  match s with
  | "" => None
  | String c s' => match last_char s' with Some d => Some d | None => Some c end
  end.

Definition first_char (s : string) : option ascii :=
  match s with
  | "" => None
  | String c _ => Some c
  end.

(** [outside chars o]: the character [o], if there is one, is not one of
    [chars]. *)
Definition outside (chars : string) (o : option ascii) : bool :=
  match o with
  | Some c => negb (Py.contains_char c chars)
  | None => true
  end.

(** ** Data for the examples of the codec and of the merge *)

(** A table of one source, with a default for one of its columns in
    [meta] and a spectral index of two coefficients. *)
Definition table_defaults : table Q :=
  {| t_columns :=
       [("Name", [VStr "a"]);
        ("Type", [VStr "POINT"]);
        ("Ra", [VFloat 180%Q]);
        ("Dec", [VFloat 10%Q]);
        ("I", [VFloat (3 # 2)%Q]);
        ("ReferenceFrequency", [VFloat 74000000%Q]);
        ("SpectralIndex", [VList [(-4 # 5)%Q; (1 # 10)%Q]])];
     t_meta := {[ "ReferenceFrequency" := VFloat 74000000%Q ]};
     t_masked := false |}.

(** A table as [Table.read] returns it, with the spectral indices still
    in text; the second source has none. *)
Definition table_raw : table Q :=
  {| t_columns :=
       [("Name", [VStr "a"; VStr "b"]);
        ("SpectralIndex", [VStr "-0.8;0.1"; VNone])];
     t_meta := ∅;
     t_masked := true |}.

(** A sky model whose second source has no spectral index. *)
Definition file_blank_spectral : string :=
  "FORMAT = Name, Type, Ra, Dec, I, SpectralIndex" +:+ newline +:+
  "a, POINT, 12:00:00, 10.00.00, 1.5, [-0.8, 0.1]" +:+ newline +:+
  "b, POINT, 12:00:00, 11.00.00, 2.5" +:+ newline.

(** A catalog in which two sources have one name. *)
Definition catalog_D : list (source Q ()) :=
  [source_at "D" 50 [1; 2]%Q; source_at "D" 60 [3; 4]%Q].

(** A sky model whose spectral indices are written without a decimal
    point, and the same sky model with a decimal point in the first one. *)
Definition file_integer_spectral : string :=
  "FORMAT = Name, Type, Ra, Dec, I, SpectralIndex" +:+ newline +:+
  "a, POINT, 12:00:00, 10.00.00, 1.5, [1]" +:+ newline +:+
  "b, POINT, 12:00:00, 11.00.00, 2.5, [-2]" +:+ newline.
Definition file_decimal_spectral : string :=
  "FORMAT = Name, Type, Ra, Dec, I, SpectralIndex" +:+ newline +:+
  "a, POINT, 12:00:00, 10.00.00, 1.5, [1.0]" +:+ newline +:+
  "b, POINT, 12:00:00, 11.00.00, 2.5, [-2]" +:+ newline.

(** Two catalogs that share the names [X] and [Y]; in the first one two
    sources are named [X]. *)
Definition catalog_XXY : list (source Q ()) :=
  [source_at "X" 10 [1; 2]%Q; source_at "X" 20 [3; 4]%Q; source_at "Y" 30 [5; 6]%Q].
Definition catalog_XY : list (source Q ()) :=
  [source_at "X" 40 [7; 8]%Q; source_at "Y" 50 [9; 10]%Q].

(** A name of 49 characters. *)
Definition name_49 : string := "NVSS_J123456.78+123456.7_component_of_source_0001".

(** * Part II. Properties *)

(** ** The exception monad *)

Lemma mapM_Ok {X Y} (f : X → result Y) (l : list X) (ys : list Y) :
  mapM f l = Ok ys → Forall2 (λ x y, f x = Ok y) l ys.
Proof.
  revert ys. induction l as [|x l IH]; intros ys; simpl.
  - intros [= <-]. constructor.
  - destruct (f x) as [y|] eqn:Hx; simpl; [|done].
    destruct (mapM f l) as [ys'|]; simpl; [|done].
    intros [= <-]. constructor; auto.
Qed.

(** ** Strings *)

Module PyFacts.
Import Py.

Lemma sapp_cons (c : ascii) (s t : string) : String c s +:+ t = String c (s +:+ t).
Proof. done. Qed.

Lemma sapp_assoc (s t u : string) : (s +:+ t) +:+ u = s +:+ t +:+ u.
Proof. induction s as [|c s IH]; [done|]. rewrite !sapp_cons. by f_equal. Qed.

Lemma slength_app (s t : string) :
  String.length (s +:+ t) = String.length s + String.length t.
Proof. induction s as [|c s IH]; [done|]. rewrite sapp_cons. simpl. by rewrite IH. Qed.

Lemma contains_char_app (c : ascii) (s t : string) :
  contains_char c (s +:+ t) = contains_char c s || contains_char c t.
Proof.
  induction s as [|d s IH]; [done|].
  rewrite sapp_cons. simpl. by destruct (decide (d = c)).
Qed.

(** A string without the separator is a single field. *)
Lemma split_plain (sep : ascii) (s : string) :
  contains_char sep s = false → split sep s = [s].
Proof.
  induction s as [|c s IH]; [done|]. simpl.
  destruct (decide (c = sep)); [done|]. intros Hs. by rewrite IH.
Qed.

Lemma split_app (sep : ascii) (s t : string) :
  contains_char sep s = false →
  split sep (s +:+ String sep t) = s :: split sep t.
Proof.
  induction s as [|c s IH]; intros Hs.
  - change ("" +:+ String sep t) with (String sep t).
    simpl. by rewrite decide_True.
  - rewrite sapp_cons. simpl in *.
    destruct (decide (c = sep)); [done|]. by rewrite IH.
Qed.

Lemma join_cons (sep x y : string) (l : list string) :
  join sep (x :: y :: l) = x +:+ sep +:+ join sep (y :: l).
Proof. done. Qed.

(** Splitting undoes joining when no field holds the separator. *)
Lemma split_join (sep : ascii) (l : list string) :
  l ≠ [] →
  Forall (λ x, contains_char sep x = false) l →
  split sep (join (String sep "") l) = l.
Proof.
  intros Hne Hl. induction Hl as [|x l Hx Hl IH]; [done|].
  destruct l as [|y l].
  - simpl. by apply split_plain.
  - rewrite join_cons. change (String sep "" +:+ ?t) with (String sep t).
    rewrite split_app by done. f_equal. by apply IH.
Qed.

Lemma join_app (sep : string) (l1 l2 : list string) :
  l1 ≠ [] → l2 ≠ [] →
  join sep (l1 ++ l2) = join sep l1 +:+ sep +:+ join sep l2.
Proof.
  intros H1 H2. induction l1 as [|x l1 IH]; [done|].
  destruct l1 as [|y l1].
  - destruct l2; [done|]. done.
  - change ((x :: y :: l1) ++ l2) with (x :: (y :: l1) ++ l2).
    change ((y :: l1) ++ l2) with (y :: (l1 ++ l2)) at 1.
    rewrite join_cons. change (y :: l1 ++ l2) with ((y :: l1) ++ l2).
    rewrite IH by done. rewrite join_cons. by rewrite !sapp_assoc.
Qed.


Lemma avoids_app chars s t : avoids chars (s +:+ t) = avoids chars s && avoids chars t.
Proof.
  induction s as [|c s IH]; [done|].
  rewrite sapp_cons. simpl. by rewrite IH, andb_assoc.
Qed.

Lemma avoids_contains chars s c :
  avoids chars s = true → contains_char c chars = true → contains_char c s = false.
Proof.
  intros Hs Hc. induction s as [|d s IH]; [done|]. simpl in *.
  apply andb_true_iff in Hs as [Hd Hs]. apply negb_true_iff in Hd.
  destruct (decide (d = c)) as [->|]; [congruence|]. by apply IH.
Qed.

Lemma within_contains chars s c :
  within chars s = true → contains_char c s = true → contains_char c chars = true.
Proof.
  induction s as [|d s IH]; [done|]. simpl.
  intros [Hd Hs]%andb_true_iff. destruct (decide (d = c)) as [->|]; auto.
Qed.

(** Avoiding a set of characters, one avoids each of its subsets. *)
Lemma avoids_weaken chars chars' s :
  within chars chars' = true → avoids chars s = true → avoids chars' s = true.
Proof.
  intros Hsub. induction s as [|c s IH]; [done|]. simpl.
  intros [Hc Hs]%andb_true_iff. rewrite IH, andb_true_r by done.
  apply negb_true_iff in Hc. apply negb_true_iff.
  destruct (contains_char c chars') eqn:Hc'; [|done].
  by rewrite (within_contains _ _ _ Hsub Hc') in Hc.
Qed.

Lemma avoids_join chars sep l :
  avoids chars sep = true → forallb (avoids chars) l = true →
  avoids chars (join sep l) = true.
Proof.
  intros Hsep. induction l as [|x l IH]; [done|]. simpl forallb.
  intros [Hx Hl]%andb_true_iff. destruct l as [|y l]; [done|].
  rewrite join_cons, !avoids_app, Hx, Hsep. by apply IH.
Qed.

Lemma lstrip_within chars a s : within chars a = true → lstrip chars (a +:+ s) = lstrip chars s.
Proof.
  induction a as [|c a IH]; [done|]. intros Hca. rewrite sapp_cons. simpl in *.
  apply andb_true_iff in Hca as [Hc Ha]. rewrite Hc. by apply IH.
Qed.

Lemma lstrip_avoids chars s t :
  s ≠ "" → avoids chars s = true → lstrip chars (s +:+ t) = s +:+ t.
Proof.
  destruct s as [|c s]; [done|]. intros _ Hcs. rewrite sapp_cons. simpl in *.
  apply andb_true_iff in Hcs as [Hc _]. apply negb_true_iff in Hc. by rewrite Hc.
Qed.

Lemma rstrip_all chars a : within chars a = true → rstrip chars a = "".
Proof.
  induction a as [|c a IH]; [done|]. simpl.
  intros [Hc Ha]%andb_true_iff. by rewrite IH, Hc.
Qed.

Lemma rstrip_within chars s a : within chars a = true → rstrip chars (s +:+ a) = rstrip chars s.
Proof.
  intros Ha. induction s as [|c s IH].
  - change ("" +:+ a) with a. by rewrite rstrip_all.
  - rewrite sapp_cons. simpl. by rewrite IH.
Qed.

Lemma rstrip_avoids chars s : avoids chars s = true → rstrip chars s = s.
Proof.
  induction s as [|c s IH]; [done|]. simpl.
  intros [Hc Hs]%andb_true_iff. apply negb_true_iff in Hc.
  rewrite IH by done. destruct s; [by rewrite Hc|done].
Qed.

(** Stripping a border made of [chars] around a body that avoids them. *)
Lemma strip_border chars a s b :
  within chars a = true → within chars b = true →
  s ≠ "" → avoids chars s = true →
  strip chars (a +:+ s +:+ b) = s.
Proof.
  intros Ha Hb Hne Hs. unfold strip.
  rewrite lstrip_within, lstrip_avoids, rstrip_within by done.
  by apply rstrip_avoids.
Qed.





End PyFacts.

(** ** The header line: re-joining a bracketed list default *)

Section HeaderFacts.
Import Py PyFacts.





















Context `{PyFloat F}.


End HeaderFacts.

(** ** Data lines with a blank first field *)

Section LinesFacts.
Context `{PyFloat F}.

(** C10.  A data line (neither header nor comment) whose first field is
    blank and which has at most 4 fields leaves [metaDict] and [outlines]
    as they are and raises nothing.  With a blank first field and more
    than 4 fields the line only records a patch position in [metaDict];
    with a non-blank first field it only adds a row to [outlines]. *)
Theorem read_line_blank_first_field (ncols : nat) (st : lines_state) (line : string) :
  is_header_or_comment line = false →
  let colLines := fields line in
  (Py.strip_ws (hd "" colLines) = "" → length colLines ≤ 4 →
     read_line ncols st line = Ok st)
  ∧ (Py.strip_ws (hd "" colLines) = "" → 4 < length colLines →
     read_line ncols st line
     = '(patchName, pos) ← patch_entry colLines;
       Ok {| ls_meta := <[patchName := pos]> (ls_meta st);
             ls_outlines := ls_outlines st |})
  ∧ (Py.strip_ws (hd "" colLines) ≠ "" →
     read_line ncols st line
     = Ok {| ls_meta := ls_meta st;
             ls_outlines := ls_outlines st ++ [padded ncols colLines] |}).
Proof.
  intros Hdata colLines. unfold read_line. rewrite Hdata. fold colLines.
  split; [|split].
  - intros Hblank Hlen. rewrite decide_True by done.
    by assert ((4 <? length colLines) = false) as -> by (apply Nat.ltb_ge; lia).
  - intros Hblank Hlen. rewrite decide_True by done.
    by assert ((4 <? length colLines) = true) as -> by (apply Nat.ltb_lt; lia).
  - intros Hname. by rewrite decide_False by done.
Qed.

(** Such a line can be deleted from the file without changing what the
    loop over the lines computes. *)
Lemma read_lines_skips_blank (ncols : nat) (line : string) (before after : list string) :
  is_header_or_comment line = false →
  Py.strip_ws (hd "" (fields line)) = "" →
  length (fields line) ≤ 4 →
  ∀ st, read_lines ncols st (before ++ line :: after)
        = read_lines ncols st (before ++ after).
Proof.
  intros Hdata Hblank Hlen.
  assert (∀ st, read_line ncols st line = Ok st) as Hskip.
  { intros st. unfold read_line. rewrite Hdata, decide_True by done.
    by assert ((4 <? length (fields line)) = false) as -> by (apply Nat.ltb_ge; lia). }
  induction before as [|l before IH]; intros st; simpl.
  - by rewrite Hskip.
  - destruct (read_line ncols st l); simpl; [apply IH|done].
Qed.

End LinesFacts.

(** ** Declinations *)

Section DecFacts.
Import Py PyFacts.
Context `{PyFloat F}.

Lemma cut_Some c s a r :
  cut c s = Some (a, r) → s = a +:+ String c r ∧ contains_char c a = false.
Proof.
  revert a. induction s as [|d s IH]; intros a; [done|]. simpl.
  destruct (decide (d = c)) as [->|Hd].
  - intros [= <- <-]. done.
  - destruct (cut c s) as [[a' r']|] eqn:Hcut; [|done]. simpl.
    intros [= <- <-]. destruct (IH a' eq_refl) as [-> Ha'].
    split; [done|]. simpl. by rewrite decide_False.
Qed.

Lemma cut_None c s : cut c s = None → contains_char c s = false.
Proof.
  induction s as [|d s IH]; [done|]. simpl.
  destruct (decide (d = c)); [done|].
  destruct (cut c s) as [[a r]|]; [done|]. auto.
Qed.

Lemma replace_char_n_plain old new k s :
  contains_char old s = false → replace_char_n old new k s = s.
Proof.
  revert k. induction s as [|d s IH]; intros k; [done|]. simpl.
  destruct (decide (d = old)); [done|]. intros Hs.
  destruct k; [done|]. by rewrite IH.
Qed.

Lemma replace_char_n_cut old new k a r :
  contains_char old a = false →
  replace_char_n old new (S k) (a +:+ String old r)
  = a +:+ String new (replace_char_n old new k r).
Proof.
  induction a as [|d a IH]; intros Ha.
  - change ("" +:+ ?x) with x. simpl. by rewrite decide_True.
  - rewrite !sapp_cons. simpl in *.
    destruct (decide (d = old)); [done|]. by rewrite IH.
Qed.

Lemma replace_char_n_0 old new s : replace_char_n old new 0 s = s.
Proof. by destruct s. Qed.

Lemma avoids_1 c s : avoids (String c "") s = true → contains_char c s = false.
Proof. intros Hs. apply (avoids_contains _ _ _ Hs). simpl. by rewrite decide_True. Qed.

(** The fields that the code reads from a string without [':'] are the
    three parts of the specification. *)
Lemma dec_fields s :
  avoids ":" s = true →
  split ":" (replace_char_n "." ":" 2 s)
  = match cut "." s with
    | None => [s]
    | Some (ds, r) =>
        match cut "." r with
        | None => [ds; r]
        | Some (ms, ss) => [ds; ms; ss]
        end
    end.
Proof.
  intros Hs. destruct (cut "." s) as [[ds r]|] eqn:Hcut1.
  - apply cut_Some in Hcut1 as [-> Hds].
    rewrite avoids_app in Hs. apply andb_true_iff in Hs as [Hds' Hr].
    apply avoids_1 in Hds'. change (avoids ":" (String "." r)) with (avoids ":" r) in Hr.
    rewrite replace_char_n_cut by done.
    rewrite split_app by done.
    destruct (cut "." r) as [[ms ss]|] eqn:Hcut2.
    + apply cut_Some in Hcut2 as [-> Hms].
      rewrite avoids_app in Hr. apply andb_true_iff in Hr as [Hms' Hss].
      apply avoids_1 in Hms'. change (avoids ":" (String "." ss)) with (avoids ":" ss) in Hss.
      rewrite replace_char_n_cut, replace_char_n_0 by done.
      rewrite split_app by done. do 2 f_equal. apply split_plain. by apply avoids_1.
    + apply cut_None in Hcut2. rewrite replace_char_n_plain by done.
      f_equal. apply split_plain. by apply avoids_1.
  - apply cut_None in Hcut1. rewrite replace_char_n_plain by done.
    apply split_plain. by apply avoids_1.
Qed.

(** On a string without [':'] the code computes what the specification
    says, and fails exactly when the specification has no value. *)
Lemma dec_of_string_refines s :
  avoids ":" s = true →
  match dec_of_string s with
  | Ok x => spec_parseDec_string s = Some x
  | Raise _ => spec_parseDec_string s = None
  end.
Proof.
  intros Hs. unfold dec_of_string, spec_parseDec_string.
  rewrite dec_fields by done.
  destruct (cut "." s) as [[ds r]|]; simpl.
  - destruct (cut "." r) as [[ms ss]|]; simpl.
    + unfold float_at. simpl.
      destruct (fparse ds); simpl; [|done].
      destruct (fparse ms); simpl; [|done].
      destruct (fparse ss); simpl; done.
    + unfold float_at. simpl. destruct (fparse ds); simpl; [|done].
      destruct (fparse r); simpl; done.
  - unfold float_at. simpl. destruct (fparse s); done.
Qed.

Lemma mapM_refines {A B} (f : A → result B) (g : A → option B) (l : list A) :
  Forall (λ x, match f x with
               | Ok y => g x = Some y
               | Raise _ => g x = None
               end) l →
  match mapM f l with
  | Ok ys => mapM g l = Some ys
  | Raise _ => mapM g l = None
  end.
Proof.
  induction 1 as [|x l Hx _ IH]; [done|]. simpl.
  destruct (f x) as [y|e]; rewrite Hx; simpl; [|done].
  destruct (mapM f l) as [ys|e]; rewrite IH; done.
Qed.

(** C8.  On a batch whose first element is a string, and whose strings
    hold no [':'], [Dec2Angle] is the specification's [parseDec]: in each
    string only the first two ['.'] separate fields, the three parts are
    read as floats [D], [M], [S], and the value is [D + M/60 + S/3600], so
    that a sign enters through [D] alone; when a part is missing or is
    not a float, both fail with the same exception. *)
Theorem Dec2Angle_refines_spec (s0 : string) (rest : list (value F)) :
  let Dec := VStr s0 :: rest in
  forallb colon_free Dec = true →
  Dec2Angle Dec = spec_parseDec Dec.
Proof.
  intros Dec Hfree. unfold Dec2Angle, spec_parseDec. fold Dec.
  change (match Dec with
          | [] => _ | VStr _ :: _ => ?a | _ => _ end) with a.
  pose proof (mapM_refines (on_str dec_of_string) spec_parseDec_value Dec) as Href.
  assert (Forall (λ v, match on_str dec_of_string v with
                       | Ok y => spec_parseDec_value v = Some y
                       | Raise _ => spec_parseDec_value v = None
                       end) Dec) as Hall.
  { apply Forall_forall. intros v Hv.
    assert (colon_free v = true) as Hc
      by (rewrite forallb_forall in Hfree; apply Hfree; by apply list_elem_of_In).
    destruct v; simpl; try done. by apply dec_of_string_refines. }
  specialize (Href Hall). clearbody Dec.
  destruct (mapM (on_str dec_of_string) Dec) as [ys|e]; by rewrite Href.
Qed.

End DecFacts.

(** ** The merge: conflict resolution *)

Section ConflictFacts.
Context {K : Type} `{EqDecision K}.

Lemma elem_of_where_from (vals : list K) (val : K) : ∀ i j,
  j ∈ where_from i vals val ↔ ∃ k, j = i + k ∧ vals !! k = Some val.
Proof.
  induction vals as [|v vals IH]; intros i j; simpl.
  - split; [by intros ?%elem_of_nil|by intros (k & _ & ?)].
  - destruct (decide (v = val)) as [->|Hv].
    + rewrite elem_of_cons, IH. split.
      * intros [->|(k & -> & Hk)]; [exists 0|exists (S k)]; split; (lia || done).
      * intros ([|k] & -> & Hk); [left; lia|right]. exists k. split; [lia|done].
    + rewrite IH. split.
      * intros (k & -> & Hk). exists (S k). split; [lia|done].
      * intros ([|k] & -> & Hk); simplify_eq/=. exists k. split; [lia|done].
Qed.

Lemma elem_of_where_eq (vals : list K) (val : K) (j : nat) :
  j ∈ where_eq vals val ↔ vals !! j = Some val.
Proof.
  unfold where_eq. rewrite elem_of_where_from. split.
  - by intros (k & -> & Hk).
  - intros Hj. by exists j.
Qed.

(** The indices come in increasing order: the head is the first
    occurrence, the tail holds the later ones. *)
Lemma where_from_cons (vals : list K) (val : K) : ∀ i x rest,
  where_from i vals val = x :: rest →
  ∃ k, x = i + k ∧ vals !! k = Some val ∧
       (∀ k', k' < k → vals !! k' ≠ Some val) ∧
       ∀ j, j ∈ rest ↔ ∃ k', j = i + k' ∧ k < k' ∧ vals !! k' = Some val.
Proof.
  induction vals as [|v vals IH]; intros i x rest; simpl; [done|].
  destruct (decide (v = val)) as [->|Hv].
  - intros [= <- <-]. exists 0. split; [lia|]. split; [done|]. split; [lia|].
    intros j. rewrite elem_of_where_from. split.
    + intros (k & -> & Hk). exists (S k). split; [lia|]. split; [lia|done].
    + intros ([|k'] & -> & Hlt & Hk'); [lia|]. exists k'. split; [lia|done].
  - intros Hw. destruct (IH _ _ _ Hw) as (k & -> & Hk & Hfirst & Hrest).
    exists (S k). split; [lia|]. split; [done|]. split.
    + intros [|k'] Hlt; simpl; [congruence|]. apply Hfirst. lia.
    + intros j. rewrite Hrest. split.
      * intros (k' & -> & Hlt & Hk'). exists (S k'). split; [lia|]. split; [lia|done].
      * intros ([|k'] & -> & Hlt & Hk'); [lia|]. exists k'. split; [lia|].
        split; [lia|done].
Qed.

Lemma where_eq_cons (vals : list K) (val : K) x rest :
  where_eq vals val = x :: rest →
  vals !! x = Some val ∧ (∀ j, j < x → vals !! j ≠ Some val) ∧
  ∀ j, j ∈ rest ↔ x < j ∧ vals !! j = Some val.
Proof.
  intros (k & -> & Hk & Hfirst & Hrest)%where_from_cons. simpl.
  split; [done|]. split; [done|]. intros j. rewrite Hrest. split.
  - by intros (k' & -> & ? & ?).
  - intros [? ?]. by exists j.
Qed.

(** The indices that the entries of [toRemove] list. *)
Lemma concat_toRemove (keep : string) (vals : list K) :
  concat (toRemove keep vals)
  = vals ≫= λ val,
      if (1 <? length (where_eq vals val))%nat then
        if decide (keep = "from1") then drop 1 (where_eq vals val)
        else take 1 (where_eq vals val)
      else [].
Proof.
  unfold toRemove.
  enough (∀ l : list K,
    concat (omap (λ val,
                    let indx := where_eq vals val in
                    if (1 <? length indx)%nat then
                      Some (if decide (keep = "from1") then drop 1 indx else take 1 indx)
                    else None) l)
    = l ≫= λ val,
        if (1 <? length (where_eq vals val))%nat then
          if decide (keep = "from1") then drop 1 (where_eq vals val)
          else take 1 (where_eq vals val)
        else []) as Hgen by apply Hgen.
  induction l as [|v l IH]; [done|]. cbn [omap list_omap mbind list_bind].
  cbv zeta in IH |- *.
  destruct (1 <? length (where_eq vals v))%nat; cbn [concat app]; [f_equal|]; exact IH.
Qed.

(** The entries of [toRemove]. *)
Lemma elem_of_toRemove (keep : string) (vals : list K) (e : list nat) :
  e ∈ toRemove keep vals ↔
  ∃ val, val ∈ vals ∧ 1 < length (where_eq vals val) ∧
         e = if decide (keep = "from1") then drop 1 (where_eq vals val)
             else take 1 (where_eq vals val).
Proof.
  unfold toRemove. rewrite list_elem_of_omap. split.
  - intros (val & Hval & Hsome). exists val. split; [done|].
    destruct (1 <? length (where_eq vals val))%nat eqn:Hlt; [|done].
    apply Nat.ltb_lt in Hlt. split; [done|]. by injection Hsome as <-.
  - intros (val & Hval & Hlt & ->). exists val. split; [done|].
    apply Nat.ltb_lt in Hlt. by rewrite Hlt.
Qed.

(** Arrays of one length make an index array. *)
Lemma index_array_uniform (entries : list (list nat)) :
  (∀ e e', e ∈ entries → e' ∈ entries → length e = length e') →
  index_array entries = Ok (concat entries).
Proof.
  intros Hone. destruct entries as [|a entries]; [done|]. unfold index_array.
  rewrite (proj2 (forallb_forall _ _)); [done|].
  intros b Hb%list_elem_of_In. apply Nat.eqb_eq. apply Hone; [done|by left].
Qed.

(** Arrays of two lengths make none. *)
Lemma index_array_ragged (entries : list (list nat)) (e e' : list nat) :
  e ∈ entries → e' ∈ entries → length e ≠ length e' →
  index_array entries = Raise IndexError.
Proof.
  intros He He' Hne. destruct entries as [|a entries]; [by apply elem_of_nil in He|].
  unfold index_array.
  destruct (forallb _ _) eqn:Hall; [|done]. exfalso. apply Hne.
  rewrite forallb_forall in Hall.
  apply list_elem_of_In, Hall, Nat.eqb_eq in He.
  apply list_elem_of_In, Hall, Nat.eqb_eq in He'. congruence.
Qed.

(** With a [keep] other than ['from1'] every entry is one number. *)
Lemma index_array_numbers (keep : string) (vals : list K) :
  keep ≠ "from1" →
  index_array (toRemove keep vals) = Ok (concat (toRemove keep vals)).
Proof.
  intros Hkeep. apply index_array_uniform.
  assert (∀ e, e ∈ toRemove keep vals → length e = 1) as Hlen.
  { intros e (val & _ & Hlt & ->)%elem_of_toRemove. rewrite decide_False by done.
    rewrite length_take. lia. }
  intros e e' He He'. by rewrite (Hlen e), (Hlen e').
Qed.

(** With ['from1'], values that at most two rows have give entries of one
    index each. *)
Lemma index_array_pairs (keep : string) (vals : list K) :
  (∀ val, length (where_eq vals val) ≤ 2) →
  index_array (toRemove keep vals) = Ok (concat (toRemove keep vals)).
Proof.
  intros Htwo. apply index_array_uniform.
  assert (∀ e, e ∈ toRemove keep vals → length e = 1) as Hlen.
  { intros e (val & _ & Hlt & ->)%elem_of_toRemove. specialize (Htwo val).
    destruct (decide (keep = "from1")); [rewrite length_drop|rewrite length_take]; lia. }
  intros e e' He He'. by rewrite (Hlen e), (Hlen e').
Qed.

Lemma where_from_app (l1 l2 : list K) (val : K) : ∀ i,
  where_from i (l1 ++ l2) val = where_from i l1 val ++ where_from (i + length l1) l2 val.
Proof.
  induction l1 as [|v l1 IH]; intros i; simpl.
  - by rewrite Nat.add_0_r.
  - rewrite IH. replace (S i + length l1) with (i + S (length l1)) by lia.
    by destruct (decide (v = val)).
Qed.

Lemma where_from_NoDup (l : list K) (val : K) : ∀ i,
  NoDup l → length (where_from i l val) ≤ 1.
Proof.
  induction l as [|v l IH]; intros i Hnd; simpl; [lia|].
  apply NoDup_cons in Hnd as [Hv Hnd]. destruct (decide (v = val)) as [->|Hne].
  - simpl. destruct (where_from (S i) l val) as [|j rest] eqn:Hw; [simpl; lia|].
    exfalso. apply Hv.
    assert (j ∈ where_from (S i) l val) as Hj by (rewrite Hw; by left).
    apply elem_of_where_from in Hj as (k & _ & Hk). by eapply list_elem_of_lookup_2.
  - by apply IH.
Qed.

(** Two columns without repetition, stacked: a value is in at most two
    rows. *)
Lemma where_eq_stacked (l1 l2 : list K) (val : K) :
  NoDup l1 → NoDup l2 → length (where_eq (l1 ++ l2) val) ≤ 2.
Proof.
  intros Hnd1 Hnd2. unfold where_eq. rewrite where_from_app, length_app.
  pose proof (where_from_NoDup l1 val 0 Hnd1).
  pose proof (where_from_NoDup l2 val (0 + length l1) Hnd2). lia.
Qed.

(** With [keep = 'from1'] the rows listed for removal are the rows that
    come after a row of the same key. *)
Lemma toRemove_from1 (vals : list K) (i : nat) :
  i ∈ concat (toRemove "from1" vals) ↔ later_occurrence vals i.
Proof.
  rewrite concat_toRemove, list_elem_of_bind. split.
  - intros (val & Hi & _).
    destruct (where_eq vals val) as [|x rest] eqn:Hw; [by apply elem_of_nil in Hi|].
    destruct (1 <? length (x :: rest)); [|by apply elem_of_nil in Hi].
    rewrite decide_True in Hi by done. simpl in Hi.
    apply where_eq_cons in Hw as (Hx & _ & Hrest).
    apply Hrest in Hi as [Hlt Hi]. by exists x, val.
  - intros (j & v & Hlt & Hj & Hi). exists v. split; [|by eapply list_elem_of_lookup_2].
    destruct (where_eq vals v) as [|x rest] eqn:Hw.
    { apply elem_of_where_eq in Hi. rewrite Hw in Hi. by apply elem_of_nil in Hi. }
    apply where_eq_cons in Hw as (Hx & Hfirst & Hrest).
    assert (x < i) as Hxi.
    { destruct (decide (x < i)); [done|]. exfalso. apply (Hfirst j); [lia|done]. }
    assert (i ∈ rest) as Hin by by apply Hrest.
    destruct rest as [|y rest]; [by apply elem_of_nil in Hin|].
    change (1 <? length (x :: y :: rest)) with true. cbv iota.
    by rewrite decide_True.
Qed.

(** With [keep = 'from2'] the rows listed for removal are the first rows
    of the keys that several rows have. *)
Lemma toRemove_from2 (vals : list K) (i : nat) :
  i ∈ concat (toRemove "from2" vals) ↔ first_of_several vals i.
Proof.
  rewrite concat_toRemove, list_elem_of_bind. split.
  - intros (val & Hi & _).
    destruct (where_eq vals val) as [|x rest] eqn:Hw; [by apply elem_of_nil in Hi|].
    destruct rest as [|y rest]; [by apply elem_of_nil in Hi|].
    change (1 <? length (x :: y :: rest)) with true in Hi. cbv iota in Hi.
    rewrite decide_False in Hi by done. simpl in Hi.
    apply list_elem_of_singleton in Hi as ->.
    apply where_eq_cons in Hw as (Hx & Hfirst & Hrest).
    exists val. split; [done|]. split; [done|].
    destruct (Hrest y) as [[Hlt Hy] _]; [by left|]. by exists y.
  - intros (v & Hi & Hfirst & j & Hlt & Hj). exists v.
    split; [|by eapply list_elem_of_lookup_2].
    destruct (where_eq vals v) as [|x rest] eqn:Hw.
    { apply elem_of_where_eq in Hi. rewrite Hw in Hi. by apply elem_of_nil in Hi. }
    apply where_eq_cons in Hw as (Hx & Hfirstx & Hrest).
    assert (x = i) as ->.
    { destruct (lt_eq_lt_dec x i) as [[Hlt'| ->]|Hlt']; [|done|].
      - exfalso. by apply (Hfirst x).
      - exfalso. by apply (Hfirstx i). }
    assert (j ∈ rest) as Hin by by apply Hrest.
    destruct rest as [|y rest]; [by apply elem_of_nil in Hin|].
    change (1 <? length (i :: y :: rest)) with true. cbv iota.
    rewrite decide_False by done. by left.
Qed.

Lemma remove_from_nil {B} (rows : list B) : ∀ i, remove_from i [] rows = rows.
Proof.
  induction rows as [|r rows IH]; intros i; [done|].
  change (remove_from i [] (r :: rows))
    with (if decide (i ∈ @nil nat) then remove_from (S i) [] rows
          else r :: remove_from (S i) [] rows).
  rewrite decide_False by apply not_elem_of_nil. by rewrite IH.
Qed.

(** What [remove_rows] leaves: the rows whose index is not listed. *)
Lemma elem_of_remove_from {B} (removed : list nat) (rows : list B) (r : B) : ∀ i,
  r ∈ remove_from i removed rows ↔ ∃ k, rows !! k = Some r ∧ i + k ∉ removed.
Proof.
  assert (∀ a b : nat, a = b → a ∉ removed → b ∉ removed) as Heq by by intros ?? ->.
  induction rows as [|r' rows IH]; intros i; simpl.
  - split; [by intros ?%elem_of_nil|by intros (k & ? & _)].
  - destruct (decide (i ∈ removed)) as [Hi|Hi].
    + rewrite IH. split.
      * intros (k & Hk & Hnot). exists (S k). split; [done|].
        eapply Heq; [|done]. lia.
      * intros ([|k] & Hk & Hnot).
        { exfalso. apply Hnot. by rewrite Nat.add_0_r. }
        exists k. split; [done|]. eapply Heq; [|done]. lia.
    + rewrite elem_of_cons, IH. split.
      * intros [->|(k & Hk & Hnot)].
        { exists 0. split; [done|]. by rewrite Nat.add_0_r. }
        exists (S k). split; [done|]. eapply Heq; [|done]. lia.
      * intros ([|k] & Hk & Hnot).
        { left. by injection Hk. }
        right. exists k. split; [done|]. eapply Heq; [|done]. lia.
Qed.

End ConflictFacts.

Section ConflictTheorem.
Context `{PyFloat F} {A : Type}.

Lemma index_array_Raise (entries : list (list nat)) (e : exn) :
  index_array entries = Raise e →
  e = IndexError ∧ ∃ a b, a ∈ entries ∧ b ∈ entries ∧ length a ≠ length b.
Proof.
  destruct entries as [|a entries]; [done|]. unfold index_array.
  destruct (forallb _ _) eqn:Hall; [done|]. intros [= <-]. split; [done|].
  assert (¬ Forall (λ b, length b = length a) (a :: entries)) as Hnot.
  { intros Hforall. apply not_true_iff_false in Hall. apply Hall.
    apply forallb_forall. intros b Hb%list_elem_of_In. apply Nat.eqb_eq.
    by eapply Forall_forall in Hforall. }
  apply not_Forall_Exists in Hnot; [|intros b; apply _].
  apply Exists_exists in Hnot as (b & Hb & Hne).
  exists b, a. split; [done|]. split; [by left|done].
Qed.

(** Conflict resolution fails, or removes a set of rows of the merged
    table and leaves the others in their order.
    With [keep = 'from1'] the removed rows are the rows that come after a
    row of the same duplicate key: of each key the first row stays and all
    later ones go.  With [keep = 'from2'] the removed rows are the first
    rows of the keys that several rows have: only the first goes, all
    later ones stay, whatever their number.  With any other [keep], such
    as ['all'], no row is removed.
    It fails, with [IndexError], with [keep = 'from1'] when two keys that
    several rows have do not have the same number of rows. *)
Lemma conflict_resolution (mode : match_mode) (keep : string) (rows : list (merged F A)) :
  let vals := duplicate_key mode <$> rows in
  match resolve_conflicts mode keep rows with
  | Ok kept =>
      ∃ removed : list nat,
        kept = remove_from 0 removed rows ∧
        (∀ r, r ∈ kept ↔ ∃ i, rows !! i = Some r ∧ i ∉ removed) ∧
        (∀ i, i ∈ removed ↔
              (keep = "from1" ∧ later_occurrence vals i) ∨
              (keep = "from2" ∧ first_of_several vals i)) ∧
        (keep = "from1" ∨ keep = "from2" ∨ kept = rows)
  | Raise e =>
      e = IndexError ∧ keep = "from1" ∧
      ∃ v w, v ∈ vals ∧ w ∈ vals ∧
             1 < length (where_eq vals v) ∧ 1 < length (where_eq vals w) ∧
             length (where_eq vals v) ≠ length (where_eq vals w)
  end.
Proof.
  intros vals.
  assert (∀ removed (kept : list (merged F A)),
            kept = remove_from 0 removed rows →
            ∀ r, r ∈ kept ↔ ∃ i, rows !! i = Some r ∧ i ∉ removed) as Hkept.
  { intros removed kept -> r. by rewrite elem_of_remove_from. }
  unfold resolve_conflicts, remove_rows. fold vals.
  destruct (decide (keep = "from1")) as [->|H1].
  - rewrite bool_decide_eq_true_2 by by left.
    destruct (index_array (toRemove "from1" vals)) as [removed|e] eqn:Harr.
    + pose proof Harr as Hflat.
      rewrite index_array_uniform in Hflat.
      2:{ intros a b Ha Hb. destruct (decide (length a = length b)); [done|].
          by rewrite (index_array_ragged _ a b) in Harr. }
      injection Hflat as <-. cbn [mbind result_bind].
      eexists. split; [done|]. split; [by apply Hkept|]. split; [|by left].
      intros i. rewrite toRemove_from1.
      split; [by left|]. by intros [[_ ?]|[? _]].
    + cbn [mbind result_bind].
      apply index_array_Raise in Harr as (-> & a & b & Ha & Hb & Hne).
      split; [done|]. split; [done|].
      apply elem_of_toRemove in Ha as (v & Hv & Hlv & ->).
      apply elem_of_toRemove in Hb as (w & Hw & Hlw & ->).
      rewrite !decide_True, !length_drop in Hne by done.
      exists v, w. repeat (split; [done|]). lia.
  - destruct (decide (keep = "from2")) as [->|H2].
    + rewrite bool_decide_eq_true_2 by by right.
      rewrite index_array_numbers by done. cbn [mbind result_bind].
      eexists. split; [done|]. split; [by apply Hkept|]. split; [|by right; left].
      intros i. rewrite toRemove_from2.
      split; [by right|]. by intros [[? _]|[_ ?]].
    + rewrite bool_decide_eq_false_2 by by intros [?|?].
      exists []. split; [by rewrite remove_from_nil|].
      split; [apply Hkept; by rewrite remove_from_nil|].
      split; [|by right; right].
      intros i. split; [by intros ?%elem_of_nil|]. by intros [[? _]|[? _]].
Qed.

(** The failure, from the rows: two keys of several rows with different
    numbers of rows. *)
Lemma resolve_conflicts_ragged (mode : match_mode) (rows : list (merged F A))
    (v w : string + option nat) :
  let vals := duplicate_key mode <$> rows in
  v ∈ vals → w ∈ vals →
  1 < length (where_eq vals v) → 1 < length (where_eq vals w) →
  length (where_eq vals v) ≠ length (where_eq vals w) →
  resolve_conflicts mode "from1" rows = Raise IndexError.
Proof.
  intros vals Hv Hw Hlv Hlw Hne. unfold resolve_conflicts, remove_rows. fold vals.
  rewrite bool_decide_eq_true_2 by by left.
  rewrite (index_array_ragged _ (drop 1 (where_eq vals v)) (drop 1 (where_eq vals w))).
  - done.
  - apply elem_of_toRemove. by exists v.
  - apply elem_of_toRemove. by exists w.
  - rewrite !length_drop. lia.
Qed.

End ConflictTheorem.

(** ** The header and the lines on concrete text *)

Section CodecExamples.
Import DecFloat.
Local Open Scope Q_scope.


(** The whole header parser on that line: seven columns, one of them
    [SpectralIndex], with the list as its default and in [meta]. *)
Example parse_header_list_default :
  (hdr ← parse_header (F:=Q) [0]
           "FORMAT = Name, Type, Ra, Dec, I, SpectralIndex='[0.0,0.0]', Patch";
   Ok (h_colNames hdr, h_colDefaults hdr !! 5%nat,
       h_meta hdr !! "SpectralIndex", h_hasPatches hdr))
  = Ok (["Name"; "Type"; "Ra"; "Dec"; "I"; "SpectralIndex"; "Patch"],
        Some (Some (VList [0; 0])), Some (VList [0; 0]), true).
Proof. vm_compute. reflexivity. Qed.

(** A list default whose bracket is never closed makes
    [colNames.index(cnEnd)] raise. *)
Example fix_colNames_unclosed :
  fix_colNames (Py.split "," "FORMAT = Name, Type, SpectralIndex='[0.0, 0.5'")
  = Raise ValueError.
Proof. vm_compute. reflexivity. Qed.

(** A line with a blank name and three fields is skipped. *)
Lemma read_line_blank_first_field_witness :
  read_line (F:=Q) 6 {| ls_meta := ∅; ls_outlines := ["a, POINT, p, 1:0:0, 2.0.0, 1.0"] |}
    " , , p"
  = Ok {| ls_meta := ∅; ls_outlines := ["a, POINT, p, 1:0:0, 2.0.0, 1.0"] |}.
Proof.
  apply (read_line_blank_first_field (F:=Q) 6 _ " , , p" eq_refl);
    [reflexivity | vm_compute; lia].
Defined.

(** The three kinds of data lines in one file. *)
Example read_lines_kinds :
  (st ← read_lines (F:=Q) 6 {| ls_meta := ∅; ls_outlines := [] |}
          [" , , p1, 12:00:00, +10.00.00"; "s1, POINT, p1, 12:00:00, +10.00.00";
           " , , p2, 1:00:00"; ""];
   Ok (ls_outlines st, ls_meta st !! "p1", ls_meta st !! "p2"))
  = Ok (["s1, POINT, p1, 12:00:00, +10.00.00, "], Some (VPos 180 10), None).
Proof. vm_compute. reflexivity. Qed.

(** A patch line whose position cannot be read raises. *)
Example read_line_bad_patch :
  read_line (F:=Q) 6 {| ls_meta := ∅; ls_outlines := [] |} " , , p1, 12:00:00, north"
  = Raise (Exception "Dec values not understood.").
Proof. vm_compute. reflexivity. Qed.

Lemma Dec2Angle_refines_spec_witness :
  Dec2Angle (F:=Q) [VStr "+10.30.36.5"; VStr "-10.30.00"; VStr "-0.30.00"]
  = spec_parseDec [VStr "+10.30.36.5"; VStr "-10.30.00"; VStr "-0.30.00"].
Proof.
  exact (Dec2Angle_refines_spec (F:=Q) "+10.30.36.5"
           [VStr "-10.30.00"; VStr "-0.30.00"] eq_refl).
Defined.

(** A declination with [':'] and one ['.']: the code splits it at the
    colons and at the dot and reads the first three fields, where the rule
    of the specification finds one dot only and no three parts. *)
Lemma parseDec_on_strings_counterexample : ¬ parseDec_on_strings (F:=Q).
Proof.
  intros Hrule. specialize (Hrule "10:30:36.5" []).
  vm_compute in Hrule. discriminate Hrule.
Qed.

Example Dec2Angle_colons :
  Dec2Angle (F:=Q) [VStr "10:30:36.5"] = Ok [1051 # 100] ∧
  spec_parseDec (F:=Q) [VStr "10:30:36.5"] = Raise (Exception "Dec values not understood.").
Proof. split; vm_compute; reflexivity. Qed.

(** The third ['.'] is a decimal point; minutes and seconds are added
    whatever the sign of the degrees. *)
Example Dec2Angle_values :
  Dec2Angle (F:=Q) [VStr "+10.30.36.5"; VStr "-10.30.00"; VStr "-0.30.00"]
  = Ok [75673 # 7200; -19 # 2; 1 # 2].
Proof. vm_compute. reflexivity. Qed.

(** A batch that starts with a string and holds a number fails. *)
Example Dec2Angle_mixed :
  Dec2Angle (F:=Q) [VStr "10.30.00"; VFloat 1] = Raise (Exception "Dec values not understood.").
Proof. vm_compute. reflexivity. Qed.

End CodecExamples.

(** ** The merge: the rename pass *)

Section RenameFacts.
Context `{PyFloat F} {A : Type}.
Variable separation : F * F → F * F → Q.
Variable iter_set : list string → list string.
Variable nameWidth : nat.

(** A string that fits the width of a column is stored as it is. *)
Lemma substring_fits (s : string) : ∀ n,
  String.length s ≤ n → String.substring 0 n s = s.
Proof.
  induction s as [|c s IH]; intros [|n] Hlen; simpl in *; [done|done|lia|].
  rewrite IH; [done|lia].
Qed.

(** A longer string is cut at the width. *)
Lemma substring_cut (s r : string) :
  String.substring 0 (String.length s) (s +:+ r) = s.
Proof. induction s as [|c s IH]; simpl; [by destruct r|by rewrite IH]. Qed.

Lemma rename_one_length (names current : list string) (name : string) :
  length (rename_one nameWidth names current name) = length current.
Proof.
  unfold rename_one, set_Name.
  destruct (where_eq names name) as [|i0 [|i1 rest]]; [done..|].
  by rewrite !length_insert.
Qed.

(** Renaming the rows of one name leaves the rows of the other names. *)
Lemma rename_one_other (names current : list string) (name n : string) (i : nat) :
  names !! i = Some n → n ≠ name →
  rename_one nameWidth names current name !! i = current !! i.
Proof.
  intros Hi Hn. unfold rename_one, set_Name.
  destruct (where_eq names name) as [|i0 [|i1 rest]] eqn:Hw; [done..|].
  assert (∀ j, j ∈ where_eq names name → j ≠ i) as Hne.
  { intros j Hj%elem_of_where_eq ->. congruence. }
  rewrite Hw in Hne.
  rewrite !list_lookup_insert_ne; [done|..]; apply Hne; set_solver.
Qed.

Lemma rename_one_same (names current : list string) (n : string) (i : nat) :
  String.length n + 2 ≤ nameWidth →
  length current = length names →
  names !! i = Some n → current !! i = Some n →
  rename_one nameWidth names current n !! i = Some (renamed names i n).
Proof.
  intros Hfit Hlen Hi Hcur. unfold rename_one, set_Name, renamed.
  destruct (where_eq names n) as [|i0 [|i1 rest]] eqn:Hw; [done..|].
  assert (∀ suf, String.length suf = 2 →
            String.substring 0 nameWidth (n +:+ suf) = n +:+ suf) as Hsub.
  { intros suf Hsuf. apply substring_fits.
    rewrite PyFacts.slength_app, Hsuf. lia. }
  rewrite !Hsub by done.
  assert (i0 < i1 ∧ i1 < length names) as [Hlt Hi1].
  { apply where_eq_cons in Hw as (_ & _ & Hrest).
    destruct (Hrest i1) as [[? Hl] _]; [by left|].
    split; [done|]. by eapply lookup_lt_Some. }
  destruct (decide (i = i0)) as [->|Hi0].
  - rewrite list_lookup_insert_ne by lia.
    rewrite list_lookup_insert_eq; [done|lia].
  - destruct (decide (i = i1)) as [->|Hi1'].
    + rewrite list_lookup_insert_eq; [done|]. rewrite length_insert. lia.
    + by rewrite !list_lookup_insert_ne.
Qed.

Lemma rename_fold (names : list string) (i : nat) (n : string) :
  String.length n + 2 ≤ nameWidth →
  names !! i = Some n →
  ∀ order current,
    NoDup order → length current = length names →
    (n ∉ order →
       foldl (rename_one nameWidth names) current order !! i = current !! i) ∧
    (n ∈ order → current !! i = Some n →
       foldl (rename_one nameWidth names) current order !! i
       = Some (renamed names i n)).
Proof.
  intros Hfit Hi order. induction order as [|name order IH]; intros current Hnd Hlen.
  - split; [done|]. by intros ?%elem_of_nil.
  - apply NoDup_cons in Hnd as [Hname Hnd].
    change (foldl (rename_one nameWidth names) current (name :: order))
      with (foldl (rename_one nameWidth names)
              (rename_one nameWidth names current name) order).
    destruct (IH (rename_one nameWidth names current name) Hnd) as [IH1 IH2];
      [by rewrite rename_one_length|].
    split.
    + intros Hn. apply not_elem_of_cons in Hn as [Hne Hn].
      rewrite IH1 by done. by apply (rename_one_other _ _ _ n).
    + intros Hn Hcur. destruct (decide (n = name)) as [->|Hne].
      * rewrite IH1 by done. by apply rename_one_same.
      * apply elem_of_cons in Hn as [?|Hn]; [done|].
        apply IH2; [done|]. by rewrite (rename_one_other _ _ _ n).
Qed.

(** The rename pass on a column whose names fit the column with their
    suffix: row by row, what the specification says. *)
Lemma rename_duplicates_lookup (names : list string) (i : nat) (n : string) :
  NoDup (iter_set names) → (∀ x, x ∈ iter_set names ↔ x ∈ names) →
  String.length n + 2 ≤ nameWidth →
  names !! i = Some n →
  rename_duplicates iter_set nameWidth names !! i = Some (renamed names i n).
Proof.
  intros Hnd Hset Hfit Hi. unfold rename_duplicates.
  destruct (rename_fold names i n Hfit Hi (iter_set names) names Hnd eq_refl)
    as [_ Hin].
  apply Hin; [|done]. apply Hset. by eapply list_elem_of_lookup_2.
Qed.

Lemma rename_duplicates_length (names : list string) :
  length (rename_duplicates iter_set nameWidth names) = length names.
Proof.
  unfold rename_duplicates. generalize (iter_set names). intros order.
  assert (∀ current, length (foldl (rename_one nameWidth names) current order)
                     = length current)
    as Hl; [|apply Hl].
  induction order as [|name order IH]; intros current; [done|]. simpl.
  by rewrite IH, rename_one_length.
Qed.

(** Two rows of one name become [name_1] and [name_2]. *)
Lemma renamed_pair (names : list string) (name : string) (i j : nat) (rest : list nat) :
  where_eq names name = i :: j :: rest →
  renamed names i name = name +:+ "_1" ∧ renamed names j name = name +:+ "_2".
Proof.
  intros Hw. unfold renamed. rewrite Hw. rewrite decide_True by done.
  assert (i < j) as Hlt.
  { apply where_eq_cons in Hw as (_ & _ & Hrest). destruct (Hrest j) as [[? _] _]; [by left|done]. }
  rewrite decide_False by lia. by rewrite decide_True.
Qed.

End RenameFacts.

(** ** The merge: matching by position *)

Section MatchFacts.
Context `{PyFloat F} {A : Type}.
Variable separation : F * F → F * F → Q.

Lemma nearest_from_spec (p : F * F) (cat : list (F * F)) : ∀ j best,
  let r := nearest_from separation p cat j best in
  (r = best ∨ ∃ k q, r = (j + k, separation p q) ∧ cat !! k = Some q) ∧
  (r.2 <= best.2)%Q ∧
  ∀ q, q ∈ cat → (r.2 <= separation p q)%Q.
Proof.
  induction cat as [|q cat IH]; intros j best; simpl.
  - split; [by left|]. split; [apply Qle_refl|]. by intros q ?%elem_of_nil.
  - set (best' := if Qlt_le_dec (separation p q) best.2
                  then (j, separation p q) else best).
    destruct (IH (S j) best') as (Hr & Hle & Hall).
    assert ((best'.2 <= best.2)%Q ∧ (best'.2 <= separation p q)%Q) as [Hb1 Hb2].
    { unfold best'. destruct (Qlt_le_dec _ _) as [Hlt|Hge]; simpl.
      - split; [by apply Qlt_le_weak|apply Qle_refl].
      - split; [apply Qle_refl|done]. }
    split; [|split].
    + destruct Hr as [->|(k & q' & -> & Hk)].
      * unfold best'. destruct (Qlt_le_dec _ _); [|by left].
        right. exists 0, q. split; [by rewrite Nat.add_0_r|done].
      * right. exists (S k), q'. split; [f_equal; lia|done].
    + by eapply Qle_trans.
    + intros q' [->|Hq']%elem_of_cons; [by eapply Qle_trans|by apply Hall].
Qed.

(** The nearest row: it is a row of the catalog, at the separation that is
    returned, and no row of the catalog is nearer. *)
Lemma nearest_spec (p : F * F) (cat : list (F * F)) (j : nat) (d : Q) :
  nearest separation p cat = Some (j, d) →
  ∃ q, cat !! j = Some q ∧ d = separation p q ∧
       ∀ q', q' ∈ cat → (d <= separation p q')%Q.
Proof.
  destruct cat as [|q0 cat]; simpl; [done|]. intros [= Hn].
  destruct (nearest_from_spec p cat 1 (0, separation p q0)) as (Hr & Hle & Hall).
  rewrite Hn in Hr, Hle, Hall. simpl in *.
  destruct Hr as [[= -> ->]|(k & q & [= -> ->] & Hk)].
  - exists q0. split; [done|]. split; [done|].
    intros q' [->|Hq']%elem_of_cons; [apply Qle_refl|by apply Hall].
  - exists q. split; [done|]. split; [done|].
    intros q' [->|Hq']%elem_of_cons; [done|by apply Hall].
Qed.

Lemma assign_match_length radius col i m :
  length (assign_match radius col i m) = length col.
Proof. unfold assign_match. destruct (Qle_bool _ _); [apply length_insert|done]. Qed.

Lemma assign_matches_length radius ms : ∀ col i,
  length (assign_matches radius col i ms) = length col.
Proof.
  induction ms as [|m ms IH]; intros col i; simpl; [done|].
  by rewrite IH, assign_match_length.
Qed.



(** Every cell of [matchCol2] is the row's own id or the index of a row of
    catalog 1 of which the row is the nearest. *)
Lemma assign_matches_origin radius n1 (all : list (nat * Q)) : ∀ ms col i0,
  drop i0 all = ms →
  (∀ j v, col !! j = Some v →
          v = n1 + j ∨ (v < i0 ∧ ∃ d, all !! v = Some (j, d))) →
  ∀ j v, assign_matches radius col i0 ms !! j = Some v →
         v = n1 + j ∨ (v < length all ∧ ∃ d, all !! v = Some (j, d)).
Proof.
  induction ms as [|m ms IH]; intros col i0 Hdrop Hcol j v; simpl.
  - intros Hv. destruct (Hcol j v Hv) as [?|(Hlt & d & Hd)]; [by left|right].
    split; [by eapply lookup_lt_Some|by exists d].
  - assert (all !! i0 = Some m) as Hm.
    { rewrite <- (Nat.add_0_r i0), <- lookup_drop, Hdrop. done. }
    apply (IH _ (S i0)).
    + replace (S i0) with (i0 + 1) by lia. by rewrite <- drop_drop, Hdrop.
    + clear j v. intros j v. unfold assign_match.
      destruct (Qle_bool m.2 radius); [|intros Hv];
        [|destruct (Hcol j v Hv) as [?|(? & ?)]; [by left|right; split; [lia|done]]].
      destruct (decide (m.1 = j)) as [<-|Hne].
      * intros Hv. apply list_lookup_insert_Some in Hv as [(_ & <- & _)|(? & _)]; [|done].
        right. split; [lia|]. exists m.2. by destruct m.
      * rewrite list_lookup_insert_ne by done. intros Hv.
        destruct (Hcol j v Hv) as [?|(? & ?)]; [by left|right; split; [lia|done]].
Qed.


End MatchFacts.

(** ** Spectral indices: one width for the whole column *)

Section SpectralFacts.
Context `{PyFloat F}.

Lemma zero_pad_length (n : nat) (l : list F) : length (zero_pad n l) = n `max` length l.
Proof. unfold zero_pad. rewrite length_app, length_replicate. lia. Qed.

(** Each row of [specVec] is what the loader read in the cell, padded. *)
Lemma spectral_row_observed (maxLen : nat) (v : value F) :
  spectral_row maxLen v = zero_pad maxLen (observed v).
Proof.
  unfold spectral_row, observed, spectral_entry, zero_pad.
  destruct v as [|s| | | |]; simpl; try done; try by rewrite Nat.sub_0_r.
  destruct (mapM fparse (Py.split ";" s)); simpl; [done|by rewrite Nat.sub_0_r].
Qed.

Lemma maxLen_step_other (m : nat) (v : value F) :
  (match v with VFloat _ => false | _ => true end) = true →
  maxLen_step m v = m `max` length (observed v).
Proof.
  unfold maxLen_step, observed, spectral_entry.
  destruct v as [|s| | | |]; simpl; try done; intros _; try lia.
  destruct (mapM fparse (Py.split ";" s)) as [l|]; simpl; [|lia].
  destruct (m <? length l) eqn:Hlt; [apply Nat.ltb_lt in Hlt|apply Nat.ltb_ge in Hlt]; lia.
Qed.

Lemma maxLen_no_float (col : list (value F)) : ∀ m,
  no_float col = true →
  foldl maxLen_step m col = m `max` max_list (length ∘ observed <$> col).
Proof.
  induction col as [|v col IH]; intros m; csimpl; [lia|].
  intros [Hv Hcol]%andb_true_iff.
  rewrite IH, maxLen_step_other by done. lia.
Qed.

Lemma maxLen_float_column (col : list (value F)) : ∀ m,
  m ≤ 1 → float_column col = true →
  foldl maxLen_step m col = m `max` max_list (length ∘ observed <$> col).
Proof.
  induction col as [|v col IH]; intros m Hm; csimpl; [lia|].
  intros [Hv Hcol]%andb_true_iff.
  assert (max_list (length ∘ observed <$> col) ≤ 1) as Hle.
  { clear -Hcol. induction col as [|w col IH]; csimpl; [lia|].
    csimpl in Hcol. apply andb_true_iff in Hcol as [Hw Hcol].
    specialize (IH Hcol). destruct w; csimpl in *; try done; lia. }
  destruct v; csimpl in *; try done.
  - rewrite IH by (done || lia). unfold maxLen_step, spectral_entry. simpl. lia.
  - rewrite IH by (done || lia). lia.
Qed.

(** In a column as NumPy types it (all cells floats or masked, or no cell
    a float), [maxLen] is the largest number of coefficients that the
    loader read in a cell, every row of the converted column has that
    length, and each row is the coefficients read in its cell followed by
    zeros.  The loader reads no coefficient in a cell that is an integer
    (see [read_spectral_integers]). *)
Lemma spectral_rows_one_width (specOld : list (value F)) :
  float_column specOld = true ∨ no_float specOld = true →
  let specVec := (convert_spectral specOld).1 in
  let maxLen := (convert_spectral specOld).2 in
  maxLen = max_list (length ∘ observed <$> specOld) ∧
  Forall (λ row, length row = maxLen) specVec ∧
  Forall2 (λ l row,
             row = observed l ++ replicate (maxLen - length (observed l)) fzero)
          specOld specVec.
Proof.
  intros Hcol. simpl.
  assert (spectral_maxLen specOld = max_list (length ∘ observed <$> specOld)) as Hmax.
  { unfold spectral_maxLen. destruct Hcol as [Hcol|Hcol].
    - rewrite maxLen_float_column by (done || lia). lia.
    - rewrite maxLen_no_float by done. lia. }
  split; [done|]. split.
  - apply Forall_fmap, Forall_forall. intros v Hv. simpl.
    rewrite spectral_row_observed, zero_pad_length, Hmax.
    assert (length (observed v) ≤ max_list (length ∘ observed <$> specOld)); [|lia].
    apply max_list_elem_of_le, list_elem_of_fmap. by exists v.
  - apply Forall2_fmap_r, Forall_Forall2_diag, Forall_forall. intros v _.
    apply spectral_row_observed.
Qed.

(** Astropy gives every column one type, so the condition holds of every
    column read from a file. *)
Lemma convert_column_one_type (s50 : bool) (toks : list string) :
  float_column (convert_column s50 toks) = true ∨ no_float (convert_column s50 toks) = true.
Proof.
  unfold convert_column.
  repeat match goal with
  | |- context [if ?b then _ else _] =>
      lazymatch b with
      | is_blank _ => fail
      | _ => destruct b
      end
  | |- context [list_find ?P toks] => destruct (list_find P toks) as [[? ?]|]
  end.
  all: try (right; unfold no_float; rewrite forallb_forall; intros v Hv;
            apply list_elem_of_In, list_elem_of_fmap in Hv as (tok & -> & _);
            by destruct (is_blank tok)).
  left. unfold float_column. rewrite forallb_forall. intros v Hv.
  apply list_elem_of_In, list_elem_of_fmap in Hv as (tok & -> & _).
  by destruct (is_blank tok).
Qed.

End SpectralFacts.

(** ** The writer: the order of the patches *)

Section PatchOrderFacts.
Context `{PyFloat F}.

Section Sorting.
Variable key : nat → string.

Let le_key : relation nat := λ a b, String.le (key a) (key b).

Local Instance le_key_trans : Transitive le_key.
Proof. intros a b c. unfold le_key. apply transitivity. Qed.

Lemma insert_by_perm (i : nat) (l : list nat) : insert_by key i l ≡ₚ i :: l.
Proof.
  induction l as [|j l IH]; simpl; [done|].
  destruct (String.leb (key i) (key j)); [done|].
  rewrite IH. apply Permutation_swap.
Qed.

Lemma le_key_leb (a b : nat) : le_key a b ↔ String.leb (key a) (key b) = true.
Proof. unfold le_key, String.le. apply Is_true_true. Qed.

Lemma insert_by_sorted (i : nat) (l : list nat) :
  StronglySorted le_key l → StronglySorted le_key (insert_by key i l).
Proof.
  induction 1 as [|j l Hl IH Hj]; simpl; [by repeat constructor|].
  destruct (String.leb (key i) (key j)) eqn:Hij.
  - apply le_key_leb in Hij.
    constructor; [by constructor|]. constructor; [done|].
    eapply Forall_impl; [apply Hj|]. intros k Hk. by transitivity j.
  - constructor; [done|]. rewrite insert_by_perm. constructor; [|done].
    destruct (total String.le (key i) (key j)) as [Hle|Hle]; [|done].
    apply le_key_leb in Hle. congruence.
Qed.

Lemma argsort_perm (n : nat) : argsort key n ≡ₚ seq 0 n.
Proof.
  unfold argsort. induction (seq 0 n) as [|i l IH]; simpl; [done|].
  by rewrite insert_by_perm, IH.
Qed.

Lemma argsort_sorted (n : nat) : StronglySorted String.le (key <$> argsort key n).
Proof.
  apply (StronglySorted_fmap _ le_key); [done|].
  unfold argsort. induction (seq 0 n) as [|i l IH]; simpl; [constructor|].
  by apply insert_by_sorted.
Qed.

(** The sort is stable: of two rows of one key the earlier row comes
    first. *)
Let stable : relation nat := λ a b, key a = key b → a < b.

Lemma insert_by_stable (i : nat) (l : list nat) :
  Forall (λ j, i < j) l → StronglySorted stable l →
  StronglySorted stable (insert_by key i l).
Proof.
  intros Hlt Hl. induction Hl as [|j l Hl IH Hj]; simpl; [by repeat constructor|].
  apply Forall_cons in Hlt as [Hij Hlt].
  destruct (String.leb (key i) (key j)) eqn:Hleb.
  - constructor; [by constructor|]. constructor; [by intros _|].
    eapply Forall_impl; [apply Hlt|]. by intros k Hk _.
  - constructor; [by apply IH|]. rewrite insert_by_perm. constructor; [|done].
    intros Heq. exfalso. rewrite Heq in Hleb.
    assert (String.le (key i) (key i)) as Hrefl by done.
    apply le_key_leb in Hrefl. congruence.
Qed.

Lemma argsort_from_stable (n : nat) : ∀ a,
  StronglySorted stable (foldr (insert_by key) [] (seq a n)).
Proof.
  induction n as [|n IH]; intros a; simpl; [constructor|].
  apply insert_by_stable; [|apply IH].
  assert (foldr (insert_by key) [] (seq (S a) n) ≡ₚ seq (S a) n) as ->.
  { induction (seq (S a) n) as [|i l IHl]; simpl; [done|].
    by rewrite insert_by_perm, IHl. }
  apply Forall_forall. intros j Hj%elem_of_seq. lia.
Qed.

Lemma sorted_lookup {X} (R : relation X) (l : list X) (p q : nat) (x y : X) :
  StronglySorted R l → p < q → l !! p = Some x → l !! q = Some y → R x y.
Proof.
  intros Hl. revert p q. induction Hl as [|z l Hl IH Hz]; intros p q Hpq Hp Hq; [done|].
  destruct q as [|q]; [lia|]. simpl in Hq. destruct p as [|p].
  - injection Hp as ->. rewrite Forall_forall in Hz. apply Hz.
    by eapply list_elem_of_lookup_2.
  - simpl in Hp. apply (IH p q); [lia|done..].
Qed.

Lemma argsort_stable (n p q i j : nat) :
  p < q → argsort key n !! p = Some i → argsort key n !! q = Some j →
  key i = key j → i < j.
Proof.
  intros Hpq Hp Hq.
  apply (sorted_lookup stable (argsort key n) p q); [|done..].
  apply argsort_from_stable.
Qed.

End Sorting.

Lemma uniq_cons (x y : string) (l : list string) :
  uniq (x :: y :: l) = if decide (x = y) then uniq (y :: l) else x :: uniq (y :: l).
Proof. done. Qed.

Lemma elem_of_uniq (l : list string) (p : string) : p ∈ uniq l ↔ p ∈ l.
Proof.
  induction l as [|x [|y l] IH]; [done..|].
  rewrite uniq_cons. destruct (decide (x = y)) as [->|Hne].
  - rewrite IH, (elem_of_cons (y :: l)). split; [by right|].
    intros [->|?]; [by left|done].
  - by rewrite elem_of_cons, IH, (elem_of_cons (y :: l) p x).
Qed.

(** The distinct values of a sorted list come out in strictly ascending
    order. *)
Lemma uniq_sorted (l : list string) :
  StronglySorted String.le l → StronglySorted (strict String.le) (uniq l).
Proof.
  induction 1 as [|x l Hl IH Hx]; [constructor|].
  destruct l as [|y l]; [by repeat constructor|].
  rewrite uniq_cons. destruct (decide (x = y)) as [->|Hne]; [done|].
  constructor; [done|]. apply Forall_forall. intros z Hz.
  apply (proj1 (elem_of_uniq _ _)) in Hz.
  apply StronglySorted_cons in Hl as [Hy _].
  assert (String.le x y) as Hxy by (by apply Forall_cons in Hx as [? _]).
  assert (String.le y z) as Hyz.
  { apply elem_of_cons in Hz as [->|Hz]; [done|].
    rewrite Forall_forall in Hy. by apply Hy. }
  split; [by transitivity y|].
  intros Hzx. apply Hne. apply (anti_symm String.le); [done|]. by transitivity z.
Qed.

Lemma patch_line_reference (meta : gmap string (value F)) (p line : string) :
  patch_line meta p = Ok line →
  ∃ ra dec, reference_position meta p = Some (ra, dec) ∧
            line = patch_definition_line p ra dec.
Proof.
  unfold patch_line, reference_position.
  destruct (meta !! p) as [[|[|a [|b [|]]]| | |[|ra [|dec [|]]]|ra dec]|];
    simpl; try done.
  2-4: intros [= <-]; by eexists _, _.
  destruct (fangle (String a "")) as [ra|]; simpl; [|done].
  destruct (fangle (String b "")) as [dec|]; simpl; [|done].
  intros [= <-]. by eexists _, _.
Qed.

(** C4, as the code has it.  When the table has a [Patch] column, the
    written lines are the header lines, then one patch-definition line per
    patch, then the rows.  The patches come in ascending order of their
    names, each once, and they are the values of the [Patch] column.  The
    line of a patch shows the reference position that [meta] holds under
    the name of the patch, and [(0, 0)] when [meta] has none.  The rows are
    those of the table sorted by patch, the rows of one patch in the order
    they have in the table: [order] lists the indices of the rows in the
    order in which they are written. *)
Theorem writer_patches_ascending (spdef : list F) (t : table F) (out : list string) :
  "Patch" ∈ keys t →
  skyModelWriter spdef t = Ok out →
  patches_ascending spdef t out.
Proof.
  intros Hkeys. unfold patches_ascending, skyModelWriter. rewrite bool_decide_eq_true_2 by done.
  unfold group_by_Patch.
  destruct (column "Patch" t) as [patchCol|] eqn:Hcol; simpl; [|done].
  destruct (mapM _ patchCol) as [names|] eqn:Hnames; simpl; [|done].
  set (order := argsort (λ i, names !!! i) (length names)).
  set (patchNames := uniq ((λ i, names !!! i) <$> order)).
  set (t' := {| t_columns := _; t_meta := t_meta t; t_masked := t_masked t |}).
  destruct (mapM (patch_line (t_meta t)) patchNames) as [patchLines|] eqn:Hpl;
    simpl; [|done].
  destruct (row_lines spdef t') as [rowLines|] eqn:Hrows; simpl; [|done].
  intros [= <-].
  exists names, patchNames, patchLines, rowLines, order, t'.
  assert (patchCol = VStr <$> names) as ->.
  { apply mapM_Ok in Hnames. clear -Hnames.
    induction Hnames as [|v s l k Hv _ IH]; [done|].
    csimpl. rewrite <- IH. by destruct v; simplify_eq. }
  assert (order ≡ₚ seq 0 (length names)) as Hperm by apply argsort_perm.
  assert (StronglySorted String.le ((λ i, names !!! i) <$> order)) as Hsorted
    by apply argsort_sorted.
  split; [done|]. split; [done|]. split; [by apply uniq_sorted|].
  split; [|split; [|split; [done|split; [done|split; [|done]]]]].
  - intros p. unfold patchNames. rewrite elem_of_uniq, list_elem_of_fmap. split.
    + intros (i & -> & Hi). rewrite Hperm in Hi.
      apply elem_of_seq in Hi as [_ Hi]. apply list_elem_of_lookup_total_2. lia.
    + intros (i & Hi)%list_elem_of_lookup. exists i.
      split; [by rewrite (list_lookup_total_correct _ _ _ Hi)|].
      rewrite Hperm. apply elem_of_seq. apply lookup_lt_Some in Hi. lia.
  - apply mapM_Ok in Hpl. eapply Forall2_impl; [apply Hpl|].
    intros p line. apply patch_line_reference.
  - intros p q i j. apply (argsort_stable (λ i, names !!! i)).
Qed.

End PatchOrderFacts.

(** ** The merge: the spectral index column *)

Section SpectralMergeFacts.
Context `{PyFloat F} {A : Type}.

Lemma filter_none {X} (P : X → Prop) `{∀ x, Decision (P x)} (l : list X) :
  Forall (λ x, ¬ P x) l → filter P l = [].
Proof.
  induction 1 as [|x l Hx _ IH]; [done|].
  by rewrite filter_cons, decide_False.
Qed.

Lemma filter_unique_name (LSM : list (source F A)) (s : source F A) :
  NoDup (src_Name <$> LSM) → s ∈ LSM →
  filter (λ s', src_Name s' = src_Name s) LSM = [s].
Proof.
  induction LSM as [|s' LSM IH]; csimpl; [by intros _ ?%elem_of_nil|].
  intros [Hs' Hnd]%NoDup_cons Hs. rewrite filter_cons.
  apply elem_of_cons in Hs as [->|Hs].
  - rewrite decide_True by done. f_equal.
    apply filter_none, Forall_forall. intros x Hx Hname.
    apply Hs'. rewrite <- Hname. by apply list_elem_of_fmap_2.
  - rewrite decide_False.
    + by apply IH.
    + intros Hname. apply Hs'. rewrite Hname. by apply list_elem_of_fmap_2.
Qed.

(** With two coefficients per source and names that are unique within each
    catalog, the merged value is the catalog-2 value of that name when the
    name is in catalog 2, and the catalog-1 value otherwise. *)
Lemma spData_row_two_coefficients (LSM1 LSM2 : list (source F A)) (s : source F A) :
  NoDup (src_Name <$> LSM1) → NoDup (src_Name <$> LSM2) →
  length (src_SpectralIndex s) = 2 →
  s ∈ LSM2 ∨ ((src_Name s ∉ src_Name <$> LSM2) ∧ s ∈ LSM1) →
  spData_row LSM1 LSM2 (src_Name s) = Ok (src_SpectralIndex s).
Proof.
  intros Hnd1 Hnd2 Hlen Hs. unfold spData_row, spectral_of.
  assert (assign_spData_row [src_SpectralIndex s] = Ok (src_SpectralIndex s)) as Hrow.
  { by destruct (src_SpectralIndex s) as [|x [|y [|]]]. }
  destruct Hs as [Hs|[Hnot Hs]].
  - rewrite bool_decide_eq_true_2 by by apply list_elem_of_fmap_2.
    by rewrite filter_unique_name.
  - rewrite bool_decide_eq_false_2 by done.
    by rewrite filter_unique_name.
Qed.

End SpectralMergeFacts.

(** ** The codec and the merge on concrete data *)

Section Examples.
Import DecFloat.
Local Open Scope Q_scope.

(** *** Spectral indices *)

Lemma spectral_rows_one_width_witness :
  let specOld : list (value Q) := [VStr "-0.8; 0.1"; VNone; VStr "-0.7"] in
  let specVec := (convert_spectral specOld).1 in
  let maxLen := (convert_spectral specOld).2 in
  maxLen = max_list (length ∘ observed <$> specOld) ∧
  Forall (λ row, length row = maxLen) specVec ∧
  Forall2 (λ l row,
             row = observed l ++ replicate (maxLen - length (observed l)) fzero)
          specOld specVec.
Proof.
  exact (spectral_rows_one_width (F:=Q) [VStr "-0.8; 0.1"; VNone; VStr "-0.7"]
           (or_intror eq_refl)).
Defined.

Example convert_spectral_ragged :
  convert_spectral (F:=Q) [VStr "-0.8; 0.1"; VNone; VStr "-0.7"; VStr "steep"]
  = ([[-4 # 5; 1 # 10]; [0; 0]; [-7 # 10; 0]; [0; 0]], 2%nat).
Proof. vm_compute. reflexivity. Qed.

Example convert_spectral_floats :
  convert_spectral (F:=Q) [VFloat (-4 # 5); VNone] = ([[-4 # 5]; [0]], 1%nat).
Proof. vm_compute. reflexivity. Qed.

(** The loader reads nothing in a cell that is neither a float nor a
    string: a column of integers, which Astropy makes of a column whose
    tokens are all integer literals, comes out with no coefficient. *)
Example convert_spectral_integers :
  convert_column (F:=Q) false ["1"; "-2"] = [VInt 1; VInt (-2)] ∧
  convert_spectral (F:=Q) [VInt 1; VInt (-2)] = ([[]; []], 0%nat).
Proof. vm_compute. split; reflexivity. Qed.

(** C2.  Spectral indices written without a decimal point are lost.  In
    the file [file_integer_spectral] each source supplies one coefficient,
    [1] and [-2]; Astropy types the column as integers, the loader reads
    floats and strings only, and every row of the table has the empty
    list: the width of the column is 0 and not 1, the largest number of
    coefficients supplied.  With a decimal point in one of them the column
    is one of floats, and both coefficients are read. *)
Theorem read_integer_spectral_indices :
  result_map (λ tf, column "SpectralIndex" tf.1)
    (read_file (F:=Q) [0] file_integer_spectral)
  = Ok (Ok [VList []; VList []])
  ∧
  result_map (λ tf, column "SpectralIndex" tf.1)
    (read_file (F:=Q) [0] file_decimal_spectral)
  = Ok (Ok [VList [1]; VList [-2]]).
Proof. split; vm_compute; reflexivity. Qed.

(** *** Reading, writing and reading again *)

(** C3.  The round trip does not keep a spectral index that equals the
    default: the writer writes it as [[]], and the reader reads [[]] as a
    blank field, for which it stores zeros up to the width of the other
    rows.  With one source the column loses its only coefficient; with two
    sources the value [-0.8] comes back as [0.0]. *)
Theorem round_trip_loses_default_spectral_index :
  result_map (λ ts, (column "SpectralIndex" ts.1, column "SpectralIndex" ts.2))
    (round_trip (F:=Q) [0] file_one_source)
  = Ok (Ok [VList [-4 # 5]], Ok [VList []])
  ∧
  result_map (λ ts, (column "SpectralIndex" ts.1, column "SpectralIndex" ts.2))
    (round_trip (F:=Q) [0] file_two_sources)
  = Ok (Ok [VList [-4 # 5]; VList [-7 # 10]], Ok [VList [0]; VList [-7 # 10]]).
Proof. split; vm_compute; reflexivity. Qed.

(** What is written for the file of two sources. *)
Example written_two_sources :
  ('(t, spdef) ← read_file (F:=Q) [0] file_two_sources; write_file spdef t)
  = Ok ("FORMAT = Name, Type, Ra, Dec, I, SpectralIndex='[-0.8]'" +:+ newline +:+ newline
        +:+ "a, POINT, 12:00:00, 10.00.00, 1.5, []" +:+ newline
        +:+ "b, POINT, 12:00:00, 11.00.00, 2.5, [-0.7]" +:+ newline).
Proof. vm_compute. reflexivity. Qed.

(** *** The order of the patches *)

(** The patches of [table_b_a] are first seen in the order [b], [a]; the
    writer writes [a] before [b]. *)
Lemma patches_first_seen_counterexample : ¬ patches_first_seen (F:=Q) [0] table_b_a.
Proof.
  intros Hrule.
  destruct (Hrule _ ["b"; "a"] eq_refl eq_refl) as (patchLines & rowLines & Hpl & Hout).
  vm_compute in Hpl. injection Hpl as <-.
  vm_compute in Hout. discriminate Hout.
Qed.

Lemma writer_patches_ascending_witness :
  ∃ out, skyModelWriter (F:=Q) [0] table_b_a = Ok out ∧
         patches_ascending [0] table_b_a out.
Proof.
  eexists. split; [vm_compute; reflexivity|].
  apply (writer_patches_ascending (F:=Q) [0] table_b_a).
  - vm_compute. do 2 right. by left.
  - vm_compute. reflexivity.
Defined.

Example written_b_a :
  skyModelWriter (F:=Q) [0] table_b_a
  = Ok ["FORMAT = Name, Type, Patch, Ra, Dec, I"; newline; newline;
        " , , a, 0:00:00, 0.00.00" +:+ newline;
        " , , b, 12:00:00, 10.00.00" +:+ newline;
        "s2, POINT, a, 1:00:00, -10.30.00, 2.0"; newline;
        "s1, POINT, b, 12:00:00, 10.00.00, 1.5"; newline].
Proof. vm_compute. reflexivity. Qed.

(** *** Matching by position *)

(** Both rows of catalog 2 are within the radius of the one row of
    catalog 1, which is the nearest row of catalog 1 to each of them; only
    the first gets its id. *)
Example match_columns_p_q :
  match_columns meridian_separation (1 # 10) catalog_p catalog_q
  = Ok ([0%nat], [0%nat; 2%nat]).
Proof. vm_compute. reflexivity. Qed.



(** Two rows of catalog 1 whose nearest row of catalog 2 is the same: the
    later one gives the id. *)
Example match_columns_two_select_one :
  match_columns meridian_separation (1 # 10) catalog_q catalog_p
  = Ok ([0%nat; 1%nat], [1%nat]).
Proof. vm_compute. reflexivity. Qed.

(** *** The rename pass *)

(** Merging with [keep = 'all'] two catalogs that both have a source [X]:
    the result has [X_1] and [X_2] and no [X]; with [keep = 'from1'] one
    [X] is left and keeps its name. *)
Example merge_renames_X :
  result_map (fmap row_Name)
    (concatenate meridian_separation remove_dups 50 catalog_X1 catalog_X2
       "name" (1 # 10) "all")
  = Ok ["A"; "X_1"; "X_2"; "C"]
  ∧
  result_map (fmap row_Name)
    (concatenate meridian_separation remove_dups 50 catalog_X1 catalog_X2
       "name" (1 # 10) "from1")
  = Ok ["A"; "X"; "C"].
Proof. split; vm_compute; reflexivity. Qed.

(** C6.  The rename pass stores the new names in the column [Name],
    which holds 50 characters in the tables that the reader returns, and
    the column cuts what is longer.  Two sources with one name of 49
    characters are both renamed to that name followed by [_]: the merge
    with [keep = 'all'] returns two rows of one name, and not [name_1] and
    [name_2]. *)
Theorem rename_cut_at_column_width :
  result_map (fmap row_Name)
    (concatenate meridian_separation remove_dups 50
       [source_at name_49 10 [1; 2]] [source_at name_49 20 [3; 4]]
       "name" (1 # 10) "all")
  = Ok [name_49 +:+ "_"; name_49 +:+ "_"].
Proof. vm_compute. reflexivity. Qed.

(** A name that three rows have: the third row keeps it. *)
Example rename_three : rename_duplicates remove_dups 50 ["X"; "Y"; "X"; "X"]
                       = ["X_1"; "Y"; "X_2"; "X"].
Proof. vm_compute. reflexivity. Qed.

(** *** Conflict resolution *)

(** C5.  With [keep = 'from1'] conflict resolution fails when the keys
    that several rows have do not have the same number of rows.  Merged by
    name, [catalog_XXY] and [catalog_XY] give three rows named [X] and two
    rows named [Y]: the entries of [toRemove] are arrays of two indices and
    arrays of one index, [remove_rows] raises [IndexError], and no row is
    removed, where the first [X] and the first [Y] should be kept.  With
    [keep = 'from2'] on the same catalogs, and with [keep = 'from1'] when
    every name is in two rows, rows are removed as the specification
    says. *)
Theorem remove_rows_ragged_groups :
  concatenate meridian_separation remove_dups 50 catalog_XXY catalog_XY
    "name" (1 # 10) "from1"
  = Raise IndexError
  ∧
  result_map (fmap (λ r, src_Dec (row_src r)))
    (concatenate meridian_separation remove_dups 50 catalog_XXY catalog_XY
       "name" (1 # 10) "from2")
  = Ok [20; 40; 50]
  ∧
  result_map (fmap (λ r, src_Dec (row_src r)))
    (concatenate meridian_separation remove_dups 50 catalog_XY catalog_XY
       "name" (1 # 10) "from1")
  = Ok [40; 50].
Proof. repeat split; vm_compute; reflexivity. Qed.

(** *** The spectral index column of the merge *)

(** C7.  The buffer [spData] has two columns whatever the catalogs hold.
    Sources with three coefficients do not fit: the merge raises.  A source
    with one coefficient gets it twice: the merged value is not the value
    of the catalog. *)
Theorem merge_spectral_index_two_columns :
  concatenate meridian_separation remove_dups 50
    [source_at "A" 10 [-7 # 10; 1 # 10; 1 # 100]]
    [source_at "B" 20 [-4 # 5; 1 # 5; 0]] "name" (1 # 10) "all"
  = Raise ValueError
  ∧
  result_map (fmap (λ r, (row_Name r, row_SpectralIndex r)))
    (concatenate meridian_separation remove_dups 50
       [source_at "A" 10 [-7 # 10]] [source_at "B" 20 [-4 # 5]]
       "name" (1 # 10) "all")
  = Ok [("A", [-7 # 10; -7 # 10]); ("B", [-4 # 5; -4 # 5])].
Proof. split; vm_compute; reflexivity. Qed.

(** With two coefficients per source the lookup by name is what the
    specification says, in both modes: the row [X] of catalog 1 gets the
    value of the row [X] of catalog 2. *)
Example merge_spectral_index_by_name :
  result_map (fmap (λ r, (src_Dec (row_src r), row_SpectralIndex r)))
    (concatenate meridian_separation remove_dups 50 catalog_X1 catalog_X2
       "position" (1 # 10) "all")
  = Ok [(10, [1; 2]); (20, [5; 6]); (30, [5; 6]); (40, [7; 8])].
Proof. vm_compute. reflexivity. Qed.

End Examples.

Module StrFacts.
Import Py PyFacts.

Lemma join_split (sep : ascii) (s : string) : join (String sep "") (split sep s) = s.
Proof.
  induction s as [|c s IH]; [done|]. simpl split.
  destruct (decide (c = sep)) as [->|].
  - destruct (split sep s) as [|h t] eqn:Hs.
    + by destruct s; simpl in Hs; repeat case_match.
    + rewrite join_cons, IH. done.
  - destruct (split sep s) as [|h t] eqn:Hs.
    + by destruct s; simpl in Hs; repeat case_match.
    + rewrite <- IH. destruct t; [done|]. by rewrite !join_cons.
Qed.

Lemma split_nonempty (sep : ascii) (s : string) : split sep s ≠ [].
Proof. destruct s; simpl; repeat case_match; done. Qed.

Lemma split_snoc (sep : ascii) (a b : string) :
  contains_char sep b = false →
  split sep (a +:+ String sep b) = split sep a ++ [b].
Proof.
  intros Hb. induction a as [|c a IH].
  - change ("" +:+ ?t) with t. simpl. rewrite decide_True by done.
    by rewrite split_plain.
  - rewrite sapp_cons. simpl. destruct (decide (c = sep)); [by rewrite IH|].
    rewrite IH. destruct (split sep a) eqn:Ha; [by apply split_nonempty in Ha|done].
Qed.

Lemma split_tail (sep : ascii) (a b : string) :
  contains_char sep a = false →
  tail (split sep (a +:+ String sep b)) = split sep b.
Proof. intros Ha. by rewrite split_app. Qed.

Lemma last_char_app s t : t ≠ "" → last_char (s +:+ t) = last_char t.
Proof.
  intros Ht. induction s as [|c s IH]; [done|]. rewrite sapp_cons. simpl. rewrite IH.
  destruct t; [done|]. simpl. by repeat case_match.
Qed.

Lemma last_char_None s : last_char s = None → s = "".
Proof. destruct s; [done|]. simpl. by case_match. Qed.

(** [rstrip] leaves a string as it is exactly when its last character is
    not one to strip. *)
Lemma rstrip_fixed chars s : rstrip chars s = s ↔ outside chars (last_char s) = true.
Proof.
  induction s as [|c s IH]; [done|]. simpl.
  destruct (last_char s) as [d|] eqn:Hl.
  - simpl in IH. destruct (rstrip chars s) as [|e r] eqn:Hr.
    + destruct s; [done|]. split.
      * destruct (contains_char c chars); done.
      * intros Hd. apply IH in Hd. done.
    + split; [intros [= Heq]; by apply IH|]. intros Hd. f_equal. by apply IH.
  - apply last_char_None in Hl as ->. simpl.
    destruct (contains_char c chars); done.
Qed.

Lemma lstrip_fixed chars s : lstrip chars s = s ↔ outside chars (first_char s) = true.
Proof.
  destruct s as [|c s]; [done|]. simpl.
  destruct (contains_char c chars) eqn:Hc; simpl; [|done].
  split; [|done]. intros Heq.
  assert (String.length (lstrip chars s) ≤ String.length s) as Hlen.
  { clear. induction s as [|d s IH]; simpl; [done|]. case_match; simpl; lia. }
  rewrite Heq in Hlen. simpl in Hlen. lia.
Qed.

Lemma length_lstrip chars s : String.length (lstrip chars s) ≤ String.length s.
Proof. induction s as [|d s IH]; simpl; [done|]. case_match; simpl; lia. Qed.

Lemma length_rstrip chars s : String.length (rstrip chars s) ≤ String.length s.
Proof.
  induction s as [|d s IH]; simpl; [done|].
  destruct (rstrip chars s); [case_match|]; simpl in *; lia.
Qed.

(** A string that [strip] leaves as it is has no character to strip at
    either end. *)
Lemma strip_fixed chars s :
  strip chars s = s ↔
  outside chars (first_char s) = true ∧ outside chars (last_char s) = true.
Proof.
  unfold strip. split.
  - intros Heq.
    assert (lstrip chars s = s) as Hl.
    { pose proof (length_lstrip chars s) as H1.
      pose proof (length_rstrip chars (lstrip chars s)) as H2.
      rewrite Heq in H2.
      destruct s as [|c s]; [done|]. simpl in *.
      pose proof (length_lstrip chars s).
      destruct (contains_char c chars); [|done]. lia. }
    rewrite Hl in Heq. split; [by apply lstrip_fixed|by apply rstrip_fixed].
  - intros [Hf Hl]. apply lstrip_fixed in Hf. rewrite Hf. by apply rstrip_fixed.
Qed.

Lemma outside_weaken chars chars' o :
  within chars chars' = true → outside chars o = true → outside chars' o = true.
Proof.
  intros Hsub. destruct o as [c|]; [|done]. simpl.
  intros Hc%negb_true_iff. apply negb_true_iff.
  destruct (contains_char c chars') eqn:Hc'; [|done].
  by rewrite (within_contains _ _ _ Hsub Hc') in Hc.
Qed.

(** Stripping a border made of [chars] around a body that has none of
    them at its ends. *)
Lemma strip_around chars a s b :
  within chars a = true → within chars b = true → s ≠ "" →
  outside chars (first_char s) = true → outside chars (last_char s) = true →
  strip chars (a +:+ s +:+ b) = s.
Proof.
  intros Ha Hb Hne Hf Hl. unfold strip. rewrite lstrip_within by done.
  assert (lstrip chars (s +:+ b) = s +:+ b) as ->.
  { apply lstrip_fixed. destruct s; [done|]. done. }
  rewrite rstrip_within by done. by apply rstrip_fixed.
Qed.

Lemma rstrip_keep chars s t :
  t ≠ "" → outside chars (last_char t) = true → rstrip chars (s +:+ t) = s +:+ t.
Proof. intros Ht Hl. apply rstrip_fixed. by rewrite last_char_app. Qed.

(** A prefix without the character [c] matches before [c] or not at all. *)
Lemma prefix_before (c : ascii) (p a b : string) :
  contains_char c p = false →
  String.prefix p (a +:+ String c b) = String.prefix p a.
Proof.
  revert a. induction p as [|x p IH]; intros a Hp.
  - by destruct a.
  - simpl in Hp. destruct (decide (x = c)) as [|Hx]; [done|].
    destruct a as [|y a].
    + change ("" +:+ ?t) with t. simpl.
      destruct (Ascii.ascii_dec x c); [done|done].
    + rewrite sapp_cons. simpl. destruct (Ascii.ascii_dec x y); [by apply IH|done].
Qed.

Lemma sapp_nil (s : string) : s +:+ "" = s.
Proof. induction s as [|c s IH]; [done|]. rewrite sapp_cons. by f_equal. Qed.

Lemma rev_app_acc (s acc : string) : String.rev_app s acc = String.rev s +:+ acc.
Proof.
  unfold String.rev. revert acc. induction s as [|c s IH]; intros acc; [done|].
  simpl. rewrite (IH (String c acc)), (IH (String c "")). by rewrite sapp_assoc.
Qed.

Lemma rev_cons (c : ascii) (s : string) : String.rev (String c s) = String.rev s +:+ String c "".
Proof. unfold String.rev at 1. simpl. apply rev_app_acc. Qed.

Lemma rev_app (s t : string) : String.rev (s +:+ t) = String.rev t +:+ String.rev s.
Proof.
  induction s as [|c s IH].
  - change ("" +:+ t) with t. change (String.rev "") with "". by rewrite sapp_nil.
  - rewrite sapp_cons, !rev_cons, IH. by rewrite sapp_assoc.
Qed.

Lemma lower_app (s t : string) : lower (s +:+ t) = lower s +:+ lower t.
Proof. induction s as [|c s IH]; [done|]. rewrite sapp_cons. simpl. by rewrite IH. Qed.

End StrFacts.

(** ** The header line: the two styles of the format line *)

Section FormatFacts.
Import Py PyFacts StrFacts.

Lemma normalise_FORMAT_style (cols : string) :
  cols ≠ "" →
  outside "# ()" (first_char cols) = true →
  outside "# ()" (last_char cols) = true →
  outside whitespace (last_char cols) = true →
  endswith (lower cols) "format" = false →
  normalise_format ("FORMAT = " +:+ cols +:+ newline) = Ok ("FORMAT = " +:+ cols).
Proof.
  intros Hne Hf Hl Hlw Hend.
  assert (outside "# " (last_char cols) = true) as Hl2
    by by apply (outside_weaken "# ()").
  unfold normalise_format.
  assert (strip "# " (strip_ws ("FORMAT = " +:+ cols +:+ newline))
          = "FORMAT = " +:+ cols) as ->.
  { unfold strip_ws, strip.
    rewrite (proj2 (lstrip_fixed whitespace _)) by done.
    rewrite <- sapp_assoc, rstrip_within, rstrip_keep by done.
    rewrite (proj2 (lstrip_fixed "# " _)) by done.
    by rewrite rstrip_keep. }
  assert (endswith (lower ("FORMAT = " +:+ cols)) "format" = false) as ->.
  { unfold endswith in *. rewrite lower_app, rev_app.
    change (String.rev (lower "FORMAT = ")) with (String " " "= tamrof").
    by rewrite prefix_before. }
  rewrite lower_app.
  change (startswith (lower "FORMAT = " +:+ lower cols) "format") with true.
  cbv iota.
  change ("FORMAT = " +:+ cols) with ("FORMAT " +:+ String "=" (" " +:+ cols)) at 1.
  rewrite split_tail by done. rewrite join_split.
  rewrite <- (sapp_nil cols) at 1. by rewrite strip_around.
Qed.

Lemma normalise_hash_style (cols : string) :
  cols ≠ "" →
  outside "# ()" (first_char cols) = true →
  outside "# ()" (last_char cols) = true →
  normalise_format ("# (" +:+ cols +:+ ") = format" +:+ newline)
  = Ok ("FORMAT = " +:+ cols).
Proof.
  intros Hne Hf Hl. unfold normalise_format.
  assert (strip "# " (strip_ws ("# (" +:+ cols +:+ ") = format" +:+ newline))
          = "(" +:+ cols +:+ ") = format") as ->.
  { unfold strip_ws, strip.
    rewrite (proj2 (lstrip_fixed whitespace _)) by done.
    rewrite <- !sapp_assoc, rstrip_within by done.
    rewrite rstrip_keep by done. rewrite sapp_assoc.
    change ("# (" +:+ ?x) with ("# " +:+ "(" +:+ x).
    rewrite lstrip_within by done.
    rewrite (proj2 (lstrip_fixed "# " _)) by done.
    rewrite <- sapp_assoc. rewrite rstrip_keep by done. by rewrite sapp_assoc. }
  assert (endswith (lower ("(" +:+ cols +:+ ") = format")) "format" = true) as ->.
  { unfold endswith. rewrite !lower_app, !rev_app. done. }
  change (") = format") with (") " +:+ String "=" " format").
  rewrite <- !sapp_assoc, split_snoc by done.
  rewrite removelast_last, join_split, sapp_assoc.
  by rewrite strip_around.
Qed.

(** X1.  The two styles of the format line mean the same.  For a list of
    columns [cols] that has none of ['#'], [' '], ['('], [')'] nor white
    space at its ends and does not end with [format], the line
    [FORMAT = cols] and the line [# (cols) = format] are both normalised to
    [FORMAT = cols]. *)
Theorem normalise_format_two_styles (cols : string) :
  cols ≠ "" →
  strip "# ()" cols = cols →
  strip_ws cols = cols →
  endswith (lower cols) "format" = false →
  normalise_format ("FORMAT = " +:+ cols +:+ newline) = Ok ("FORMAT = " +:+ cols)
  ∧ normalise_format ("# (" +:+ cols +:+ ") = format" +:+ newline)
    = Ok ("FORMAT = " +:+ cols).
Proof.
  intros Hne [Hf Hl]%strip_fixed [_ Hlw]%strip_fixed Hend.
  split; [by apply normalise_FORMAT_style|by apply normalise_hash_style].
Qed.

End FormatFacts.

(** ** Identifying a sky model file *)

Section IdentifyFacts.

Import Py PyFacts StrFacts.

Lemma prefix_app (p s : string) : String.prefix p s = true → ∃ r, s = p +:+ r.
Proof.
  revert s. induction p as [|c p IH]; intros s; [by exists s|].
  destruct s as [|d s]; simpl; [done|].
  destruct (Ascii.ascii_dec c d) as [->|]; [|done].
  intros [r ->]%IH. by exists r.
Qed.

Lemma prefix_app_self (p r : string) : String.prefix p (p +:+ r) = true.
Proof.
  induction p as [|c p IH]; [by destruct r|].
  rewrite sapp_cons. simpl. by destruct (Ascii.ascii_dec c c).
Qed.

Lemma contains_prefix (sub s : string) : String.prefix sub s = true → contains sub s = true.
Proof. intros Hp. destruct s; cbn [contains]; by rewrite Hp. Qed.

Lemma format_line_contains (line : string) :
  startswith line "FORMAT" || startswith line "format" = true →
  contains "format" (lower line) = true.
Proof.
  intros [Hp|Hp]%orb_true_iff; apply prefix_app in Hp as [r ->];
    rewrite lower_app; apply contains_prefix, (prefix_app_self "format").
Qed.

(** X2.  A file that [skyModelIdentify] accepts has a format line for the
    reader: [skyModelReader] finds one, which is the first line that
    contains [format] in any case, and no line before it starts with
    [FORMAT] or [format]. *)
Theorem identified_file_has_format_line (arg : identify_arg) (lines : list string) :
  arg = FileName lines ∨ arg = FileObject lines →
  skyModelIdentify arg = true →
  ∃ i line,
    find_format_line lines = Ok line ∧
    lines !! i = Some line ∧
    contains "format" (lower line) = true ∧
    ∀ j l, j < i → lines !! j = Some l →
           startswith l "FORMAT" || startswith l "format" = false.
Proof.
  intros Harg Hid.
  assert (existsb (λ line, startswith line "FORMAT" || startswith line "format") lines
          = true) as Hex by by destruct Harg as [-> | ->].
  apply existsb_exists in Hex as (l0 & Hin & Hl0).
  apply format_line_contains in Hl0.
  unfold find_format_line.
  destruct (list_find (λ line, contains "format" (lower line) = true) lines)
    as [[i line]|] eqn:Hfind.
  - apply list_find_Some in Hfind as (Hi & Hline & Hbefore).
    exists i, line. simpl. do 3 (split; [done|]).
    intros j l Hj Hl. destruct (_ || _) eqn:Hs; [|done].
    apply format_line_contains in Hs. by destruct (Hbefore j l Hl Hj).
  - apply list_find_None in Hfind. rewrite Forall_forall in Hfind.
    apply list_elem_of_In in Hin. by destruct (Hfind l0 Hin).
Qed.

End IdentifyFacts.

(** ** The header line: a list default that is not closed *)

Section UnclosedFacts.
Context `{PyFloat F}.
Import Py PyFacts StrFacts.

Lemma index_elem_of (x : string) (l : list string) : x ∈ l → ∃ i, index x l = Ok i.
Proof.
  induction l as [|y l IH]; [by intros ?%elem_of_nil|].
  simpl. destruct (decide (y = x)); [by exists 0|].
  intros [->|Hx]%elem_of_cons; [done|]. destruct (IH Hx) as [i ->]. by exists (S i).
Qed.

Lemma scan_brackets_unclosed (colNames : list string) :
  (∃ cn, cn ∈ colNames ∧ opens cn = true) →
  Forall (λ cn, closes cn = false) colNames →
  ∃ cnStart, cnStart ∈ colNames ∧ scan_brackets colNames = (Some cnStart, None).
Proof.
  unfold scan_brackets.
  set (step := λ '(cnStart, cnEnd) cn,
         (if opens cn then Some cn else cnStart,
          if closes cn then Some cn else cnEnd) : option string * option string).
  assert (∀ l s0,
            Forall (λ cn, closes cn = false) l →
            (foldl step (s0, None) l).2 = None ∧
            (((∃ cn, cn ∈ l ∧ opens cn = true) ∧
              ∃ cn, cn ∈ l ∧ (foldl step (s0, None) l).1 = Some cn) ∨
             ((∀ cn, cn ∈ l → opens cn = false) ∧
              (foldl step (s0, None) l).1 = s0))) as Hscan.
  { induction l as [|cn l IH]; intros s0 Hl.
    - split; [done|]. right. split; [by intros ? ?%elem_of_nil|done].
    - inversion Hl as [|? ? Hcn Hl']; subst. simpl. rewrite Hcn.
      destruct (IH (if opens cn then Some cn else s0) Hl') as [Hend Hstart].
      split; [done|]. destruct Hstart as [[(c & Hc & Ho) (c' & Hc' & Hs)]|[Hno Hs]].
      + left. split; [exists c|exists c']; (split; [by apply elem_of_cons; right|done]).
      + rewrite Hs. destruct (opens cn) eqn:Ho.
        * left. split; exists cn; (split; [by apply elem_of_cons; left|done]).
        * right. split; [|done]. intros c [->|?]%elem_of_cons; auto. }
  intros (cn & Hcn & Ho) Hcl.
  destruct (Hscan colNames None Hcl) as [Hend [[_ (c & Hc & Hs)]|[Hno _]]].
  - exists c. split; [done|].
    destruct (foldl step (None, None) colNames) as [a b]. simpl in *. by subst.
  - rewrite Hno in Ho; done.
Qed.

(** X3.  A header in which a column token opens a list with ['['] and no
    token closes one with [']'] alone makes the reader raise
    [ValueError]. *)
Theorem header_unclosed_list_raises (spdef : list F) (line formatString : string) :
  normalise_format line = Ok formatString →
  contains_char "," formatString = true →
  (∃ cn, cn ∈ split "," formatString ∧ opens cn = true) →
  Forall (λ cn, closes cn = false) (split "," formatString) →
  parse_header spdef line = Raise ValueError.
Proof.
  intros Hnorm Hcomma Hopen Hclose. unfold parse_header. rewrite Hnorm. simpl.
  rewrite Hcomma. simpl. unfold fix_colNames.
  destruct (scan_brackets_unclosed _ Hopen Hclose) as (cnStart & Hin & ->).
  by destruct (index_elem_of _ _ Hin) as [i ->].
Qed.

End UnclosedFacts.

(** ** The header line: what the writer writes, read back *)

Section HeaderRoundTrip.
Context `{PyFloat F}.
Import Py PyFacts StrFacts.

Lemma mapM_Forall2 {X Y} (f : X → result Y) (l : list X) (ys : list Y) :
  Forall2 (λ x y, f x = Ok y) l ys → mapM f l = Ok ys.
Proof. induction 1 as [|x y l ys Hx _ IH]; simpl; [done|]. by rewrite Hx, IH. Qed.

Lemma omap_cons_eq {X Y} (f : X → option Y) (x : X) (l : list X) :
  omap f (x :: l) = match f x with
                    | Some y => y :: omap f l
                    | None => omap f l
                    end.
Proof. done. Qed.

Lemma bind_Ok {X Y} (a : X) (f : X → result Y) : (Ok a ≫= f) = f a.
Proof. done. Qed.

Lemma canonical_names (k c : string) :
  allowedColumnNames !! k = Some c →
  allowedColumnNames !! lower c = Some c ∧ avoids ",[]='# ()" c = true ∧
  c ≠ "" ∧ endswith (lower c) "format" = false ∧ strip_ws (" " +:+ c) = c ∧
  outside "# ()" (first_char c) = true ∧ outside "# ()" (last_char c) = true ∧
  outside whitespace (last_char c) = true.
Proof.
  intros Hc. apply elem_of_list_to_map_2 in Hc.
  repeat (apply elem_of_cons in Hc as [[= -> ->]|Hc]; [by vm_compute|]).
  by apply elem_of_nil in Hc.
Qed.

(** The header token of a column whose canonical name is [c]. *)
Let tok (meta : gmap string (value F)) (c : string) : string :=
  match meta !! c with
  | Some v => c +:+ "='" +:+ str_value v +:+ "'"
  | None => if decide (c = "SpectralIndex") then c +:+ "='[]'" else c
  end.

Lemma header_tokens (meta : gmap string (value F)) (ks : list string) :
  omap (header_token meta) ks
  = tok meta <$> omap (λ k, allowedColumnNames !! lower k) ks.
Proof.
  induction ks as [|k ks IH]; [done|]. rewrite !omap_cons_eq, IH. unfold header_token.
  by destruct (allowedColumnNames !! lower k) as [c|].
Qed.

(** A default that the header can carry: a float whose text reads back as
    the float. *)
Let readable (meta : gmap string (value F)) (c : string) : Prop :=
  match meta !! c with
  | None => True
  | Some (VFloat x) => avoids ",[]='" (fstr x) = true ∧ fparse (fstr x) = Some x
  | Some _ => False
  end.

Lemma strip_quotes (s : string) : avoids "'" s = true → strip "'" ("'" +:+ s +:+ "'") = s.
Proof.
  intros Hs. destruct (decide (s = "")) as [->|Hne]; [done|].
  by apply strip_border.
Qed.

Lemma bracket_chars (ch : ascii) :
  contains_char ch ",[]" = true → ch = ","%char ∨ ch = "["%char ∨ ch = "]"%char.
Proof.
  simpl. repeat (destruct (decide _) as [<-|]; [by auto|]). done.
Qed.

Lemma column_spec_name (spdef : list F) (k c : string) :
  allowedColumnNames !! k = Some c →
  column_spec spdef (" " +:+ c) = Ok (c, allowedColumnDefaults spdef !! lower c, None).
Proof.
  intros (Hcanon & Hav & Hne & _ & Hstrip & _)%canonical_names.
  unfold column_spec. rewrite split_plain.
  2:{ rewrite contains_char_app. simpl. apply (avoids_contains ",[]='# ()"); done. }
  simpl hd. rewrite Hstrip.
  rewrite decide_False by (by destruct c). by rewrite Hcanon.
Qed.

Lemma tok_facts (spdef : list F) (meta : gmap string (value F)) (k c : string) :
  fparse "" = None →
  allowedColumnNames !! k = Some c →
  readable meta c →
  let t := tok meta c in
  contains_char "," t = false ∧ opens t = false ∧ closes t = false ∧
  t ≠ "" ∧ outside "# ()" (first_char t) = true ∧
  outside "# ()" (last_char t) = true ∧ outside whitespace (last_char t) = true ∧
  endswith (lower t) "format" = false ∧
  hd "" (split "=" (" " +:+ t)) = " " +:+ c ∧
  column_spec spdef (" " +:+ t)
  = Ok (c, match meta !! c with
           | Some v => Some v
           | None => allowedColumnDefaults spdef !! lower c
           end, meta !! c).
Proof.
  intros Hempty Hk Hread.
  pose proof (column_spec_name spdef k c Hk) as Hspec.
  destruct (canonical_names k c Hk) as (Hcanon & Hav & Hne & Hend & Hstrip & Hf & Hl & Hlw).
  assert (∀ ch, contains_char ch ",[]='# ()" = true → contains_char ch c = false)
    as Hch by (intros ch; by apply avoids_contains).
  unfold readable in Hread. unfold tok. cbv zeta.
  destruct (meta !! c) as [v|] eqn:Hmeta.
  - destruct v as [| | |x| |]; try done. destruct Hread as [Havx Hparse].
    change (str_value (VFloat x)) with (fstr x).
    assert (∀ ch, contains_char ch ",[]='" = true → contains_char ch (fstr x) = false)
      as Hchx by (intros ch; by apply avoids_contains).
    assert (∀ ch, contains_char ch ",[]" = true →
              contains_char ch (c +:+ "='" +:+ fstr x +:+ "'") = false) as Hcht.
    { intros ch [-> | [-> | ->]]%bracket_chars;
        by rewrite !contains_char_app, Hch, Hchx. }
    split; [by apply Hcht|]. unfold opens, closes.
    rewrite !Hcht by done. do 2 (split; [done|]).
    split; [by destruct c|]. split; [by destruct c|].
    rewrite <- !sapp_assoc, !last_char_app by done. do 2 (split; [done|]).
    split.
    { unfold endswith. rewrite !lower_app, !rev_app. done. }
    assert (split "=" (" " +:+ c +:+ "='" +:+ fstr x +:+ "'")
            = [" " +:+ c; "'" +:+ fstr x +:+ "'"]) as Hsplit.
    { change ("='" +:+ ?r) with (String "=" ("'" +:+ r)).
      rewrite <- sapp_assoc, split_app.
      2:{ rewrite contains_char_app. simpl. by apply Hch. }
      rewrite split_plain; [done|].
      rewrite !contains_char_app, Hchx by done. done. }
    rewrite !sapp_assoc. split; [by rewrite Hsplit|].
    unfold column_spec. rewrite Hsplit.
    simpl hd. rewrite Hstrip, decide_False by (by destruct c). rewrite Hcanon.
    unfold parse_default.
    assert (contains_char "[" ("'" +:+ fstr x +:+ "'") = false) as ->.
    { rewrite !contains_char_app, Hchx by done. done. }
    rewrite strip_quotes by (by apply (avoids_weaken ",[]='")).
    by rewrite Hparse.
  - destruct (decide (c = "SpectralIndex")) as [->|Hsp].
    + do 8 (split; [done|]). split; [done|].
      unfold column_spec.
      change (split "=" (" " +:+ "SpectralIndex" +:+ "='[]'"))
        with [" SpectralIndex"; "'[]'"].
      simpl hd. change (lower (strip_ws " SpectralIndex")) with "spectralindex".
      rewrite decide_False by done.
      change (allowedColumnNames !! "spectralindex") with (Some "SpectralIndex").
      unfold parse_default.
      change (contains_char "[" "'[]'") with true. cbv iota.
      change (split "," (strip "'[]" "'[]'")) with [""]. simpl mapM.
      change (strip_ws "") with "". by rewrite Hempty.
    + split; [by apply Hch|]. unfold opens, closes. rewrite !Hch by done.
      do 7 (split; [done|]). split; [|done].
      rewrite split_plain; [done|]. rewrite contains_char_app. simpl. by apply Hch.
Qed.

Lemma split_join_cells (p x : string) (l : list string) :
  contains_char "," p = false →
  Forall (λ y, contains_char "," y = false) (x :: l) →
  split "," (p +:+ join ", " (x :: l)) = (p +:+ x) :: ((λ y, " " +:+ y) <$> l).
Proof.
  revert p x. induction l as [|y l IH]; intros p x Hp Hl.
  - simpl. apply split_plain. rewrite contains_char_app, Hp. by inversion Hl.
  - inversion Hl as [|? ? Hx Hl']; subst. rewrite join_cons.
    change (", " +:+ ?r) with (String "," (" " +:+ r)).
    rewrite <- sapp_assoc, split_app by (by rewrite contains_char_app, Hp, Hx).
    by rewrite IH.
Qed.

Lemma scan_brackets_none (l : list string) :
  Forall (λ cn, opens cn = false) l → (scan_brackets l).1 = None.
Proof.
  unfold scan_brackets.
  set (step := λ '(cnStart, cnEnd) cn,
         (if opens cn then Some cn else cnStart,
          if closes cn then Some cn else cnEnd) : option string * option string).
  assert (∀ e, Forall (λ cn, opens cn = false) l → (foldl step (None, e) l).1 = None)
    as Hscan; [|apply Hscan].
  induction l as [|cn l IH]; intros e Hl; [done|].
  inversion Hl as [|? ? Hcn Hl']; subst. simpl. rewrite Hcn. by apply IH.
Qed.

Lemma fix_colNames_no_list (l : list string) :
  Forall (λ cn, opens cn = false) l → fix_colNames l = Ok l.
Proof.
  intros Hl%scan_brackets_none. unfold fix_colNames.
  by destruct (scan_brackets l) as [[] ?].
Qed.

Lemma opens_prefix (p s : string) : avoids "[]" p = true → opens (p +:+ s) = opens s.
Proof.
  intros Hp. unfold opens. rewrite !contains_char_app.
  by rewrite !(avoids_contains "[]" p).
Qed.

(** X4.  The format line that the writer writes is read back by the
    reader with the same columns.  For a table with at least two columns
    that the format knows, whose defaults in [meta] are floats that read
    back from their text, the reader finds the canonical names of these
    columns, in their order, and the defaults of [meta] as the explicit
    defaults of the columns, except that of the first column, which it
    drops. *)
Theorem written_header_read_back (spdef : list F) (t : table F)
    (c0 : string) (cols : list string) :
  omap (λ k, allowedColumnNames !! lower k) (keys t) = c0 :: cols →
  cols ≠ [] →
  fparse "" = None →
  Forall (λ c, match t_meta t !! c with
               | None => True
               | Some (VFloat x) =>
                   avoids ",[]='" (fstr x) = true ∧ fparse (fstr x) = Some x
               | Some _ => False
               end) (c0 :: cols) →
  ∃ hdr,
    parse_header spdef (hd "" (format_lines t) +:+ newline) = Ok hdr ∧
    h_colNames hdr = c0 :: cols ∧
    h_explicit hdr = None :: ((λ c, t_meta t !! c) <$> cols).
Proof.
  intros Hkeys Hcols Hempty Hmeta.
  set (meta := t_meta t) in *.
  assert (Forall (λ c, ∃ k, allowedColumnNames !! k = Some c) (c0 :: cols)) as Hcanon.
  { rewrite <- Hkeys. clear. induction (keys t) as [|k ks IH]; [constructor|].
    rewrite omap_cons_eq. destruct (allowedColumnNames !! lower k) eqn:Hk; [|done].
    constructor; [by exists (lower k)|done]. }
  assert (Forall (λ c, ∃ k, allowedColumnNames !! k = Some c ∧ readable meta c)
            (c0 :: cols)) as Hall.
  { apply Forall_forall. intros c Hc. rewrite Forall_forall in Hcanon, Hmeta.
    destruct (Hcanon c Hc) as [k Hk]. exists k. split; [done|]. by apply Hmeta. }
  clear Hcanon Hmeta.
  change (hd "" (format_lines t))
    with ("FORMAT = " +:+ join ", " (omap (header_token meta) (keys t))).
  rewrite header_tokens, Hkeys.
  set (toks := tok meta <$> c0 :: cols).
  assert (Forall (λ y, contains_char "," y = false) toks) as Hcomma.
  { apply Forall_fmap, (Forall_impl _ _ _ Hall). intros c (k & Hk & Hr).
    by destruct (tok_facts spdef meta k c Hempty Hk Hr) as (? & _). }
  destruct (exists_last Hcols) as (mid & cn & ->).
  inversion Hall as [|? ? (k0 & Hk0 & Hr0) Hrest]; subst.
  pose proof Hrest as Hrest'.
  apply Forall_app in Hrest' as [_ Hn]. inversion Hn as [|? ? (kn & Hkn & Hrn) _]; subst.
  destruct (tok_facts spdef meta k0 c0 Hempty Hk0 Hr0)
    as (_ & Ho0 & _ & Hne0 & Hf0 & _ & _ & _ & Hhd0 & _).
  destruct (tok_facts spdef meta kn cn Hempty Hkn Hrn)
    as (_ & _ & _ & Hnen & _ & Hln & Hlwn & Hendn & _).
  (* the body of the line *)
  assert (join ", " toks
          = join ", " (tok meta <$> c0 :: mid) +:+ ", " +:+ tok meta cn) as Hbody.
  { unfold toks. rewrite app_comm_cons, fmap_app. by rewrite join_app. }
  assert (normalise_format ("FORMAT = " +:+ join ", " toks +:+ newline)
          = Ok ("FORMAT = " +:+ join ", " toks)) as Hnorm.
  { apply normalise_FORMAT_style.
    - unfold toks. rewrite fmap_cons. destruct (tok meta <$> mid ++ [cn]) eqn:Hl.
      + by destruct mid.
      + rewrite join_cons. by destruct (tok meta c0).
    - unfold toks. rewrite fmap_cons. destruct (tok meta <$> mid ++ [cn]) eqn:Hl.
      + by destruct mid.
      + rewrite join_cons. by destruct (tok meta c0).
    - rewrite Hbody, <- !sapp_assoc, last_char_app; done.
    - rewrite Hbody, <- !sapp_assoc, last_char_app; done.
    - rewrite Hbody. unfold endswith in *. rewrite !lower_app, !rev_app.
      change (String.rev (lower ", ")) with (String " " ",").
      rewrite sapp_assoc. change (String " " "," +:+ ?r) with (String " " ("," +:+ r)).
      by rewrite prefix_before. }
  unfold parse_header. rewrite sapp_assoc, Hnorm, bind_Ok.
  assert (contains_char "," ("FORMAT = " +:+ join ", " toks) = true) as ->.
  { rewrite Hbody, !contains_char_app. simpl. by rewrite !orb_true_r. }
  change (negb true) with false. cbv iota.
  unfold toks in Hcomma |- *. rewrite fmap_cons in Hcomma |- *.
  rewrite split_join_cells by done.
  rewrite fix_colNames_no_list.
  2:{ constructor; [by rewrite (opens_prefix "FORMAT = ")|].
      apply Forall_fmap, Forall_fmap, (Forall_impl _ _ _ Hrest).
      intros c (k & Hk & Hr). unfold compose. rewrite (opens_prefix " ") by done.
      by destruct (tok_facts spdef meta k c Hempty Hk Hr) as (_ & ? & _). }
  rewrite bind_Ok.
  change (hd "" (?a :: ?l)) with a. change (tail (?a :: ?l)) with l.
  change ("FORMAT = " +:+ tok meta c0)
    with ("FORMAT " +:+ String "=" (" " +:+ tok meta c0)).
  rewrite split_app by done.
  destruct (split "=" (" " +:+ tok meta c0)) as [|first rest] eqn:Hsplit;
    [by apply split_nonempty in Hsplit|].
  simpl in Hhd0. subst first.
  change ((?a :: ?b :: ?l) !! 1) with (Some b). unfold of_option. rewrite bind_Ok.
  set (g := λ c : string, (c, match meta !! c with
                              | Some v => Some v
                              | None => allowedColumnDefaults spdef !! lower c
                              end, meta !! c)).
  rewrite (mapM_Forall2 _ _
    ((c0, allowedColumnDefaults spdef !! lower c0, None) :: (g <$> mid ++ [cn]))).
  2:{ constructor; [by apply (column_spec_name spdef k0)|].
      apply Forall2_fmap_l, Forall2_fmap_l, Forall2_fmap_r, Forall_Forall2_diag.
      apply (Forall_impl _ _ _ Hrest). intros c (k & Hk & Hr). unfold compose.
      by destruct (tok_facts spdef meta k c Hempty Hk Hr)
        as (_ & _ & _ & _ & _ & _ & _ & _ & _ & ?). }
  rewrite bind_Ok. eexists. split; [done|].
  cbn [h_colNames h_explicit]. rewrite !fmap_cons, <- !list_fmap_compose.
  split; f_equal.
  by rewrite list_fmap_id.
Qed.

End HeaderRoundTrip.

(** ** Data lines: the bracketed lists *)

Section BracketFacts.
Import Py PyFacts StrFacts.

Lemma find_char_app (c : ascii) (pre s : string) :
  contains_char c pre = false →
  find_char c (pre +:+ String c s) = Some (String.length pre).
Proof.
  induction pre as [|d pre IH]; intros Hpre.
  - change ("" +:+ ?t) with t. simpl. by rewrite decide_True.
  - rewrite sapp_cons. simpl in *. destruct (decide (d = c)); [done|].
    by rewrite IH.
Qed.

Lemma rfind_char_None (c : ascii) (s : string) :
  contains_char c s = false → rfind_char c s = None.
Proof.
  induction s as [|d s IH]; [done|]. simpl.
  destruct (decide (d = c)); [done|]. intros Hs. by rewrite IH.
Qed.

Lemma rfind_char_app (c : ascii) (s post : string) :
  contains_char c post = false →
  rfind_char c (s +:+ String c post) = Some (String.length s).
Proof.
  intros Hpost. induction s as [|d s IH].
  - change ("" +:+ ?t) with t. simpl. rewrite rfind_char_None by done.
    by rewrite decide_True.
  - rewrite sapp_cons. simpl. by rewrite IH.
Qed.

Lemma substring_app (pre s post : string) :
  String.substring (String.length pre) (String.length s) (pre +:+ s +:+ post) = s.
Proof.
  induction pre as [|c pre IH].
  - change ("" +:+ ?t) with t. simpl. induction s as [|d s IH]; [by destruct post|].
    rewrite sapp_cons. simpl. by rewrite IH.
  - rewrite sapp_cons. simpl. apply IH.
Qed.

Lemma replace_char_avoids (old new : ascii) (s : string) :
  contains_char old s = false → replace_char old new s = s.
Proof.
  induction s as [|c s IH]; [done|]. simpl.
  destruct (decide (c = old)); [done|]. intros Hs. by rewrite IH.
Qed.

Lemma prefix_contains (p s : string) (c : ascii) :
  String.prefix p s = true → contains_char c p = true → contains_char c s = true.
Proof.
  intros [r ->]%prefix_app Hc. by rewrite contains_char_app, Hc.
Qed.

(** A text that lacks one of the characters of [old] holds no occurrence
    of [old]. *)
Lemma replace_go_absent (old new : string) (c : ascii) (s : string) :
  contains_char c old = true → contains_char c s = false →
  replace_go old new 0 s = s.
Proof.
  intros Hold. induction s as [|d s IH]; [done|]. intros Hs.
  cbn [replace_go].
  destruct (String.prefix old (String d s)) eqn:Hp.
  - by rewrite (prefix_contains _ _ _ Hp Hold) in Hs.
  - simpl in Hs. destruct (decide (d = c)); [done|]. by rewrite IH.
Qed.

Lemma replace_go_skip (old new s t : string) :
  replace_go old new (String.length s) (s +:+ t) = replace_go old new 0 t.
Proof. induction s as [|c s IH]; [done|]. rewrite sapp_cons. simpl. apply IH. Qed.

(** The one occurrence of [old], which starts with a character that the
    text before it lacks and holds a character that the text after it
    lacks. *)
Lemma replace_once (c0 c1 : ascii) (old' new pre post : string) :
  let old := String c0 old' in
  contains_char c0 pre = false →
  contains_char c1 old = true → contains_char c1 post = false →
  replace old new (pre +:+ old +:+ post) = pre +:+ new +:+ post.
Proof.
  intros old Hpre Hc1 Hpost. unfold replace.
  induction pre as [|d pre IH].
  - change ("" +:+ ?t) with t. unfold old at 2. rewrite sapp_cons.
    cbn [replace_go]. rewrite <- sapp_cons. fold old. rewrite prefix_app_self.
    replace (String.length old - 1) with (String.length old')
      by (unfold old; simpl; lia).
    rewrite replace_go_skip. by rewrite (replace_go_absent _ _ c1).
  - rewrite sapp_cons. simpl in Hpre. destruct (decide (d = c0)) as [|Hd]; [done|].
    cbn [replace_go].
    assert (String.prefix old (String d (pre +:+ old +:+ post)) = false) as ->.
    { unfold old. simpl. by destruct (Ascii.ascii_dec c0 d). }
    by rewrite IH.
Qed.

Lemma strip_brackets (inner : string) :
  outside "[]" (first_char inner) = true →
  outside "[]" (last_char inner) = true →
  strip "[]" ("[" +:+ inner +:+ "]") = inner.
Proof.
  intros Hf Hl. destruct (decide (inner = "")) as [->|Hne]; [done|].
  by apply strip_around.
Qed.

(** What [mask_brackets] does to a line: from the first ['['] to the last
    [']'], the brackets at the two ends go and every [','] becomes a
    [';']. *)
Lemma mask_brackets_span (pre inner post : string) :
  contains_char "[" pre = false →
  contains_char "]" post = false →
  outside "[]" (first_char inner) = true →
  outside "[]" (last_char inner) = true →
  mask_brackets (pre +:+ "[" +:+ inner +:+ "]" +:+ post)
  = pre +:+ replace_char "," ";" inner +:+ post.
Proof.
  intros Hpre Hpost Hf Hl.
  set (line := pre +:+ "[" +:+ inner +:+ "]" +:+ post).
  assert (find_char "[" line = Some (String.length pre)) as Hfind
    by by apply (find_char_app "[" pre).
  assert (line = (pre +:+ "[" +:+ inner) +:+ String "]" post) as Hline1
    by (unfold line; by rewrite !sapp_assoc).
  assert (rfind_char "]" line = Some (String.length (pre +:+ "[" +:+ inner)))
    as Hrfind by (rewrite Hline1; by apply rfind_char_app).
  assert (line = pre +:+ ("[" +:+ inner +:+ "]") +:+ post) as Hline2
    by (unfold line; by rewrite !sapp_assoc).
  unfold mask_brackets, search_brackets. rewrite Hfind, Hrfind.
  rewrite !slength_app.
  assert ((String.length pre <? String.length pre + (String.length "[" + String.length inner))
          = true) as -> by (apply Nat.ltb_lt; simpl; lia).
  unfold slice.
  replace (S (String.length pre + (String.length "[" + String.length inner))
           - String.length pre)
    with (String.length ("[" +:+ inner +:+ "]"))
    by (rewrite !slength_app; simpl; lia).
  rewrite Hline2, substring_app, strip_brackets by done.
  assert ((if contains_char "," inner then replace_char "," ";" inner else inner)
          = replace_char "," ";" inner) as ->.
  { destruct (contains_char "," inner) eqn:Hc; [done|].
    by rewrite replace_char_avoids. }
  apply (replace_once "[" "]"); [done| |done].
  change (String "[" ?r) with ("[" +:+ r).
  rewrite !contains_char_app. simpl. by rewrite orb_true_r.
Qed.

Lemma outside_avoids (chars s : string) :
  avoids chars s = true →
  outside chars (first_char s) = true ∧ outside chars (last_char s) = true.
Proof.
  intros Hs.
  assert (rstrip chars s = s) as Hr by by apply rstrip_avoids.
  split; [|by apply rstrip_fixed].
  destruct s; [done|]. simpl in *. by apply andb_true_iff in Hs as [-> _].
Qed.

Lemma replace_char_gone (old new : ascii) (s : string) :
  old ≠ new → contains_char old (replace_char old new s) = false.
Proof.
  intros Hne. induction s as [|c s IH]; [done|]. simpl.
  destruct (decide (c = old)); rewrite decide_False; done.
Qed.

Lemma split_replace_char (old new : ascii) (s : string) :
  contains_char new s = false →
  split new (replace_char old new s) = split old s.
Proof.
  induction s as [|c s IH]; [done|]. simpl.
  destruct (decide (c = new)) as [|Hn]; [done|]. intros Hs.
  destruct (decide (c = old)) as [->|Ho].
  - rewrite decide_True by done. by rewrite IH.
  - rewrite decide_False by done. by rewrite IH.
Qed.

(** X5.  A bracketed list in a data line stays one field.  In a line with
    one list, whose text [inner] holds no bracket and no [';'], the
    brackets go and the [','] of the list become [';']: what replaces the
    list holds no [','], and its pieces between the [';'] are the items of
    the list. *)
Theorem mask_brackets_one_list (pre inner post : string) :
  avoids "[]" pre = true → avoids "[];" inner = true → avoids "[]" post = true →
  let c := replace_char "," ";" inner in
  mask_brackets (pre +:+ "[" +:+ inner +:+ "]" +:+ post) = pre +:+ c +:+ post ∧
  contains_char "," c = false ∧
  split ";" c = split "," inner.
Proof.
  intros Hpre Hinner Hpost c.
  destruct (outside_avoids "[]" inner) as [Hf Hl];
    [by apply (avoids_weaken "[];")|].
  split; [|split].
  - apply mask_brackets_span; [by apply (avoids_contains "[]")| |done|done].
    by apply (avoids_contains "[]").
  - by apply replace_char_gone.
  - apply split_replace_char. by apply (avoids_contains "[];").
Qed.

(** X6.  The search for brackets is greedy: in a line with two lists,
    everything from the first ['['] to the last [']'] is taken for one
    list, so that the [','] between the two lists become [';'] as well and
    the fields between them are fused with them into one field. *)
Theorem mask_brackets_two_lists (pre a mid b post : string) :
  avoids "[]" pre = true → avoids "[]" a = true → avoids "[]" mid = true →
  avoids "[]" b = true → avoids "[]" post = true →
  a ≠ "" → b ≠ "" →
  let inner := a +:+ "]" +:+ mid +:+ "[" +:+ b in
  mask_brackets (pre +:+ "[" +:+ a +:+ "]" +:+ mid +:+ "[" +:+ b +:+ "]" +:+ post)
  = pre +:+ replace_char "," ";" inner +:+ post
  ∧ contains_char "," (replace_char "," ";" inner) = false.
Proof.
  intros Hpre Ha Hmid Hb Hpost Hane Hbne inner.
  split; [|by apply replace_char_gone].
  replace (pre +:+ "[" +:+ a +:+ "]" +:+ mid +:+ "[" +:+ b +:+ "]" +:+ post)
    with (pre +:+ "[" +:+ inner +:+ "]" +:+ post)
    by (unfold inner; by rewrite !sapp_assoc).
  apply mask_brackets_span.
  - by apply (avoids_contains "[]").
  - by apply (avoids_contains "[]").
  - unfold inner. destruct a as [|c a]; [done|]. simpl in *.
    by apply andb_true_iff in Ha as [-> _].
  - unfold inner. rewrite <- !sapp_assoc, last_char_app by done.
    by apply outside_avoids.
Qed.

End BracketFacts.

(** ** Data lines: the fields of a row *)

Section RowFacts.
Context `{PyFloat F}.
Import Py PyFacts StrFacts.

Lemma split_no_sep (sep : ascii) (s : string) :
  Forall (λ x, contains_char sep x = false) (split sep s).
Proof.
  induction s as [|c s IH]; [by repeat constructor|]. simpl.
  destruct (decide (c = sep)) as [->|Hc]; [by constructor|].
  destruct (split sep s) as [|h t]; [by repeat constructor; simpl; rewrite decide_False|].
  inversion IH; subst. constructor; [|done]. simpl. by rewrite decide_False.
Qed.

(** X7.  The row that the reader keeps for a data line has the fields of
    the line followed by blank fields up to the number of columns: a
    short line is padded, a long line is not cut. *)
Theorem padded_fields (ncols : nat) (line : string) :
  split "," (padded ncols (fields line))
  = fields line ++ replicate (ncols - length (fields line)) " ".
Proof.
  unfold padded. apply (split_join ",").
  - unfold fields. destruct (split "," _) eqn:Hs; [by apply split_nonempty in Hs|done].
  - apply Forall_app. split; [apply split_no_sep|].
    by apply Forall_replicate.
Qed.

End RowFacts.

(** ** Declinations written with colons *)

Section DecColonFacts.
Context `{PyFloat F}.
Import Py PyFacts StrFacts.

Lemma replace_char_n_skip (old new : ascii) (k : nat) (a r : string) :
  contains_char old a = false →
  replace_char_n old new k (a +:+ r) = a +:+ replace_char_n old new k r.
Proof.
  induction a as [|d a IH]; intros Ha; [done|].
  rewrite !sapp_cons. simpl in Ha. destruct (decide (d = old)); [done|].
  destruct k as [|k].
  - by rewrite !replace_char_n_0.
  - cbn [replace_char_n]. rewrite decide_False by done. by rewrite IH.
Qed.

Lemma float_at_three (d m s : string) (more : list string) (k : nat) :
  k < 3 → float_at (d :: m :: s :: more) k = float_at [d; m; s] k.
Proof. intros Hk. by destruct k as [|[|[|k]]]; [..|lia]. Qed.

(** X9.  A declination written with colons loses the fraction of its
    seconds: the first ['.'] of the text is taken for a separator of
    fields, so that [d:m:s.frac] is read as [d:m:s]. *)
Theorem dec_colons_drop_fraction (d m s frac : string) :
  avoids ":." d = true → avoids ":." m = true → avoids ":." s = true →
  dec_of_string (d +:+ ":" +:+ m +:+ ":" +:+ s +:+ "." +:+ frac)
  = dec_of_string (d +:+ ":" +:+ m +:+ ":" +:+ s).
Proof.
  intros Hd Hm Hs.
  assert (∀ x c, avoids ":." x = true → contains_char c ":." = true →
                 contains_char c x = false) as Hav
    by (intros x c Hx Hc; by apply (avoids_contains ":.")).
  unfold dec_of_string.
  assert (split ":" (replace_char_n "." ":" 2
            (d +:+ ":" +:+ m +:+ ":" +:+ s +:+ "." +:+ frac))
          = d :: m :: s :: split ":" (replace_char_n "." ":" 1 frac)) as ->.
  { rewrite (replace_char_n_skip _ _ _ d) by by apply Hav.
    change (":" +:+ ?r) with (String ":" r). cbn [replace_char_n].
    try rewrite decide_False by done.
    rewrite (replace_char_n_skip _ _ _ m) by by apply Hav.
    change (":" +:+ ?r) with (String ":" r). cbn [replace_char_n].
    try rewrite decide_False by done.
    change ("." +:+ frac) with (String "." frac).
    rewrite replace_char_n_cut by by apply Hav.
    by rewrite !split_app by by apply Hav. }
  assert (split ":" (replace_char_n "." ":" 2 (d +:+ ":" +:+ m +:+ ":" +:+ s))
          = [d; m; s]) as ->.
  { rewrite replace_char_n_plain.
    2:{ rewrite !contains_char_app, (Hav d), (Hav m), (Hav s) by done. done. }
    repeat (progress change (":" +:+ ?r) with (String ":" r)).
    rewrite !split_app by by apply Hav.
    f_equal. f_equal. apply split_plain. by apply Hav. }
  by rewrite !float_at_three by lia.
Qed.

End DecColonFacts.

(** ** Patch lines: written and read back *)

Section PatchLineFacts.
Context `{PyFloat F}.
Import Py PyFacts StrFacts.

Lemma find_char_None (c : ascii) (s : string) :
  contains_char c s = false → find_char c s = None.
Proof.
  induction s as [|d s IH]; [done|]. simpl.
  destruct (decide (d = c)); [done|]. intros Hs. by rewrite IH.
Qed.

Lemma mask_brackets_plain (line : string) :
  contains_char "[" line = false → mask_brackets line = line.
Proof.
  intros Hl. unfold mask_brackets, search_brackets. by rewrite find_char_None.
Qed.

Lemma strip_ws_space (s : string) : strip_ws s = s → strip_ws (" " +:+ s) = s.
Proof. intros Hs. unfold strip_ws, strip in *. by rewrite (lstrip_within _ " "). Qed.

(** X8.  A patch line that the writer writes is read back as the patch it
    defines: when the name of the patch and the two texts of its position
    hold no [','] and no bracket and have no white space around them, the
    reader adds no row and stores under the name of the patch the position
    that [RA2Angle] and [Dec2Angle] read in the two texts. *)
Theorem patch_line_read_back (ncols : nat) (st : lines_state)
    (patchName : string) (gRA gDec ra dec : F) :
  avoids ",[]" patchName = true → strip_ws patchName = patchName →
  avoids ",[]" (fmt_ra gRA) = true → strip_ws (fmt_ra gRA) = fmt_ra gRA →
  avoids ",[]" (fmt_dec gDec) = true → strip_ws (fmt_dec gDec) = fmt_dec gDec →
  ra_of_string (fmt_ra gRA) = Ok ra →
  dec_of_string (fmt_dec gDec) = Ok dec →
  read_line ncols st (patch_definition_line patchName gRA gDec)
  = Ok {| ls_meta := <[patchName := VPos ra dec]> (ls_meta st);
          ls_outlines := ls_outlines st |}.
Proof.
  intros Hp Hps Hr Hrs Hd Hds Hra Hdec.
  assert (∀ x, avoids ",[]" x = true → contains_char "," x = false) as Hcomma
    by (intros x Hx; by apply (avoids_contains ",[]")).
  assert (∀ x, avoids ",[]" x = true → contains_char "[" x = false) as Hopen
    by (intros x Hx; by apply (avoids_contains ",[]")).
  set (cells := [" "; ""; patchName; fmt_ra gRA; fmt_dec gDec]).
  assert (patch_definition_line patchName gRA gDec = join ", " cells +:+ newline)
    as Hline by (unfold patch_definition_line, cells; simpl; by rewrite !sapp_assoc).
  assert (fields (patch_definition_line patchName gRA gDec)
          = [" "; " "; " " +:+ patchName; " " +:+ fmt_ra gRA; " " +:+ fmt_dec gDec])
    as Hfields.
  { unfold fields. rewrite Hline.
    assert (strip newline (join ", " cells +:+ newline) = join ", " cells) as ->.
    { unfold strip. rewrite (proj2 (lstrip_fixed newline _)) by done.
      rewrite rstrip_within by done. apply rstrip_fixed.
      unfold cells. cbn [join]. rewrite <- !sapp_assoc.
      destruct (decide (fmt_dec gDec = "")) as [->|Hne].
      - rewrite sapp_nil. by rewrite last_char_app.
      - rewrite last_char_app by done.
        apply strip_fixed in Hds as [_ Hl].
        by apply (outside_weaken whitespace). }
    rewrite mask_brackets_plain.
    2:{ unfold cells.
        cbn [join]. rewrite !contains_char_app, (Hopen patchName),
          (Hopen (fmt_ra gRA)), (Hopen (fmt_dec gDec)) by done.
        done. }
    change (join ", " cells) with ("" +:+ join ", " cells). unfold cells.
    rewrite split_join_cells; [done|done|].
    repeat constructor; by (done || apply Hcomma). }
  unfold read_line.
  assert (is_header_or_comment (patch_definition_line patchName gRA gDec) = false)
    as -> by done.
  rewrite Hfields. simpl hd. rewrite decide_True by done.
  simpl length. change (4 <? 5) with true. cbv iota.
  unfold patch_entry.
  change ([?a; ?b; ?c; ?d; ?e] !!! 2) with c.
  change ([?a; ?b; ?c; ?d; ?e] !!! 3) with d.
  change ([?a; ?b; ?c; ?d; ?e] !!! 4) with e.
  rewrite !strip_ws_space by done.
  unfold RA2Angle, Dec2Angle. cbn [mapM on_str]. rewrite Hra, Hdec. done.
Qed.

End PatchLineFacts.

(** ** The writer: blank cells at the end of a row *)

Section RowStrFacts.
Context `{PyFloat F}.
Import Py PyFacts StrFacts.

Lemma pop_blanks_spec (cells : list string) :
  match pop_blanks (reverse cells) with
  | Ok line =>
      (∃ k, cells = line ++ replicate k " ") ∧
      ∃ init x, line = init ++ [x] ∧ x ≠ " "
  | Raise e => e = IndexError ∧ Forall (λ c, c = " ") cells
  end.
Proof.
  induction cells as [|c cells IH] using rev_ind; [done|].
  rewrite reverse_snoc. cbn [pop_blanks].
  destruct (decide (c = " ")) as [->|Hc].
  - destruct (pop_blanks (reverse cells)) as [line|e].
    + destruct IH as [[k ->] Hlast]. split; [|done].
      exists (S k). rewrite <- app_assoc. f_equal.
      change [" "] with (replicate 1 " "). rewrite <- replicate_add.
      f_equal. lia.
    + destruct IH as [-> Hall]. split; [done|].
      apply Forall_app. by split; [|repeat constructor].
  - rewrite <- reverse_snoc, reverse_involutive. split.
    + exists 0. by rewrite app_nil_r.
    + by exists cells, c.
Qed.

Lemma mapM_Raise_inv {X Y} (f : X → result Y) (l : list X) (e : exn) :
  mapM f l = Raise e → ∃ x, x ∈ l ∧ f x = Raise e.
Proof.
  induction l as [|x l IH]; [done|]. csimpl.
  destruct (f x) as [y|e'] eqn:Hx; csimpl.
  - destruct (mapM f l) as [ys|e'] eqn:Hl; csimpl; [done|].
    intros [= ->]. destruct IH as (x' & Hin & Hx'); [done|].
    exists x'. split; [by right|done].
  - intros [= ->]. exists x. split; [by left|done].
Qed.

(** A cell fails only as a text of the column [Ra] or [Dec]. *)
Lemma cell_str_raises (spdef : list F) (meta : gmap string (value F))
    (colKey colName : string) (is_str : bool) (d : value F) (e : exn) :
  cell_str spdef meta colKey colName is_str d = Raise e →
  e = ValueError ∧ (colKey = "Ra" ∨ colKey = "Dec") ∧
  ((∃ s, d = VStr s) ∨ is_str = true).
Proof.
  assert (∀ s, text_str colKey s = Raise e →
               e = ValueError ∧ (colKey = "Ra" ∨ colKey = "Dec")) as Htext.
  { intros s. unfold text_str. repeat case_decide; [| |done].
    - destruct (fangle s); [done|]. intros [= <-]. split; [done|by left].
    - destruct (fangle s); [done|]. intros [= <-]. split; [done|by right]. }
  destruct d as [|s|n|x|dl|ra dec]; cbn [cell_str].
  - destruct is_str; [|done]. intros [? ?]%Htext. split; [done|]. split; [done|by right].
  - intros [? ?]%Htext. split; [done|]. split; [done|]. left. by exists s.
  - by repeat case_decide.
  - destruct (feqb x (fofZ (-9999))); [done|]. by repeat case_decide.
  - by destruct (existsb _ dl).
  - done.
Qed.

(** The cells of a row fail only in a column [Ra] or [Dec] that holds
    text. *)
Lemma row_cells_raises (spdef : list F) (t : table F) (i : nat) (e : exn) :
  row_cells spdef t i = Raise e →
  e = ValueError ∧
  ∃ c, c ∈ t_columns t ∧ (c.1 = "Ra" ∨ c.1 = "Dec") ∧ is_str_column c = true.
Proof.
  unfold row_cells. intros ([c colName] & Hin & Hcell)%mapM_Raise_inv.
  cbn [fst snd] in Hcell.
  apply cell_str_raises in Hcell as (-> & Hkey & Hstr). split; [done|].
  exists c. split.
  { unfold known_columns in Hin. apply list_elem_of_omap in Hin as (c' & Hc' & Hsome).
    destruct (allowedColumnNames !! lower c'.1); [|done].
    by injection Hsome as -> _. }
  split; [done|].
  destruct Hstr as [[s Hs]|Hstr]; [|done].
  unfold is_str_column. apply orb_true_iff. right.
  apply existsb_exists. exists (VStr s). split; [|done].
  apply list_elem_of_In. rewrite list_lookup_total_alt in Hs.
  destruct (c.2 !! i) as [v|] eqn:Hi; [|done]. simpl in Hs. subst v.
  by eapply list_elem_of_lookup_2.
Qed.

(** X10.  [rowStr] writes the cells of the row without the blank cells at
    its end: the line it returns does not end with a blank cell, and the
    cells it leaves out are all blank.  When every cell of the row is
    blank, and when the table has no column that the format knows, it
    raises [IndexError]; it raises [ValueError] only for a table whose
    column [Ra] or [Dec] is one of text, in which Astropy finds no angle;
    it raises nothing else. *)
Theorem rowStr_drops_trailing_blanks (spdef : list F) (t : table F) (i : nat) :
  match rowStr spdef t i with
  | Ok line =>
      (∃ k, row_cells spdef t i = Ok (line ++ replicate k " ")) ∧
      ∃ init x, line = init ++ [x] ∧ x ≠ " "
  | Raise e =>
      (e = IndexError ∧
       ∃ cells, row_cells spdef t i = Ok cells ∧ Forall (λ c, c = " ") cells) ∨
      (e = ValueError ∧
       ∃ c, c ∈ t_columns t ∧ (c.1 = "Ra" ∨ c.1 = "Dec") ∧ is_str_column c = true)
  end.
Proof.
  unfold rowStr. destruct (row_cells spdef t i) as [cells|e] eqn:Hcells; csimpl.
  - pose proof (pop_blanks_spec cells) as Hpop.
    destruct (pop_blanks (reverse cells)) as [line|e].
    + destruct Hpop as [[k ->] Hlast]. split; [by exists k|done].
    + destruct Hpop as [-> Hall]. left. split; [done|]. by exists cells.
  - right. by apply (row_cells_raises spdef t i).
Qed.

End RowStrFacts.

(** ** The writer: what it writes is identified *)

Section WrittenFacts.
Context `{PyFloat F}.
Import Py PyFacts StrFacts.

Lemma readlines_first (p s : string) :
  p ≠ "" → contains_char "010" p = false →
  ∃ l ls, readlines (p +:+ s) = (p +:+ l) :: ls.
Proof.
  induction p as [|c p IH]; [done|]. intros _ Hp. simpl in Hp.
  destruct (decide (c = "010"%char)) as [|Hc]; [done|].
  rewrite sapp_cons. cbn [readlines]. rewrite decide_False by done.
  destruct (decide (p = "")) as [->|Hne].
  - change ("" +:+ s) with s. destruct (readlines s) as [|l ls].
    + by exists "", [].
    + by exists l, ls.
  - destruct (IH Hne Hp) as (l & ls & ->). by exists l, ls.
Qed.

(** X11.  Every file that [skyModelWriter] writes is identified as a sky
    model by [skyModelIdentify]. *)
Theorem written_file_is_identified (spdef : list F) (t : table F) (out : list string) :
  skyModelWriter spdef t = Ok out →
  skyModelIdentify (FileName (readlines (writelines out))) = true.
Proof.
  intros Hout.
  assert (∃ body rest, out = ("FORMAT = " +:+ body) :: rest) as (body & rest & ->).
  { unfold skyModelWriter in Hout. destruct (bool_decide _).
    - destruct (group_by_Patch t) as [[t' patchNames]|]; [|done]. simpl in Hout.
      destruct (mapM _ patchNames) as [patchLines|]; [|done]. simpl in Hout.
      destruct (row_lines spdef t') as [rowLines|]; [|done]. simpl in Hout.
      injection Hout as <-. by eexists _, _.
    - destruct (row_lines spdef t) as [rowLines|]; [|done]. simpl in Hout.
      injection Hout as <-. by eexists _, _. }
  cbn [writelines foldr].
  change ("FORMAT = " +:+ body) with ("FORMAT" +:+ " = " +:+ body).
  rewrite !sapp_assoc.
  destruct (readlines_first "FORMAT" (" = " +:+ body +:+ foldr String.app "" rest))
    as (l & ls & ->); [done..|].
  cbn [skyModelIdentify existsb]. unfold startswith. by rewrite prefix_app_self.
Qed.

End WrittenFacts.

(** ** Spectral indices: the conversion of the column *)

Section ReadSpectralFacts.
Context `{PyFloat F}.
Import Py PyFacts StrFacts.

Lemma column_set_column_eq (name : string) (col old : list (value F)) (t : table F) :
  column name t = Ok old → column name (set_column name col t) = Ok col.
Proof.
  intros Hcol. unfold column in *. unfold set_column. cbn [t_columns].
  rewrite list_find_fmap.
  rewrite (list_find_ext ((λ c, c.1 = name) ∘ _) (λ c, c.1 = name)).
  2:{ intros c. unfold compose. by destruct (decide (c.1 = name)). }
  destruct (list_find (λ c, c.1 = name) (t_columns t)) as [[i c]|] eqn:Hfind; [|done].
  apply list_find_Some in Hfind as (_ & Hc & _). simpl.
  by rewrite decide_True.
Qed.

Lemma column_set_column_ne (name other : string) (col : list (value F)) (t : table F) :
  other ≠ name → column other (set_column name col t) = column other t.
Proof.
  intros Hne. unfold column, set_column. cbn [t_columns]. rewrite list_find_fmap.
  rewrite (list_find_ext ((λ c, c.1 = other) ∘ _) (λ c, c.1 = other)).
  2:{ intros c. unfold compose. destruct (decide (c.1 = name)); simpl; [|done].
      split; congruence. }
  destruct (list_find (λ c, c.1 = other) (t_columns t)) as [[i c]|] eqn:Hfind; [|done].
  apply list_find_Some in Hfind as (_ & Hc & _). simpl.
  rewrite decide_False; [done|congruence].
Qed.

Lemma keys_set_column (name : string) (col : list (value F)) (t : table F) :
  keys (set_column name col t) = keys t.
Proof.
  unfold keys, set_column. simpl. rewrite <- list_fmap_compose.
  apply list_fmap_ext. intros i c _. simpl. by destruct (decide (c.1 = name)).
Qed.

Lemma column_in_keys (name : string) (col : list (value F)) (t : table F) :
  column name t = Ok col → name ∈ keys t.
Proof.
  unfold column, keys.
  destruct (list_find (λ c, c.1 = name) (t_columns t)) as [[i c]|] eqn:Hfind; [|done].
  intros _. apply list_find_Some in Hfind as (Hi & <- & _).
  apply list_elem_of_fmap. exists c. split; [done|]. by eapply list_elem_of_lookup_2.
Qed.

(** X12.  The conversion of the [SpectralIndex] column does not fail.  On
    a table whose column is typed as NumPy types it, [np.array] gets rows
    of one length, and the result is the table with the converted column
    in the place of the old one, the other columns being as they were. *)
Theorem read_spectral_succeeds (t : table F) (specOld : list (value F)) :
  column "SpectralIndex" t = Ok specOld →
  float_column specOld = true ∨ no_float specOld = true →
  ∃ t',
    read_spectral t = Ok (t', Some (spectral_maxLen specOld)) ∧
    keys t' = keys t ∧
    column "SpectralIndex" t'
    = Ok (VList <$> (spectral_row (spectral_maxLen specOld) <$> specOld)) ∧
    ∀ name, name ≠ "SpectralIndex" → column name t' = column name t.
Proof.
  intros Hcol Htyped.
  set (maxLen := spectral_maxLen specOld).
  set (specVec := spectral_row maxLen <$> specOld).
  assert (maxLen = max_list (length ∘ observed <$> specOld)) as Hmax.
  { unfold maxLen, spectral_maxLen. destruct Htyped as [Hc|Hc].
    - rewrite maxLen_float_column by (done || lia). lia.
    - rewrite maxLen_no_float by done. lia. }
  assert (Forall (λ row, length row = maxLen) specVec) as Hlen.
  { apply Forall_fmap, Forall_forall. intros v Hv. simpl.
    rewrite spectral_row_observed, zero_pad_length.
    assert (length (observed v) ≤ maxLen); [|lia].
    rewrite Hmax. apply max_list_elem_of_le, list_elem_of_fmap. by exists v. }
  assert (np_array specVec = Ok specVec) as Hnp.
  { unfold np_array. destruct specVec as [|r rs] eqn:Hvec; [done|].
    rewrite (proj2 (forallb_forall _ _)); [done|].
    intros r' Hr'%list_elem_of_In. apply Nat.eqb_eq.
    rewrite Forall_forall in Hlen. rewrite (Hlen r'), (Hlen r); [done| |done].
    apply elem_of_cons. by left. }
  exists (set_column "SpectralIndex" (VList <$> specVec) t).
  split; [|split; [|split]].
  - unfold read_spectral.
    rewrite bool_decide_eq_true_2 by by eapply column_in_keys.
    rewrite Hcol. simpl. fold maxLen specVec. by rewrite Hnp.
  - apply keys_set_column.
  - by eapply column_set_column_eq.
  - intros name Hname. by apply column_set_column_ne.
Qed.

(** A column of integers comes out with no coefficient: the loader reads
    floats and strings only, and gives every row the empty list. *)
Lemma read_spectral_integers (t : table F) (ns : list Z) :
  column "SpectralIndex" t = Ok (VInt <$> ns) →
  read_spectral t
  = Ok (set_column "SpectralIndex" ((λ _, VList []) <$> ns) t, Some 0).
Proof.
  intros Hcol. unfold read_spectral.
  rewrite bool_decide_eq_true_2 by by eapply column_in_keys.
  rewrite Hcol. cbn [mbind result_bind].
  assert (∀ m, foldl maxLen_step m (VInt <$> ns) = m) as Hmax.
  { clear Hcol. induction ns as [|n ns IH]; intros m; [done|]. csimpl. apply IH. }
  unfold convert_spectral, spectral_maxLen. rewrite Hmax.
  assert (spectral_row 0 <$> (VInt <$> ns) = (λ _, []) <$> ns) as ->.
  { rewrite <- list_fmap_compose. by apply list_fmap_ext. }
  assert (np_array ((λ _ : Z, @nil F) <$> ns) = Ok ((λ _, []) <$> ns)) as ->.
  { unfold np_array. destruct ns as [|n ns]; [done|]. csimpl.
    rewrite (proj2 (forallb_forall _ _)); [done|].
    by intros r (? & -> & _)%list_elem_of_In%list_elem_of_fmap. }
  cbn [mbind result_bind]. by rewrite <- list_fmap_compose.
Qed.

End ReadSpectralFacts.

(** ** The reader and the module's default spectral index *)

Section DefaultFacts.
Context `{PyFloat F}.
Import Py PyFacts StrFacts.

Lemma column_spec_default (spdef : list F) (cn : string) (dflt : option (value F)) :
  column_spec spdef cn = Ok ("SpectralIndex", dflt, None) →
  dflt = Some (VList spdef).
Proof.
  unfold column_spec. destruct (decide _); [done|].
  destruct (allowedColumnNames !! _) as [canon|] eqn:Hk; [|done].
  intros [= -> <- Hnone]. rewrite Hnone.
  apply elem_of_list_to_map_2 in Hk.
  repeat (apply elem_of_cons in Hk as [Heq|Hk];
          [first [by simplify_eq|injection Heq as Hkey; by rewrite Hkey]|]).
  by apply elem_of_nil in Hk.
Qed.

Lemma zip_projections {X Y Z} (l : list (X * Y * Z)) :
  zip (zip l.*1.*1 l.*1.*2) l.*2 = l.
Proof. induction l as [|[[x y] z] l IH]; [done|]. simpl. f_equal. apply IH. Qed.

Lemma parse_header_defaults (spdef : list F) (line : string) (hdr : header) :
  parse_header spdef line = Ok hdr →
  Forall (λ c, c.1.1 = "SpectralIndex" → c.2 = None → c.1.2 = Some (VList spdef))
         (zip (zip (h_colNames hdr) (h_colDefaults hdr)) (h_explicit hdr)).
Proof.
  unfold parse_header.
  destruct (normalise_format line) as [fs|]; [|done]. rewrite bind_Ok.
  destruct (negb _); [done|].
  destruct (fix_colNames _) as [colNames|]; [|done]. rewrite bind_Ok.
  destruct (of_option _ _) as [first|]; [|done]. rewrite bind_Ok.
  destruct (mapM _ _) as [specs|] eqn:Hspecs; [|done]. rewrite bind_Ok.
  intros [= <-]. cbn [h_colNames h_colDefaults h_explicit].
  rewrite zip_projections.
  apply mapM_Ok in Hspecs. clear -Hspecs.
  induction Hspecs as [|cn [[canon dflt] e] l specs Hcn _ IH]; constructor; [|done].
  simpl. intros -> ->. by eapply column_spec_default.
Qed.

Lemma pad_spectral_default_extends (hdr : header) (masked : bool) (maxLen : option nat)
    (meta meta' : gmap string (value F)) (spdef spdef' : list F) :
  Forall (λ c, c.1.1 = "SpectralIndex" → c.2 = None → c.1.2 = Some (VList spdef))
         (zip (zip (h_colNames hdr) (h_colDefaults hdr)) (h_explicit hdr)) →
  pad_spectral_default hdr masked maxLen meta spdef = Ok (meta', spdef') →
  ∃ k, spdef' = spdef ++ replicate k fzero.
Proof.
  intros Hall. unfold pad_spectral_default.
  assert (∃ k, spdef = spdef ++ replicate k fzero) as Hsame
    by (exists 0; by rewrite app_nil_r).
  destruct (list_find _ _) as [[i [[name dflt] e]]|] eqn:Hfind;
    [|by intros [= _ <-]].
  apply list_find_Some in Hfind as (Hi & Hname & _). simpl in Hname.
  rewrite Forall_lookup in Hall. specialize (Hall _ _ Hi Hname). simpl in Hall.
  destruct dflt as [colDefault|]; [|by intros [= _ <-]].
  destruct masked; [|by intros [= _ <-]].
  destruct colDefault as [| | | |l|]; try done.
  destruct maxLen as [n|]; [|done].
  destruct e as [v|]; [by intros [= _ <-]|].
  intros [= _ <-]. specialize (Hall eq_refl). injection Hall as ->.
  by eexists.
Qed.

(** X19.  Reading a file never shortens or rewrites the default spectral
    index of the module, the list [allowedColumnDefaults['spectralindex']]:
    after the call the list is what it was before, followed by zeros. *)
Theorem reader_extends_module_default (spdef spdef' : list F) (lines : list string)
    (t : table F) :
  skyModelReader spdef lines = Ok (t, spdef') →
  ∃ k, spdef' = spdef ++ replicate k fzero.
Proof.
  unfold skyModelReader.
  destruct (find_format_line lines) as [formatString|]; [|done]. rewrite bind_Ok.
  destruct (parse_header spdef formatString) as [hdr|] eqn:Hhdr; [|done].
  rewrite bind_Ok.
  destruct (read_lines _ _ lines) as [st|]; [|done]. rewrite bind_Ok.
  destruct (index "Name" _); [|done]. rewrite bind_Ok.
  destruct (index "Type" _); [|done]. rewrite bind_Ok.
  destruct (ascii_read _ _) as [[cols masked]|]; [|done]. rewrite bind_Ok.
  destruct (read_spectral _) as [[t1 maxLen]|]; [|done]. rewrite bind_Ok.
  destruct (column "Ra" t1); [|done]. rewrite bind_Ok.
  destruct (RA2Angle _); [|done]. rewrite bind_Ok.
  destruct (column "Dec" _); [|done]. rewrite bind_Ok.
  destruct (Dec2Angle _); [|done]. rewrite bind_Ok.
  destruct (pad_spectral_default _ _ _ _ _) as [[meta sp]|] eqn:Hpad; [|done].
  rewrite bind_Ok. intros [= _ <-].
  eapply pad_spectral_default_extends; [|done].
  by eapply parse_header_defaults.
Qed.

End DefaultFacts.

(** ** The merge: which sources it keeps *)

Section MergeFacts.
Context `{PyFloat F} {A : Type}.
Variable separation : F * F → F * F → Q.
Variable iter_set : list string → list string.
Variable nameWidth : nat.

(** Each row of the stacked table comes from one source, has the name of
    the source, and gets the spectral index that its name selects. *)
Lemma add_spectral_rows (LSM1 LSM2 : list (source F A)) (stacked : list (source F A * option nat))
    (rows : list (merged F A)) :
  add_spectral LSM1 LSM2 stacked = Ok rows →
  Forall2 (λ p r, row_src r = p.1 ∧ row_Name r = src_Name p.1 ∧ row_match r = p.2 ∧
                  spData_row LSM1 LSM2 (src_Name p.1) = Ok (row_SpectralIndex r))
          stacked rows.
Proof.
  intros Hrows%mapM_Ok. eapply Forall2_impl; [done|].
  intros [s m] r. simpl. destruct (spData_row LSM1 LSM2 (src_Name s)); [|done].
  simpl. by intros [= <-].
Qed.

Lemma stack_sources (mode : match_mode) (radius : Q) (LSM1 LSM2 : list (source F A))
    (stacked : list (source F A * option nat)) :
  stack separation mode radius LSM1 LSM2 = Ok stacked → stacked.*1 = LSM1 ++ LSM2.
Proof.
  unfold stack. destruct mode.
  - intros [= <-]. rewrite <- list_fmap_compose. apply list_fmap_id.
  - unfold match_columns.
    destruct (match_to_catalog_sky _ _ _) as [ms|]; [|done]. simpl.
    intros [= <-]. rewrite fmap_app, !fst_zip; [done|..].
    + by rewrite length_fmap, assign_matches_length, length_seq.
    + by rewrite length_fmap, length_seq.
Qed.

Lemma rename_rows_fields (rows : list (merged F A)) :
  Forall2 (λ r r', row_src r' = row_src r ∧ row_match r' = row_match r ∧
                   row_SpectralIndex r' = row_SpectralIndex r)
          rows (rename_rows iter_set nameWidth rows).
Proof.
  unfold rename_rows, getColValues_Name.
  pose proof (rename_duplicates_length iter_set nameWidth (row_Name <$> rows)) as Hlen.
  rewrite length_fmap in Hlen. revert Hlen.
  generalize (rename_duplicates iter_set nameWidth (row_Name <$> rows)). intros names.
  revert names. induction rows as [|r rows IH]; intros [|n names] Hlen;
    simplify_eq/=; constructor; auto.
Qed.

Lemma Forall2_fmap_eq {X Y Z} (f : X → Z) (g : Y → Z) (l : list X) (k : list Y) :
  Forall2 (λ x y, g y = f x) l k → g <$> k = f <$> l.
Proof. induction 1 as [|x y l k Hxy _ IH]; [done|]. csimpl. by rewrite Hxy, IH. Qed.

Lemma concatenate_rows (LSM1 LSM2 : list (source F A)) (matchBy : string) (radius : Q)
    (keep : string) (out : list (merged F A)) :
  concatenate separation iter_set nameWidth LSM1 LSM2 matchBy radius keep = Ok out →
  ∃ mode stacked rows kept,
    match_mode_of matchBy = Some mode ∧
    stack separation mode radius LSM1 LSM2 = Ok stacked ∧
    add_spectral LSM1 LSM2 stacked = Ok rows ∧
    resolve_conflicts mode keep rows = Ok kept ∧
    out = drop_match <$> rename_rows iter_set nameWidth kept.
Proof.
  unfold concatenate.
  destruct (match_mode_of matchBy) as [mode|]; [|done]. cbn [of_option].
  rewrite bind_Ok.
  destruct (stack _ _ _ _ _) as [stacked|] eqn:Hstack; [|done]. rewrite bind_Ok.
  destruct (add_spectral _ _ _) as [rows|] eqn:Hrows; [|done]. rewrite bind_Ok.
  destruct (resolve_conflicts _ _ _) as [kept|] eqn:Hkept; [|done]. rewrite bind_Ok.
  intros [= <-]. by exists mode, stacked, rows, kept.
Qed.

Lemma out_sources (kept : list (merged F A)) :
  row_src <$> (drop_match <$> rename_rows iter_set nameWidth kept) = row_src <$> kept.
Proof.
  rewrite <- list_fmap_compose.
  apply (Forall2_fmap_eq row_src (row_src ∘ drop_match)).
  eapply Forall2_impl; [apply rename_rows_fields|]. by intros r r' (? & _).
Qed.

(** X13.  With [keep = 'all'], and with any [keep] other than ['from1']
    and ['from2'], the merge drops no source and keeps the order: the rows
    of the result come from the sources of catalog 1 followed by those of
    catalog 2, whatever [matchBy] is, and the [match] column is gone. *)
Theorem concatenate_keeps_all (LSM1 LSM2 : list (source F A)) (matchBy : string)
    (radius : Q) (keep : string) (out : list (merged F A)) :
  keep ≠ "from1" → keep ≠ "from2" →
  concatenate separation iter_set nameWidth LSM1 LSM2 matchBy radius keep = Ok out →
  row_src <$> out = LSM1 ++ LSM2 ∧ Forall (λ r, row_match r = None) out.
Proof.
  intros H1 H2
    (mode & stacked & rows & kept & _ & Hstack & Hrows & Hkept & ->)%concatenate_rows.
  split; [|by apply Forall_fmap, Forall_true].
  rewrite out_sources. unfold resolve_conflicts in Hkept.
  rewrite bool_decide_eq_false_2 in Hkept by (by intros [?|?]).
  injection Hkept as <-.
  apply add_spectral_rows in Hrows. apply stack_sources in Hstack as <-.
  apply (Forall2_fmap_eq fst row_src). eapply Forall2_impl; [done|].
  by intros p r (? & _).
Qed.

End MergeFacts.

(** ** The merge by name *)

Section RemoveFacts.
Context {B : Type}.

Lemma remove_from_app (removed : list nat) (l1 l2 : list B) : ∀ i,
  remove_from i removed (l1 ++ l2)
  = remove_from i removed l1 ++ remove_from (i + length l1) removed l2.
Proof.
  induction l1 as [|x l1 IH]; intros i; simpl.
  - by rewrite Nat.add_0_r.
  - rewrite IH. replace (S i + length l1) with (i + S (length l1)) by lia.
    by destruct (decide (i ∈ removed)).
Qed.

(** Removing the listed rows is a filter when a property of the rows
    tells which indices are listed. *)
Lemma remove_from_filter (P : B → Prop) `{∀ x, Decision (P x)} (removed : list nat)
    (l : list B) : ∀ i,
  (∀ j x, l !! j = Some x → i + j ∈ removed ↔ ¬ P x) →
  remove_from i removed l = filter P l.
Proof.
  induction l as [|x l IH]; intros i Hl; [done|]. simpl.
  rewrite filter_cons.
  pose proof (Hl 0 x eq_refl) as Hx. rewrite Nat.add_0_r in Hx.
  rewrite IH.
  2:{ intros j y Hj. rewrite <- (Hl (S j) y Hj). by replace (S i + j) with (i + S j) by lia. }
  destruct (decide (i ∈ removed)) as [Hi|Hi]; destruct (decide (P x)) as [Hp|Hp];
    try done.
  - by apply Hx in Hi.
  - by apply Hx in Hp.
Qed.

Lemma remove_from_fmap {C} (f : B → C) (removed : list nat) (l : list B) : ∀ i,
  remove_from i removed (f <$> l) = f <$> remove_from i removed l.
Proof.
  induction l as [|x l IH]; intros i; [done|]. csimpl.
  rewrite IH. by destruct (decide (i ∈ removed)).
Qed.

Lemma filter_all (l : list B) : filter (λ _, True) l = l.
Proof. induction l as [|x l IH]; [done|]. rewrite filter_cons_True by done. by f_equal. Qed.

End RemoveFacts.

Section KeepOneFacts.
Context {B K : Type} `{EqDecision K}.
Variable key : B → K.

Lemma lookup_keys_app_l (l1 l2 : list B) (j : nat) (x : B) :
  l1 !! j = Some x → (key <$> l1 ++ l2) !! j = Some (key x).
Proof.
  intros Hj. rewrite list_lookup_fmap, lookup_app_l by by eapply lookup_lt_Some.
  by rewrite Hj.
Qed.

Lemma lookup_keys_app_r (l1 l2 : list B) (j : nat) (x : B) :
  l2 !! j = Some x → (key <$> l1 ++ l2) !! (length l1 + j) = Some (key x).
Proof.
  intros Hj. rewrite list_lookup_fmap, lookup_app_r by lia.
  replace (length l1 + j - length l1) with j by lia. by rewrite Hj.
Qed.

Lemma lookup_keys_inv (l1 l2 : list B) (j : nat) (v : K) :
  (key <$> l1 ++ l2) !! j = Some v →
  (j < length l1 ∧ (key <$> l1) !! j = Some v) ∨
  (length l1 ≤ j ∧ (key <$> l2) !! (j - length l1) = Some v).
Proof.
  rewrite fmap_app. intros Hj. destruct (decide (j < length l1)).
  - left. split; [done|]. by rewrite lookup_app_l in Hj by by rewrite length_fmap.
  - right. split; [lia|].
    rewrite lookup_app_r in Hj by (rewrite length_fmap; lia).
    by rewrite length_fmap in Hj.
Qed.

(** With [keep = 'from1'], of two lists of rows that each have distinct
    keys, the first one stays and the second loses the rows whose key is
    in the first. *)
Lemma remove_from1_app (l1 l2 : list B) :
  NoDup (key <$> l1) → NoDup (key <$> l2) →
  remove_rows (toRemove "from1" (key <$> l1 ++ l2)) (l1 ++ l2)
  = Ok (l1 ++ filter (λ x, key x ∉ key <$> l1) l2).
Proof.
  intros Hnd1 Hnd2. unfold remove_rows. rewrite index_array_pairs.
  2:{ intros val. rewrite fmap_app. by apply where_eq_stacked. }
  cbn [mbind result_bind]. f_equal. rewrite remove_from_app. f_equal.
  - rewrite (remove_from_filter (λ _, True)); [apply filter_all|].
    intros j x Hj. split; [|tauto]. intros Hin. apply toRemove_from1 in Hin.
    destruct Hin as (j' & v & Hlt & Hj' & Hv).
    rewrite (lookup_keys_app_l _ _ _ _ Hj) in Hv. simplify_eq/=.
    apply lookup_keys_inv in Hj' as [[_ Hj']|[Hge _]];
      [|apply lookup_lt_Some in Hj; lia].
    assert ((key <$> l1) !! j = Some (key x)) as Hjx
      by by rewrite list_lookup_fmap, Hj.
    pose proof (NoDup_lookup _ _ _ _ Hnd1 Hj' Hjx). lia.
  - apply remove_from_filter. intros j x Hj. simpl.
    rewrite toRemove_from1. split.
    + intros (j' & v & Hlt & Hj' & Hv) Hnot.
      rewrite (lookup_keys_app_r _ _ _ _ Hj) in Hv. simplify_eq/=.
      apply lookup_keys_inv in Hj' as [[_ Hj']|[Hge Hj']].
      * apply Hnot. by eapply list_elem_of_lookup_2.
      * assert ((key <$> l2) !! j = Some (key x)) as Hjx
          by by rewrite list_lookup_fmap, Hj.
        pose proof (NoDup_lookup _ _ _ _ Hnd2 Hj' Hjx). lia.
    + intros Hin. apply dec_stable in Hin.
      apply list_elem_of_lookup_1 in Hin as [j' Hj'].
      exists j', (key x). split; [|split].
      * apply lookup_lt_Some in Hj'. rewrite length_fmap in Hj'. lia.
      * rewrite fmap_app, lookup_app_l; [done|]. by eapply lookup_lt_Some.
      * by apply lookup_keys_app_r.
Qed.

(** With [keep = 'from2'], the first list loses the rows whose key is in
    the second, which stays. *)
Lemma remove_from2_app (l1 l2 : list B) :
  NoDup (key <$> l1) → NoDup (key <$> l2) →
  remove_rows (toRemove "from2" (key <$> l1 ++ l2)) (l1 ++ l2)
  = Ok (filter (λ x, key x ∉ key <$> l2) l1 ++ l2).
Proof.
  intros Hnd1 Hnd2. unfold remove_rows. rewrite index_array_numbers by done.
  cbn [mbind result_bind]. f_equal. rewrite remove_from_app. f_equal.
  - apply remove_from_filter. intros j x Hj. simpl.
    assert ((key <$> l1) !! j = Some (key x)) as Hjx
      by by rewrite list_lookup_fmap, Hj.
    rewrite toRemove_from2. split.
    + intros (v & Hv & _ & j' & Hlt & Hj') Hnot.
      rewrite (lookup_keys_app_l _ _ _ _ Hj) in Hv. simplify_eq/=.
      apply lookup_keys_inv in Hj' as [[_ Hj']|[Hge Hj']].
      * pose proof (NoDup_lookup _ _ _ _ Hnd1 Hj' Hjx). lia.
      * apply Hnot. by eapply list_elem_of_lookup_2.
    + intros Hin. apply dec_stable in Hin.
      apply list_elem_of_lookup_1 in Hin as [j' Hj'].
      exists (key x). split; [by apply lookup_keys_app_l|]. split.
      * intros j'' Hlt Hj''.
        apply lookup_keys_inv in Hj'' as [[_ Hj'']|[Hge _]];
          [|apply lookup_lt_Some in Hj; lia].
        pose proof (NoDup_lookup _ _ _ _ Hnd1 Hj'' Hjx). lia.
      * exists (length l1 + j'). split; [apply lookup_lt_Some in Hj; lia|].
        rewrite fmap_app, lookup_app_r by (rewrite length_fmap; lia).
        rewrite length_fmap. by replace (length l1 + j' - length l1) with j' by lia.
  - rewrite (remove_from_filter (λ _, True)); [apply filter_all|].
    intros j x Hj. split; [|tauto]. intros Hin. apply toRemove_from2 in Hin.
    destruct Hin as (v & Hv & _ & j' & Hlt & Hj'). simpl in Hv, Hlt.
    rewrite (lookup_keys_app_r _ _ _ _ Hj) in Hv. simplify_eq/=.
    apply lookup_keys_inv in Hj' as [[Hlt' _]|[Hge Hj']]; [lia|].
    assert ((key <$> l2) !! j = Some (key x)) as Hjx
      by by rewrite list_lookup_fmap, Hj.
    pose proof (NoDup_lookup _ _ _ _ Hnd2 Hj' Hjx). lia.
Qed.

End KeepOneFacts.

Section MergeByName.
Context `{PyFloat F} {A : Type}.
Variable separation : F * F → F * F → Q.
Variable iter_set : list string → list string.
Variable nameWidth : nat.

(** The row that the stacked table has for a source when the merge is by
    name. *)
Let mkrow (LSM1 LSM2 : list (source F A)) (s : source F A) : merged F A :=
  {| row_src := s; row_Name := src_Name s; row_match := None;
     row_SpectralIndex := match spData_row LSM1 LSM2 (src_Name s) with
                          | Ok sp => sp
                          | Raise _ => []
                          end |}.

Lemma by_name_rows (LSM1 LSM2 : list (source F A)) (radius : Q)
    (stacked : list (source F A * option nat)) (rows : list (merged F A)) :
  stack separation ByName radius LSM1 LSM2 = Ok stacked →
  add_spectral LSM1 LSM2 stacked = Ok rows →
  rows = mkrow LSM1 LSM2 <$> LSM1 ++ LSM2.
Proof.
  intros [= <-]. unfold add_spectral. generalize (LSM1 ++ LSM2) as l.
  intros l. revert rows. induction l as [|s l IH]; intros rows.
  - by intros [= <-].
  - csimpl. destruct (spData_row LSM1 LSM2 (src_Name s)) as [sp|] eqn:Hsp; [|done].
    rewrite bind_Ok.
    destruct (mapM _ _) as [rows'|] eqn:Hrows'; [|done]. rewrite bind_Ok.
    intros [= <-]. rewrite <- (IH rows') by done.
    unfold mkrow. by rewrite Hsp.
Qed.

Lemma rename_one_NoDup (names current : list string) (name : string) :
  NoDup names → rename_one nameWidth names current name = current.
Proof.
  intros Hnd. unfold rename_one.
  destruct (where_eq names name) as [|i0 [|i1 rest]] eqn:Hw; [done..|].
  apply where_eq_cons in Hw as (H0 & _ & Hrest).
  destruct (Hrest i1) as [[Hlt H1] _]; [by left|].
  pose proof (NoDup_lookup _ _ _ _ Hnd H0 H1). lia.
Qed.

Lemma rename_duplicates_NoDup (names : list string) :
  NoDup names → rename_duplicates iter_set nameWidth names = names.
Proof.
  intros Hnd. unfold rename_duplicates.
  induction (iter_set names) as [|n order IH]; [done|].
  simpl. by rewrite rename_one_NoDup.
Qed.

Lemma rename_rows_NoDup (rows : list (merged F A)) :
  NoDup (row_Name <$> rows) → rename_rows iter_set nameWidth rows = rows.
Proof.
  intros Hnd. unfold rename_rows, getColValues_Name.
  rewrite rename_duplicates_NoDup by done. clear Hnd.
  induction rows as [|[] rows IH]; [done|]. csimpl. by rewrite IH.
Qed.

Lemma filter_fmap {X Y} (f : X → Y) (P : Y → Prop) `{∀ y, Decision (P y)}
    (l : list X) :
  filter P (f <$> l) = f <$> filter (P ∘ f) l.
Proof.
  induction l as [|x l IH]; [done|]. csimpl. rewrite !filter_cons, IH. simpl.
  by destruct (decide (P (f x))).
Qed.

(** X14.  The merge by name of two catalogs that each have distinct
    names, with [keep = 'from1'] or [keep = 'from2'].  With ['from1'] the
    result has the sources of catalog 1 followed by the sources of catalog
    2 whose name is not in catalog 1; with ['from2'] it has the sources of
    catalog 1 whose name is not in catalog 2 followed by the sources of
    catalog 2.  Every row keeps the name of its source: the names of the
    result are distinct and the rename pass changes none. *)
Theorem concatenate_by_name_keeps_one (LSM1 LSM2 : list (source F A))
    (matchBy : string) (radius : Q) (keep : string) (out : list (merged F A)) :
  match_mode_of matchBy = Some ByName →
  NoDup (src_Name <$> LSM1) → NoDup (src_Name <$> LSM2) →
  keep = "from1" ∨ keep = "from2" →
  concatenate separation iter_set nameWidth LSM1 LSM2 matchBy radius keep = Ok out →
  row_src <$> out
  = (if decide (keep = "from1")
     then LSM1 ++ filter (λ s, src_Name s ∉ src_Name <$> LSM1) LSM2
     else filter (λ s, src_Name s ∉ src_Name <$> LSM2) LSM1 ++ LSM2)
  ∧ row_Name <$> out = src_Name <$> (row_src <$> out)
  ∧ NoDup (row_Name <$> out).
Proof.
  intros Hmode Hnd1 Hnd2 Hkeep
    (mode & stacked & rows & kept0 & Hmode' & Hstack & Hrows & Hkept0 & ->)%concatenate_rows.
  rewrite Hmode in Hmode'. injection Hmode' as <-.
  rewrite (by_name_rows _ _ _ _ _ Hstack Hrows) in Hkept0. clear Hstack Hrows.
  set (mk := mkrow LSM1 LSM2) in *.
  set (kept := if decide (keep = "from1")
               then LSM1 ++ filter (λ s, src_Name s ∉ src_Name <$> LSM1) LSM2
               else filter (λ s, src_Name s ∉ src_Name <$> LSM2) LSM1 ++ LSM2).
  assert (∀ l : list (source F A),
            duplicate_key ByName <$> (mk <$> l) = inl ∘ src_Name <$> l) as Hkeys.
  { intros l. rewrite <- list_fmap_compose. done. }
  assert (∀ l : list (source F A), NoDup (src_Name <$> l) →
               NoDup (duplicate_key ByName <$> (mk <$> l))) as Hndk.
  { intros l Hl. rewrite Hkeys, list_fmap_compose. by apply (NoDup_fmap_2 inl). }
  assert (∀ (l : list (source F A)) (s : source F A),
            duplicate_key ByName (mk s) ∉ duplicate_key ByName <$> (mk <$> l)
            ↔ src_Name s ∉ src_Name <$> l) as Hin.
  { intros l s. rewrite Hkeys, list_fmap_compose.
    change (duplicate_key ByName (mk s)) with (inl (B:=option nat) (src_Name s)).
    by rewrite (list_elem_of_fmap_inj inl). }
  assert (resolve_conflicts ByName keep (mk <$> LSM1 ++ LSM2) = Ok (mk <$> kept)) as Hres.
  { unfold resolve_conflicts. rewrite bool_decide_eq_true_2 by done.
    rewrite fmap_app. rewrite (fmap_app (duplicate_key ByName)). unfold kept.
    destruct Hkeep as [-> | ->].
    - rewrite decide_True by done.
      rewrite <- fmap_app.
      rewrite (remove_from1_app (duplicate_key ByName)) by by apply Hndk.
      f_equal. rewrite fmap_app, filter_fmap. f_equal. f_equal.
      apply list_filter_iff. intros s. apply Hin.
    - rewrite decide_False by done.
      rewrite <- fmap_app.
      rewrite (remove_from2_app (duplicate_key ByName)) by by apply Hndk.
      f_equal. rewrite fmap_app, filter_fmap. f_equal. f_equal.
      apply list_filter_iff. intros s. apply Hin. }
  assert (NoDup (src_Name <$> kept)) as Hndkept.
  { unfold kept. destruct (decide (keep = "from1")) as [?|?]; rewrite fmap_app, NoDup_app.
    - split; [done|]. split;
        [|eapply sublist_NoDup; [exact Hnd2|]; apply fmap_sublist, sublist_filter].
      intros x Hx (s & -> & Hs)%list_elem_of_fmap.
      by apply list_elem_of_filter in Hs as [Hs _].
    - split;
        [eapply sublist_NoDup; [exact Hnd1|]; apply fmap_sublist, sublist_filter|].
      split; [|done].
      intros x (s & -> & Hs)%list_elem_of_fmap.
      by apply list_elem_of_filter in Hs as [Hs _]. }
  rewrite Hres in Hkept0. injection Hkept0 as <-. rewrite rename_rows_NoDup.
  2:{ rewrite <- list_fmap_compose. done. }
  assert (row_src <$> (drop_match <$> (mk <$> kept)) = kept) as ->.
  { clear. induction kept as [|s l IH]; [done|]. csimpl. by rewrite IH. }
  assert (row_Name <$> (drop_match <$> (mk <$> kept)) = src_Name <$> kept) as ->.
  { clear. induction kept as [|s l IH]; [done|]. csimpl. by rewrite IH. }
  done.
Qed.

End MergeByName.

(** ** The merge: the keys of the stacked rows *)

Section StackedRows.
Context `{PyFloat F} {A : Type}.
Variable separation : F * F → F * F → Q.

Lemma remove_from_sublist {B} (removed : list nat) (l : list B) (i : nat) :
  remove_from i removed l `sublist_of` l.
Proof.
  revert i. induction l as [|x l IH]; intros i; [done|]. simpl.
  destruct (decide (i ∈ removed)); [by apply sublist_cons|by apply sublist_skip].
Qed.

Lemma match_columns_NoDup (radius : Q) (LSM1 LSM2 : list (source F A))
    (matchCol1 matchCol2 : list nat) :
  match_columns separation radius LSM1 LSM2 = Ok (matchCol1, matchCol2) →
  matchCol1 = seq 0 (length LSM1) ∧ length matchCol2 = length LSM2 ∧ NoDup matchCol2.
Proof.
  unfold match_columns.
  destruct (match_to_catalog_sky _ _ _) as [ms|] eqn:Hms; [|done]. simpl.
  intros [= <- <-]. split; [done|].
  split; [by rewrite assign_matches_length, length_seq|].
  apply NoDup_alt. intros j j' v Hv Hv'.
  assert (∀ j v, assign_matches radius (seq (length LSM1) (length LSM2)) 0 ms !! j
                 = Some v →
                 v = length LSM1 + j ∨ (v < length ms ∧ ∃ d, ms !! v = Some (j, d)))
    as Horigin.
  { apply (assign_matches_origin radius (length LSM1) ms ms); [done|].
    intros k w Hw. left. by apply lookup_seq in Hw as [-> _]. }
  assert (length ms = length LSM1) as Hlen.
  { unfold match_to_catalog_sky in Hms. destruct (position <$> LSM2); [done|].
    apply mapM_Ok, Forall2_length in Hms. by rewrite length_fmap in Hms. }
  destruct (Horigin _ _ Hv) as [->|(Hlt & d & Hd)],
           (Horigin _ _ Hv') as [Heq|(Hlt' & d' & Hd')]; try lia.
  congruence.
Qed.

(** The rows of a merge by position: those of catalog 1 and those of
    catalog 2, and no two rows of one catalog have the same match id. *)
Lemma by_position_rows (radius : Q) (LSM1 LSM2 : list (source F A))
    (stacked : list (source F A * option nat)) (rows : list (merged F A)) :
  stack separation ByPosition radius LSM1 LSM2 = Ok stacked →
  add_spectral LSM1 LSM2 stacked = Ok rows →
  ∃ rows1 rows2,
    rows = rows1 ++ rows2 ∧
    row_src <$> rows1 = LSM1 ∧ row_src <$> rows2 = LSM2 ∧
    NoDup (duplicate_key ByPosition <$> rows1) ∧
    NoDup (duplicate_key ByPosition <$> rows2).
Proof.
  intros Hstack Hrows. unfold stack in Hstack.
  destruct (match_columns _ _ _ _) as [[matchCol1 matchCol2]|] eqn:Hcols; [|done].
  simpl in Hstack. injection Hstack as <-.
  apply match_columns_NoDup in Hcols as (-> & Hlen2 & Hnd2).
  apply add_spectral_rows, Forall2_app_inv_l in Hrows
    as (rows1 & rows2 & Hrows1 & Hrows2 & ->).
  assert (∀ (l : list (source F A)) (ids : list nat) (rs : list (merged F A)),
            length l = length ids →
            Forall2 (λ p r, row_src r = p.1 ∧ row_Name r = src_Name p.1 ∧
                            row_match r = p.2 ∧
                            spData_row LSM1 LSM2 (src_Name p.1)
                            = Ok (row_SpectralIndex r))
                    (zip l (Some <$> ids)) rs →
            row_src <$> rs = l ∧ row_match <$> rs = Some <$> ids) as Hpart.
  { intros l ids rs Hlen Hrs. split.
    - trans (zip l (Some <$> ids)).*1; [|apply fst_zip; rewrite length_fmap; lia].
      apply (Forall2_fmap_eq fst row_src). eapply Forall2_impl; [done|].
      by intros p r (? & _).
    - trans (zip l (Some <$> ids)).*2; [|apply snd_zip; rewrite length_fmap; lia].
      apply (Forall2_fmap_eq snd row_match). eapply Forall2_impl; [done|].
      by intros p r (_ & _ & ? & _). }
  destruct (Hpart LSM1 (seq 0 (length LSM1)) rows1) as [Hsrc1 Hid1];
    [by rewrite length_seq|done|].
  destruct (Hpart LSM2 matchCol2 rows2) as [Hsrc2 Hid2]; [done..|].
  exists rows1, rows2. split; [done|]. split; [done|]. split; [done|]. split.
  - change (duplicate_key ByPosition) with (inr (A:=string) ∘ @row_match F A).
    rewrite list_fmap_compose, Hid1.
    apply (NoDup_fmap_2 inr), (NoDup_fmap_2 Some), NoDup_seq.
  - change (duplicate_key ByPosition) with (inr (A:=string) ∘ @row_match F A).
    rewrite list_fmap_compose, Hid2.
    by apply (NoDup_fmap_2 inr), (NoDup_fmap_2 Some).
Qed.

(** The keys of the stacked rows are those of catalog 1 followed by those
    of catalog 2; by position no key is twice in one catalog, and by name
    none is when the names of each catalog are distinct. *)
Lemma stacked_keys (mode : match_mode) (radius : Q) (LSM1 LSM2 : list (source F A))
    (stacked : list (source F A * option nat)) (rows : list (merged F A)) :
  stack separation mode radius LSM1 LSM2 = Ok stacked →
  add_spectral LSM1 LSM2 stacked = Ok rows →
  (mode = ByName → NoDup (src_Name <$> LSM1) ∧ NoDup (src_Name <$> LSM2)) →
  ∃ k1 k2, duplicate_key mode <$> rows = k1 ++ k2 ∧ NoDup k1 ∧ NoDup k2.
Proof.
  intros Hstack Hrows Hnames. destruct mode.
  - destruct Hnames as [Hnd1 Hnd2]; [done|].
    exists (inl <$> (src_Name <$> LSM1)), (inl <$> (src_Name <$> LSM2)).
    split; [|split; by apply (NoDup_fmap_2 inl)].
    rewrite <- fmap_app, <- fmap_app, <- (stack_sources _ _ _ _ _ _ Hstack).
    rewrite <- !list_fmap_compose.
    apply (Forall2_fmap_eq (inl ∘ src_Name ∘ fst) (duplicate_key ByName)).
    apply add_spectral_rows in Hrows. eapply Forall2_impl; [done|].
    intros p r (_ & Hname & _). simpl. by rewrite Hname.
  - destruct (by_position_rows _ _ _ _ _ Hstack Hrows)
      as (rows1 & rows2 & -> & _ & _ & Hk1 & Hk2).
    eexists _, _. split; [apply fmap_app|done].
Qed.

(** Conflict resolution succeeds on rows whose keys are those of two
    lists without repetition. *)
Lemma resolve_conflicts_pairs (mode : match_mode) (keep : string)
    (rows : list (merged F A)) (k1 k2 : list (string + option nat)) :
  duplicate_key mode <$> rows = k1 ++ k2 → NoDup k1 → NoDup k2 →
  resolve_conflicts mode keep rows
  = Ok (if bool_decide (keep = "from1" ∨ keep = "from2")
        then remove_from 0 (concat (toRemove keep (duplicate_key mode <$> rows))) rows
        else rows).
Proof.
  intros Hkeys Hk1 Hk2. unfold resolve_conflicts, remove_rows.
  destruct (bool_decide _); [|done].
  rewrite index_array_pairs; [done|].
  intros val. rewrite Hkeys. by apply where_eq_stacked.
Qed.

End StackedRows.

(** ** The merge: the spectral index of each row *)

Section MergeSpectral.
Context `{PyFloat F} {A : Type}.
Variable separation : F * F → F * F → Q.
Variable iter_set : list string → list string.
Variable nameWidth : nat.

Lemma mapM_cons_eq {X Y} (f : X → result Y) (x : X) (l : list X) :
  mapM f (x :: l) = y ← f x; k ← mapM f l; Ok (y :: k).
Proof. done. Qed.

Lemma match_to_catalog_sky_succeeds (catalog catalogcoord : list (F * F)) :
  catalogcoord ≠ [] → ∃ ms, match_to_catalog_sky separation catalog catalogcoord = Ok ms.
Proof.
  intros Hne. unfold match_to_catalog_sky. destruct catalogcoord as [|q rest]; [done|].
  induction catalog as [|p catalog [ms IH]]; [by exists []|].
  rewrite mapM_cons_eq, IH. by eexists.
Qed.

Lemma stack_succeeds (mode : match_mode) (radius : Q) (LSM1 LSM2 : list (source F A)) :
  mode = ByName ∨ LSM2 ≠ [] → ∃ stacked, stack separation mode radius LSM1 LSM2 = Ok stacked.
Proof.
  intros Hmode. destruct mode; [by eexists|]. destruct Hmode as [|Hne]; [done|].
  unfold stack, match_columns.
  destruct (match_to_catalog_sky_succeeds (position <$> LSM1) (position <$> LSM2))
    as [ms ->]; [by destruct LSM2|].
  by eexists.
Qed.

(** The spectral index that the name of a source selects, when the names
    of each catalog are distinct and every spectral index has two
    coefficients: that of the source of catalog 2 with this name, and that
    of the source itself when catalog 2 has no such source. *)
Lemma spData_row_selects (LSM1 LSM2 : list (source F A)) (s : source F A) :
  NoDup (src_Name <$> LSM1) → NoDup (src_Name <$> LSM2) →
  Forall (λ s, length (src_SpectralIndex s) = 2) (LSM1 ++ LSM2) →
  s ∈ LSM1 ++ LSM2 →
  ∃ sp, spData_row LSM1 LSM2 (src_Name s) = Ok sp ∧
        (∀ s2, s2 ∈ LSM2 → src_Name s2 = src_Name s → sp = src_SpectralIndex s2) ∧
        (src_Name s ∉ src_Name <$> LSM2 → sp = src_SpectralIndex s).
Proof.
  intros Hnd1 Hnd2 Hlen Hs. rewrite Forall_forall in Hlen.
  destruct (decide (src_Name s ∈ src_Name <$> LSM2)) as [Hin|Hnot].
  - apply list_elem_of_fmap in Hin as (s2 & Hname & Hs2).
    exists (src_SpectralIndex s2). rewrite Hname. split; [|split].
    + apply spData_row_two_coefficients; [done..| |by left].
      apply Hlen, elem_of_app. by right.
    + intros s2' Hs2' Hname'.
      assert (filter (λ s', src_Name s' = src_Name s2) LSM2 = [s2]) as Hone
        by by apply filter_unique_name.
      assert (s2' ∈ filter (λ s', src_Name s' = src_Name s2) LSM2) as Hin'
        by (apply list_elem_of_filter; split; [congruence|done]).
      rewrite Hone in Hin'. by apply list_elem_of_singleton in Hin' as ->.
    + intros Hnot. destruct Hnot. by apply list_elem_of_fmap_2.
  - assert (s ∈ LSM1) as Hs1.
    { apply elem_of_app in Hs as [?|Hs2]; [done|].
      destruct Hnot. by apply list_elem_of_fmap_2. }
    exists (src_SpectralIndex s). split; [|split].
    + apply spData_row_two_coefficients; [done..| |by right]. by apply Hlen.
    + intros s2 Hs2 Hname. destruct Hnot. rewrite <- Hname.
      by apply list_elem_of_fmap_2.
    + done.
Qed.

Lemma resolve_conflicts_subset (mode : match_mode) (keep : string)
    (rows kept : list (merged F A)) (r : merged F A) :
  resolve_conflicts mode keep rows = Ok kept → r ∈ kept → r ∈ rows.
Proof.
  unfold resolve_conflicts, remove_rows. destruct (bool_decide _); [|by intros [= <-]].
  destruct (index_array _) as [removed|]; [|done]. cbn [mbind result_bind].
  intros [= <-] (k & Hk & _)%elem_of_remove_from. by eapply list_elem_of_lookup_2.
Qed.

(** Every row of the result has the spectral index that the name of its
    source selects. *)
Lemma out_spectral (LSM1 LSM2 : list (source F A)) (matchBy : string) (radius : Q)
    (keep : string) (out : list (merged F A)) (r : merged F A) :
  concatenate separation iter_set nameWidth LSM1 LSM2 matchBy radius keep = Ok out →
  r ∈ out →
  row_src r ∈ LSM1 ++ LSM2 ∧
  spData_row LSM1 LSM2 (src_Name (row_src r)) = Ok (row_SpectralIndex r).
Proof.
  intros (mode & stacked & rows & kept & _ & Hstack & Hrows & Hkept & ->)%concatenate_rows Hr.
  apply list_elem_of_fmap in Hr as (r1 & -> & Hr1).
  pose proof (rename_rows_fields iter_set nameWidth kept) as Hren.
  apply list_elem_of_lookup_1 in Hr1 as [i Hi].
  destruct (Forall2_lookup_r _ _ _ _ _ Hren Hi) as (r0 & Hr0 & Hsrc & _ & Hsp).
  apply list_elem_of_lookup_2 in Hr0.
  apply (resolve_conflicts_subset _ _ _ _ _ Hkept) in Hr0.
  apply add_spectral_rows in Hrows.
  apply list_elem_of_lookup_1 in Hr0 as [j Hj].
  destruct (Forall2_lookup_r _ _ _ _ _ Hrows Hj) as (p & Hp & Hp1 & _ & _ & Hpsp).
  simpl. rewrite Hsrc, Hsp, Hp1. split; [|done].
  rewrite <- (stack_sources _ _ _ _ _ _ Hstack).
  apply list_elem_of_fmap_2. by eapply list_elem_of_lookup_2.
Qed.

(** X15.  When the names of each catalog are distinct and every spectral
    index has two coefficients, the merge succeeds, by name and, when
    catalog 2 is not empty, by position; and in the result the spectral
    index of a row goes by the name of its source: it is that of the source
    of catalog 2 with this name if there is one, also for a row that comes
    from catalog 1, and that of its own source otherwise. *)
Theorem concatenate_spectral_by_name (LSM1 LSM2 : list (source F A))
    (matchBy : string) (mode : match_mode) (radius : Q) (keep : string) :
  match_mode_of matchBy = Some mode →
  mode = ByName ∨ LSM2 ≠ [] →
  NoDup (src_Name <$> LSM1) → NoDup (src_Name <$> LSM2) →
  Forall (λ s, length (src_SpectralIndex s) = 2) (LSM1 ++ LSM2) →
  ∃ out,
    concatenate separation iter_set nameWidth LSM1 LSM2 matchBy radius keep = Ok out ∧
    ∀ r, r ∈ out →
      (∀ s2, s2 ∈ LSM2 → src_Name s2 = src_Name (row_src r) →
             row_SpectralIndex r = src_SpectralIndex s2) ∧
      (src_Name (row_src r) ∉ src_Name <$> LSM2 →
       row_SpectralIndex r = src_SpectralIndex (row_src r)).
Proof.
  intros Hmode Hstack Hnd1 Hnd2 Hlen.
  destruct (stack_succeeds mode radius LSM1 LSM2 Hstack) as [stacked Hst].
  assert (∃ rows, add_spectral LSM1 LSM2 stacked = Ok rows) as [rows Hrows].
  { pose proof (stack_sources _ _ _ _ _ _ Hst) as Hsrc. unfold add_spectral.
    assert (Forall (λ p : source F A * option nat, p.1 ∈ LSM1 ++ LSM2) stacked) as Hall.
    { apply Forall_forall. intros p Hp. rewrite <- Hsrc. by apply list_elem_of_fmap_2. }
    clear Hsrc Hst. induction Hall as [|[s m] l Hs _ [rows IH]]; [by exists []|].
    destruct (spData_row_selects LSM1 LSM2 s Hnd1 Hnd2 Hlen Hs) as (sp & Hsp & _).
    rewrite mapM_cons_eq. cbv beta iota. cbn [fst]. rewrite Hsp, bind_Ok, IH.
    by eexists. }
  assert (∃ out, concatenate separation iter_set nameWidth LSM1 LSM2 matchBy radius keep
                 = Ok out)
    as [out Hout].
  { unfold concatenate. rewrite Hmode. cbn [of_option].
    rewrite bind_Ok, Hst, bind_Ok, Hrows, bind_Ok.
    destruct (stacked_keys _ _ _ _ _ _ _ Hst Hrows) as (k1 & k2 & Hkeys & Hk1 & Hk2);
      [done|].
    rewrite (resolve_conflicts_pairs _ _ _ _ _ Hkeys Hk1 Hk2), bind_Ok. by eexists. }
  exists out. split; [done|]. intros r Hr.
  destruct (out_spectral _ _ _ _ _ _ _ Hout Hr) as [Hsrc Hsp].
  destruct (spData_row_selects LSM1 LSM2 (row_src r) Hnd1 Hnd2 Hlen Hsrc)
    as (sp & Hsp' & H2 & H1).
  rewrite Hsp in Hsp'. injection Hsp' as <-. by split.
Qed.

Lemma mapM_raises {X Y} (f : X → result Y) (l : list X) (x : X) (e : exn) :
  (∀ y e', f y = Raise e' → e' = e) → x ∈ l → f x = Raise e →
  mapM f l = Raise e.
Proof.
  intros Hall Hx Hfx. induction l as [|y l IH]; [by apply elem_of_nil in Hx|].
  rewrite mapM_cons_eq. destruct (f y) as [b|e'] eqn:Hy.
  - rewrite bind_Ok. apply elem_of_cons in Hx as [->|Hx]; [congruence|].
    by rewrite IH.
  - by rewrite (Hall _ _ Hy).
Qed.

Lemma spData_row_raises (LSM1 LSM2 : list (source F A)) (name : string) (e : exn) :
  spData_row LSM1 LSM2 name = Raise e → e = ValueError.
Proof.
  unfold spData_row, assign_spData_row.
  destruct (bool_decide _); repeat case_match; by intros [= <-].
Qed.

Lemma filter_two {X} (P : X → Prop) `{∀ x, Decision (P x)} (l : list X)
    (i j : nat) (x y : X) :
  i < j → l !! i = Some x → l !! j = Some y → P x → P y →
  2 ≤ length (filter P l).
Proof.
  intros Hlt Hi Hj Hx Hy.
  rewrite <- (take_drop_middle l i x Hi), filter_app, filter_cons_True by done.
  assert (y ∈ drop (S i) l) as Hin.
  { apply list_elem_of_lookup. exists (j - S i). rewrite lookup_drop.
    by replace (S i + (j - S i)) with j by lia. }
  assert (y ∈ filter P (drop (S i) l)) as Hin'
    by by apply list_elem_of_filter.
  rewrite length_app. simpl.
  destruct (filter P (drop (S i) l)); [by apply elem_of_nil in Hin'|]. simpl. lia.
Qed.

(** X16.  A name that two sources of catalog 2 have makes the merge
    fail: the spectral indices that the name selects are two rows, which
    do not fit the one row of the column, and the merge raises
    [ValueError]. *)
Theorem concatenate_duplicate_name_raises (LSM1 LSM2 : list (source F A))
    (matchBy : string) (mode : match_mode) (radius : Q) (keep : string)
    (i j : nat) (s s' : source F A) :
  match_mode_of matchBy = Some mode →
  i < j → LSM2 !! i = Some s → LSM2 !! j = Some s' → src_Name s = src_Name s' →
  concatenate separation iter_set nameWidth LSM1 LSM2 matchBy radius keep
  = Raise ValueError.
Proof.
  intros Hmode Hlt Hi Hj Hname. unfold concatenate. rewrite Hmode. cbn [of_option].
  rewrite bind_Ok.
  destruct (stack separation mode radius LSM1 LSM2) as [stacked|e] eqn:Hstack.
  2:{ destruct mode; [done|]. unfold stack, match_columns in Hstack.
      destruct (match_to_catalog_sky_succeeds (position <$> LSM1) (position <$> LSM2))
        as [ms Hms]; [by destruct LSM2|].
      by rewrite Hms in Hstack. }
  rewrite bind_Ok.
  assert (spData_row LSM1 LSM2 (src_Name s) = Raise ValueError) as Hsp.
  { unfold spData_row.
    rewrite bool_decide_eq_true_2
      by (apply list_elem_of_fmap_2; by eapply list_elem_of_lookup_2).
    unfold spectral_of.
    pose proof (filter_two (λ s0, src_Name s0 = src_Name s) LSM2 i j s s'
                  Hlt Hi Hj eq_refl (eq_sym Hname)) as Hlen.
    destruct (filter _ LSM2) as [|a [|b l]]; simpl in Hlen; [lia..|].
    csimpl. unfold assign_spData_row. by repeat case_match. }
  assert (∃ m, (s, m) ∈ stacked) as [m Hm].
  { apply stack_sources in Hstack.
    assert (s ∈ stacked.*1) as Hs.
    { rewrite Hstack. apply elem_of_app. right. by eapply list_elem_of_lookup_2. }
    apply list_elem_of_fmap in Hs as ([s0 m] & -> & Hin). by exists m. }
  unfold add_spectral.
  rewrite (mapM_raises _ stacked (s, m) ValueError); [done| |done|].
  - intros [s0 m0] e. destruct (spData_row LSM1 LSM2 (src_Name s0)) eqn:Hs0; [done|].
    simpl. intros [= <-]. by eapply spData_row_raises.
  - simpl. by rewrite Hsp.
Qed.

End MergeSpectral.

(** ** The merge: the rename pass on names that fit the column *)

Section RenameMerge.
Context `{PyFloat F} {A : Type}.
Variable separation : F * F → F * F → Q.
Variable iter_set : list string → list string.
Variable nameWidth : nat.

(** Whatever [keep] is, [concatenate] ends with the rename pass over the
    table that conflict resolution leaves.  When the names of the sources
    fit the column [Name] with a suffix of two characters, the result has
    the rows of that table, and row [i], named [name] there, is named
    [name_1] when it is the first of several rows of that name, [name_2]
    when it is the second, and [name] otherwise (so also when it is a
    third or later one).  The iteration over [set(names)] visits each name
    once. *)
Lemma concatenate_renames (LSM1 LSM2 : list (source F A)) (matchBy keep : string)
    (radius : Q) (out : list (merged F A)) :
  (∀ names, NoDup (iter_set names) ∧ ∀ x, x ∈ iter_set names ↔ x ∈ names) →
  Forall (λ s, String.length (src_Name s) + 2 ≤ nameWidth) (LSM1 ++ LSM2) →
  concatenate separation iter_set nameWidth LSM1 LSM2 matchBy radius keep = Ok out →
  renamed_after_resolution separation LSM1 LSM2 matchBy radius keep out.
Proof.
  intros Hiter Hfit
    (mode & stacked & rows0 & rows & Hmode & Hstack & Hrows & Hkept & ->)%concatenate_rows.
  exists mode, stacked, rows0, rows. do 4 (split; [done|]).
  unfold rename_rows, getColValues_Name. split.
  - rewrite length_fmap, length_zip_with, rename_duplicates_length, length_fmap. lia.
  - intros i r Hr. rewrite list_lookup_fmap, lookup_zip_with, Hr. simpl.
    destruct (Hiter (row_Name <$> rows)) as [Hnd Hset].
    rewrite (rename_duplicates_lookup _ _ _ i (row_Name r)); [done..| |].
    + apply list_elem_of_lookup_2 in Hr.
      apply (resolve_conflicts_subset _ _ _ _ _ Hkept) in Hr.
      apply list_elem_of_lookup_1 in Hr as [j Hj].
      apply add_spectral_rows in Hrows.
      destruct (Forall2_lookup_r _ _ _ _ _ Hrows Hj) as (p & Hp & _ & -> & _).
      rewrite Forall_forall in Hfit. apply Hfit.
      rewrite <- (stack_sources _ _ _ _ _ _ Hstack).
      apply list_elem_of_fmap_2. by eapply list_elem_of_lookup_2.
    + by rewrite list_lookup_fmap, Hr.
Qed.

End RenameMerge.

(** ** The merge by position: sources that are far apart *)

Section FarApart.
Context `{PyFloat F} {A : Type}.
Variable separation : F * F → F * F → Q.
Variable iter_set : list string → list string.
Variable nameWidth : nat.

Lemma toRemove_NoDup {K} `{EqDecision K} (keep : string) (vals : list K) :
  NoDup vals → toRemove keep vals = [].
Proof.
  intros Hnd. unfold toRemove.
  assert (∀ l : list K,
            omap (λ val,
                    let indx := where_eq vals val in
                    if (1 <? length indx)%nat
                    then Some (if decide (keep = "from1")
                               then drop 1 indx else take 1 indx)
                    else None) l = []) as Hnil; [|apply Hnil].
  intros l. induction l as [|v l IH]; [done|]. cbn [omap list_omap].
  cbv zeta in IH |- *.
  pose proof (where_from_NoDup vals v 0 Hnd) as Hle. fold (where_eq vals v) in Hle.
  destruct (1 <? length (where_eq vals v))%nat eqn:Hlt; [|exact IH].
  apply Nat.ltb_lt in Hlt. lia.
Qed.

Lemma assign_matches_far (radius : Q) (ms : list (nat * Q)) : ∀ col i,
  Forall (λ m, Qle_bool m.2 radius = false) ms →
  assign_matches radius col i ms = col.
Proof.
  induction ms as [|m ms IH]; intros col i Hms; [done|].
  inversion Hms as [|? ? Hm Hms']; subst. simpl. unfold assign_match.
  rewrite Hm. by apply IH.
Qed.

(** X17.  In a merge by position, sources that are farther apart than the
    radius are not duplicates: when every source of catalog 1 is farther
    than [radius] from every source of catalog 2, no source is removed,
    whatever [keep] is. *)
Theorem concatenate_far_apart (LSM1 LSM2 : list (source F A)) (matchBy : string)
    (radius : Q) (keep : string) (out : list (merged F A)) :
  match_mode_of matchBy = Some ByPosition →
  (∀ s1 s2, s1 ∈ LSM1 → s2 ∈ LSM2 →
            Qle_bool (separation (position s1) (position s2)) radius = false) →
  concatenate separation iter_set nameWidth LSM1 LSM2 matchBy radius keep = Ok out →
  row_src <$> out = LSM1 ++ LSM2.
Proof.
  intros Hmode Hfar Hout. pose proof Hout as Hout'.
  apply concatenate_rows in Hout'
    as (mode & stacked & rows & kept & Hmode' & Hstack & Hrows & Hkept & ->).
  rewrite Hmode in Hmode'. injection Hmode' as <-.
  rewrite out_sources.
  pose proof (stack_sources _ _ _ _ _ _ Hstack) as Hsrc.
  assert (stacked.*2 = Some <$> seq 0 (length LSM1 + length LSM2)) as Hids.
  { unfold stack, match_columns in Hstack.
    destruct (match_to_catalog_sky _ _ _) as [ms|] eqn:Hms; [|done].
    simpl in Hstack. injection Hstack as <-.
    rewrite assign_matches_far.
    - rewrite fmap_app, !snd_zip by (by rewrite length_fmap, length_seq).
      by rewrite seq_app, fmap_app.
    - unfold match_to_catalog_sky in Hms.
      destruct (position <$> LSM2) as [|q0 cat] eqn:Hcat; [done|].
      apply mapM_Ok in Hms. rewrite <- Hcat in Hms.
      apply Forall_forall. intros [j d] Hjd.
      apply list_elem_of_lookup_1 in Hjd as [i Hi].
      destruct (Forall2_lookup_r _ _ _ _ _ Hms Hi) as (p & Hp & Hnear).
      destruct (nearest separation p (position <$> LSM2)) as [[j' d']|] eqn:Hn; [|done].
      injection Hnear as -> ->.
      apply nearest_spec in Hn as (q & Hq & -> & _). simpl.
      apply list_elem_of_lookup_2, list_elem_of_fmap in Hp as (s1 & -> & Hs1).
      apply list_elem_of_lookup_2, list_elem_of_fmap in Hq as (s2 & -> & Hs2).
      by apply Hfar. }
  assert (resolve_conflicts ByPosition keep rows = Ok rows) as Hall.
  { unfold resolve_conflicts. destruct (bool_decide _); [|done].
    rewrite toRemove_NoDup; [unfold remove_rows; simpl; by rewrite remove_from_nil|].
    apply add_spectral_rows in Hrows.
    assert (duplicate_key ByPosition <$> rows = inr <$> stacked.*2) as ->.
    { rewrite <- list_fmap_compose.
      apply (Forall2_fmap_eq (inr ∘ snd) (duplicate_key ByPosition)).
      eapply Forall2_impl; [done|]. intros p r (_ & _ & Hm & _). simpl. by rewrite Hm. }
    rewrite Hids. apply (NoDup_fmap_2 inr), (NoDup_fmap_2 Some), NoDup_seq. }
  rewrite Hall in Hkept. injection Hkept as <-.
  rewrite <- Hsrc. apply add_spectral_rows in Hrows.
  apply (Forall2_fmap_eq fst row_src). eapply Forall2_impl; [done|].
  by intros p r (? & _).
Qed.

End FarApart.

(** ** The reader: the columns of the table *)

Section ReaderColumns.
Context `{PyFloat F}.
Import Py PyFacts StrFacts.

Lemma index_Ok_elem_of (x : string) (l : list string) (i : nat) :
  index x l = Ok i → x ∈ l.
Proof.
  revert i. induction l as [|y l IH]; intros i; [done|]. simpl.
  destruct (decide (y = x)) as [->|]; [intros _; by apply elem_of_cons; left|].
  destruct (index x l) as [k|] eqn:Hk; [|done]. intros _.
  apply elem_of_cons. right. by eapply IH.
Qed.

Lemma ascii_read_keys (colNames outlines : list string)
    (cols : list (string * list (value F))) (masked : bool) :
  ascii_read colNames outlines = Ok (cols, masked) → cols.*1 = colNames.
Proof.
  unfold ascii_read. destruct (forallb _ _); [|done]. intros [= <- _].
  assert (∀ (f : nat → string → string * list (value F)) (l : list string),
            (∀ j x, (f j x).1 = x) → (imap f l).*1 = l) as Himap.
  { intros f l. revert f. induction l as [|x l IH]; intros f Hf; [done|].
    csimpl. rewrite Hf. f_equal. apply IH. intros j y. apply Hf. }
  by apply Himap.
Qed.

Lemma read_spectral_keys (t t' : table F) (maxLen : option nat) :
  read_spectral t = Ok (t', maxLen) → keys t' = keys t.
Proof.
  unfold read_spectral. destruct (bool_decide _); [|by intros [= <- _]].
  destruct (column _ t) as [specOld|]; [|done]. rewrite bind_Ok.
  destruct (convert_spectral specOld) as [specVec n].
  destruct (np_array specVec); [|done]. rewrite bind_Ok.
  intros [= <- _]. apply keys_set_column.
Qed.

Lemma parse_header_canonical (spdef : list F) (line : string) (hdr : header) :
  parse_header spdef line = Ok hdr →
  Forall (λ c, ∃ k, allowedColumnNames !! k = Some c) (h_colNames hdr).
Proof.
  unfold parse_header.
  destruct (normalise_format line) as [fs|]; [|done]. rewrite bind_Ok.
  destruct (negb _); [done|].
  destruct (fix_colNames _) as [colNames|]; [|done]. rewrite bind_Ok.
  destruct (of_option _ _) as [first|]; [|done]. rewrite bind_Ok.
  destruct (mapM _ _) as [specs|] eqn:Hspecs; [|done]. rewrite bind_Ok.
  intros [= <-]. cbn [h_colNames].
  apply mapM_Ok in Hspecs. apply Forall_fmap, Forall_fmap.
  clear -Hspecs. induction Hspecs as [|cn [[canon dflt] e] l specs Hcn _ IH];
    constructor; [|done].
  simpl. unfold column_spec in Hcn. destruct (decide _); [done|].
  destruct (allowedColumnNames !! _) as [c|] eqn:Hk; [|done].
  injection Hcn as <- _ _. by eexists.
Qed.

(** X18.  The columns of a table that the reader returns are the columns
    of the format line, in their order and under their canonical names,
    and [Name], [Type], [Ra] and [Dec] are among them: a file without one
    of these four columns is not read. *)
Theorem reader_columns (spdef spdef' : list F) (lines : list string) (t : table F) :
  skyModelReader spdef lines = Ok (t, spdef') →
  ∃ formatString hdr,
    find_format_line lines = Ok formatString ∧
    parse_header spdef formatString = Ok hdr ∧
    keys t = h_colNames hdr ∧
    Forall (λ c, ∃ k, allowedColumnNames !! k = Some c) (keys t) ∧
    "Name" ∈ keys t ∧ "Type" ∈ keys t ∧ "Ra" ∈ keys t ∧ "Dec" ∈ keys t.
Proof.
  unfold skyModelReader.
  destruct (find_format_line lines) as [formatString|]; [|done]. rewrite bind_Ok.
  destruct (parse_header spdef formatString) as [hdr|] eqn:Hhdr; [|done].
  rewrite bind_Ok.
  destruct (read_lines _ _ lines) as [st|]; [|done]. rewrite bind_Ok.
  destruct (index "Name" _) eqn:HName; [|done]. rewrite bind_Ok.
  destruct (index "Type" _) eqn:HType; [|done]. rewrite bind_Ok.
  destruct (ascii_read _ _) as [[cols masked]|] eqn:Hread; [|done]. rewrite bind_Ok.
  destruct (read_spectral _) as [[t1 maxLen]|] eqn:Hspec; [|done]. rewrite bind_Ok.
  destruct (column "Ra" t1) as [RARaw|] eqn:HRa; [|done]. rewrite bind_Ok.
  destruct (RA2Angle _) as [RACol|]; [|done]. rewrite bind_Ok.
  destruct (column "Dec" _) as [DecRaw|] eqn:HDec; [|done]. rewrite bind_Ok.
  destruct (Dec2Angle _) as [DecCol|]; [|done]. rewrite bind_Ok.
  destruct (pad_spectral_default _ _ _ _ _) as [[meta sp]|]; [|done].
  rewrite bind_Ok. intros [= <- _].
  apply ascii_read_keys in Hread. apply read_spectral_keys in Hspec.
  apply column_in_keys in HRa, HDec. rewrite keys_set_column in HDec.
  apply index_Ok_elem_of in HName, HType.
  assert (keys t1 = h_colNames hdr) as Hkeys by by rewrite Hspec.
  set (t := {| t_columns := _; t_meta := meta; t_masked := masked |}).
  assert (keys t = keys t1) as ->.
  { change (keys t)
      with (keys (set_column "Dec" (VFloat <$> DecCol)
                    (set_column "Ra" (VFloat <$> RACol) t1))).
    by rewrite !keys_set_column. }
  exists formatString, hdr. do 3 (split; [done|]).
  split; [rewrite Hkeys; by eapply parse_header_canonical|].
  rewrite <- Hkeys in HName, HType. by repeat split.
Qed.

End ReaderColumns.

(** ** A written row, read back *)

Section RowRoundTrip.
Context `{PyFloat F}.
Import Py PyFacts StrFacts.

(** The text of the cells before a cell, each followed by the
    separator, and the text of the cells after it, each preceded by the
    separator. *)
Let lead (sep : string) (l : list string) : string :=
  foldr (λ y acc, y +:+ sep +:+ acc) "" l.
Let trail (sep : string) (l : list string) : string :=
  foldr (λ y acc, sep +:+ y +:+ acc) "" l.

Lemma join_middle (sep : string) (pre post : list string) (x : string) :
  join sep (pre ++ x :: post) = lead sep pre +:+ x +:+ trail sep post.
Proof.
  assert (∀ x post, join sep (x :: post) = x +:+ trail sep post) as Htrail.
  { clear. intros x post. revert x. induction post as [|y post IH]; intros x.
    - simpl. by rewrite sapp_nil.
    - rewrite join_cons, IH. done. }
  induction pre as [|y pre IH]; [apply Htrail|].
  change ((y :: pre) ++ x :: post) with (y :: (pre ++ x :: post)).
  destruct (pre ++ x :: post) as [|z l] eqn:Hl; [by destruct pre|].
  rewrite join_cons, IH. simpl. by rewrite !sapp_assoc.
Qed.

Lemma join_middle_hd (sep x : string) (post : list string) :
  join sep (x :: post) = x +:+ trail sep post.
Proof. apply (join_middle sep [] post x). Qed.

Lemma first_char_app (s r : string) : s ≠ "" → first_char (s +:+ r) = first_char s.
Proof. by destruct s. Qed.

Lemma lead_avoids (chars sep : string) (l : list string) :
  avoids chars sep = true → Forall (λ y, avoids chars y = true) l →
  avoids chars (lead sep l) = true.
Proof.
  intros Hsep. induction 1 as [|y l Hy _ IH]; [done|].
  simpl. by rewrite !avoids_app, Hy, Hsep, IH.
Qed.

Lemma trail_avoids (chars sep : string) (l : list string) :
  avoids chars sep = true → Forall (λ y, avoids chars y = true) l →
  avoids chars (trail sep l) = true.
Proof.
  intros Hsep. induction 1 as [|y l Hy _ IH]; [done|].
  simpl. by rewrite !avoids_app, Hy, Hsep, IH.
Qed.

(** In a joined row with one bracketed list among cells without brackets,
    only the list changes. *)
Lemma mask_brackets_row (pre post : list string) (inner : string) :
  Forall (λ y, avoids "[]" y = true) pre →
  Forall (λ y, avoids "[]" y = true) post →
  avoids "[]" inner = true →
  mask_brackets (join ", " (pre ++ ("[" +:+ inner +:+ "]") :: post))
  = join ", " (pre ++ replace_char "," ";" inner :: post).
Proof.
  intros Hpre Hpost Hinner. rewrite !join_middle, !sapp_assoc.
  destruct (outside_avoids "[]" inner Hinner) as [Hf Hl].
  rewrite <- (sapp_assoc (lead ", " pre) (replace_char "," ";" inner)).
  rewrite sapp_assoc.
  apply mask_brackets_span; [| |done|done].
  - apply (avoids_contains "[]"); [by apply lead_avoids|done].
  - apply (avoids_contains "[]"); [by apply trail_avoids|done].
Qed.

Lemma padded_split (ncols : nat) (colLines : list string) :
  colLines ≠ [] → Forall (λ x, contains_char "," x = false) colLines →
  split "," (padded ncols colLines)
  = colLines ++ replicate (ncols - length colLines) " ".
Proof.
  intros Hne Hl. unfold padded. apply (split_join ",").
  - by destruct colLines.
  - apply Forall_app. split; [done|]. by apply Forall_replicate.
Qed.

Lemma blanks_at_the_end (pre post line : list string) (L : string) (k : nat) :
  pre ++ L :: post = line ++ replicate k " " → L ≠ " " →
  ∃ post', line = pre ++ L :: post' ∧ post = post' ++ replicate k " ".
Proof.
  intros Heq HL. revert line Heq. induction pre as [|a pre IH]; intros line Heq.
  - destruct line as [|y line].
    + destruct k; simplify_eq/=.
    + simplify_eq/=. by exists line.
  - destruct line as [|y line].
    + assert (L ∈ replicate k " ") as Hin.
      { simpl in Heq. rewrite <- Heq. apply elem_of_cons. right.
        apply elem_of_app. right. by left. }
      by apply elem_of_replicate in Hin as [? _].
    + simplify_eq/=. destruct (IH line) as (post' & -> & ->); [done|].
      by exists post'.
Qed.

Lemma strip_ws_lead_space (s : string) : strip_ws (" " +:+ s) = strip_ws s.
Proof. unfold strip_ws, strip. by rewrite (lstrip_within _ " "). Qed.

Lemma is_header_or_comment_first (c rest : string) (sep : ascii) :
  contains_char sep "FORMAT" = false → contains_char sep "format" = false →
  contains_char sep "#" = false →
  is_header_or_comment (c +:+ String sep rest) = is_header_or_comment c.
Proof.
  intros H1 H2 H3. unfold is_header_or_comment, startswith.
  by rewrite !prefix_before.
Qed.

(** A row has one cell for each column of the format line. *)
Lemma row_cells_length (spdef : list F) (t : table F) (i : nat) (cells : list string) :
  row_cells spdef t i = Ok cells →
  length cells = length (omap (header_token (t_meta t)) (keys t)).
Proof.
  unfold row_cells. intros Hcells%mapM_Ok%Forall2_length. rewrite <- Hcells.
  unfold known_columns, keys. induction (t_columns t) as [|c cs IH]; [done|].
  rewrite fmap_cons, !omap_cons_eq. unfold header_token at 1.
  destruct (allowedColumnNames !! lower c.1); cbn [mbind option_bind length];
    by rewrite IH.
Qed.

(** X20.  A row that the writer writes is read back with the texts of its
    cells.  Take a row whose cells are a name, cells without [','],
    brackets and newline, and one list [[inner]].  [rowStr] gives its line
    without the blank cells at the end; the reader, with as many columns
    as the row has cells, takes the written line for a data row, and the
    fields of the row it keeps are, once stripped, the stripped cells of
    the row, the list being [inner] with [';'] for [',']. *)
Theorem written_row_read_back (spdef : list F) (t : table F) (i : nat)
    (st : lines_state) (line pre post : list string) (name inner : string) :
  rowStr spdef t i = Ok line →
  row_cells spdef t i = Ok (name :: pre ++ ("[" +:+ inner +:+ "]") :: post) →
  Forall (λ c, avoids (",[]" +:+ newline) c = true) (name :: pre ++ post) →
  avoids ("[]" +:+ newline) inner = true →
  strip_ws name ≠ "" → is_header_or_comment name = false →
  ∃ row,
    read_line (length (omap (header_token (t_meta t)) (keys t))) st
      (join ", " line +:+ newline)
    = Ok {| ls_meta := ls_meta st; ls_outlines := ls_outlines st ++ [row] |} ∧
    strip_ws <$> split "," row
    = strip_ws <$> name :: pre ++ replace_char "," ";" inner :: post.
Proof.
  intros Hline Hcells Hplain Hinner Hname Hhead.
  rewrite <- (row_cells_length spdef t i _ Hcells).
  unfold rowStr in Hline. rewrite Hcells, bind_Ok in Hline.
  pose proof (pop_blanks_spec (name :: pre ++ ("[" +:+ inner +:+ "]") :: post)) as Hpop.
  rewrite Hline in Hpop. destruct Hpop as [[k Hk] _].
  change (name :: pre ++ ?l) with ((name :: pre) ++ l) in Hk.
  apply blanks_at_the_end in Hk as (post' & -> & ->); [|done].
  set (c := replace_char "," ";" inner).
  assert (Forall (λ y, avoids (",[]" +:+ newline) y = true) (name :: pre) ∧
          Forall (λ y, avoids (",[]" +:+ newline) y = true) post') as [Hpre Hpost].
  { change (name :: pre ++ ?l) with ((name :: pre) ++ l) in Hplain.
    apply Forall_app in Hplain as [? Hp]. by apply Forall_app in Hp as [? _]. }
  assert (∀ chars l, within (",[]" +:+ newline) chars = true →
            Forall (λ y, avoids (",[]" +:+ newline) y = true) l →
            Forall (λ y, avoids chars y = true) l) as Hweak.
  { intros chars l Hsub Hl. eapply Forall_impl; [done|].
    intros y. by apply avoids_weaken. }
  set (cells := (name :: pre) ++ ("[" +:+ inner +:+ "]") :: post').
  set (cells' := (name :: pre) ++ c :: post').
  assert (avoids newline (join ", " cells) = true) as Hnl.
  { apply avoids_join; [done|]. apply forallb_forall. intros y Hy%list_elem_of_In.
    unfold cells in Hy. apply elem_of_app in Hy as [Hy|Hy].
    - apply (Hweak newline) in Hpre; [|done]. rewrite Forall_forall in Hpre. by apply Hpre.
    - apply elem_of_cons in Hy as [->|Hy].
      + rewrite !avoids_app.
        by rewrite (avoids_weaken ("[]" +:+ newline) newline inner eq_refl Hinner).
      + apply (Hweak newline) in Hpost; [|done]. rewrite Forall_forall in Hpost.
        by apply Hpost. }
  assert (fields (join ", " cells +:+ newline)
          = name :: ((λ y, " " +:+ y) <$> pre ++ c :: post')) as Hfields.
  { unfold fields.
    assert (strip newline (join ", " cells +:+ newline) = join ", " cells) as ->.
    { unfold strip. destruct (outside_avoids newline _ Hnl) as [Hf _].
      rewrite (proj2 (lstrip_fixed newline _)).
      2:{ rewrite first_char_app; [done|]. unfold cells.
          change ((name :: pre) ++ ?l) with (name :: (pre ++ l)).
          rewrite join_middle_hd. by destruct name. }
      rewrite rstrip_within by done. by apply rstrip_avoids. }
    unfold cells. rewrite mask_brackets_row.
    2:{ by apply (Hweak "[]"). }
    2:{ by apply (Hweak "[]"). }
    2:{ by apply (avoids_weaken ("[]" +:+ newline)). }
    change (join ", " ((name :: pre) ++ ?l))
      with ("" +:+ join ", " (name :: pre ++ l)).
    rewrite split_join_cells; [done|done|].
    change (name :: pre ++ ?l) with ((name :: pre) ++ l).
    apply Forall_app. split.
    - eapply Forall_impl; [exact Hpre|]. intros y Hy.
      by apply (avoids_contains (",[]" +:+ newline)).
    - constructor; [by apply replace_char_gone|].
      eapply Forall_impl; [exact Hpost|]. intros y Hy.
      by apply (avoids_contains (",[]" +:+ newline)). }
  set (colLines := name :: ((λ y, " " +:+ y) <$> pre ++ c :: post')) in *.
  eexists. split.
  - unfold read_line.
    assert (is_header_or_comment (join ", " cells +:+ newline) = false) as ->.
    { unfold cells. change ((name :: pre) ++ ?l) with (name :: (pre ++ l)).
      rewrite join_middle_hd.
      assert (∃ r, trail ", " (pre ++ ("[" +:+ inner +:+ "]") :: post') = String "," r)
        as [r ->] by (destruct pre; by eexists).
      rewrite sapp_assoc, sapp_cons.
      rewrite (is_header_or_comment_first _ _ ","); done. }
    rewrite Hfields. unfold colLines at 1. simpl hd.
    by rewrite decide_False by done.
  - rewrite padded_split; [|done|].
    2:{ unfold colLines. constructor.
        - inversion Hpre; subst. by apply (avoids_contains (",[]" +:+ newline)).
        - apply Forall_fmap, Forall_app. inversion Hpre; subst. split.
          + eapply Forall_impl; [done|]. intros y Hy. simpl.
            by apply (avoids_contains (",[]" +:+ newline)).
          + constructor; [simpl; by apply replace_char_gone|].
            eapply Forall_impl; [exact Hpost|]. intros y Hy. simpl.
            by apply (avoids_contains (",[]" +:+ newline)). }
    match goal with |- context [replicate ?n " "] =>
      assert (n = k) as ->
    end.
    { unfold colLines. simpl. rewrite length_fmap, !length_app. simpl.
      rewrite !length_app, length_replicate. simpl. lia. }
    replace (name :: pre ++ c :: post' ++ replicate k " ")
      with ((name :: pre ++ c :: post') ++ replicate k " ")
      by (simpl; by rewrite <- app_assoc).
    rewrite !fmap_app. f_equal. unfold colLines.
    rewrite !fmap_cons, <- list_fmap_compose. by f_equal.
Qed.

End RowRoundTrip.

(** ** The merge by position: the catalog that is kept *)

Section KeptCatalog.
Context `{PyFloat F} {A : Type}.
Variable separation : F * F → F * F → Q.
Variable iter_set : list string → list string.
Variable nameWidth : nat.

(** X21.  In a merge by position, [keep = 'from1'] keeps every source of
    catalog 1 and [keep = 'from2'] keeps every source of catalog 2: the
    result has, in their order, the sources of the catalog that is kept and
    some of the sources of the other catalog, those of catalog 1 first. *)
Theorem concatenate_by_position_keeps_catalog (LSM1 LSM2 : list (source F A))
    (matchBy : string) (radius : Q) (keep : string) (out : list (merged F A)) :
  match_mode_of matchBy = Some ByPosition →
  concatenate separation iter_set nameWidth LSM1 LSM2 matchBy radius keep = Ok out →
  (keep = "from1" →
     ∃ others, row_src <$> out = LSM1 ++ others ∧ others `sublist_of` LSM2) ∧
  (keep = "from2" →
     ∃ others, row_src <$> out = others ++ LSM2 ∧ others `sublist_of` LSM1).
Proof.
  intros Hmode Hout. pose proof Hout as Hout'.
  apply concatenate_rows in Hout'
    as (mode & stacked & rows & kept & Hmode' & Hstack & Hrows & Hkept & ->).
  rewrite Hmode in Hmode'. injection Hmode' as <-.
  rewrite out_sources.
  destruct (by_position_rows _ _ _ _ _ _ Hstack Hrows)
    as (rows1 & rows2 & -> & Hsrc1 & Hsrc2 & Hk1 & Hk2).
  rewrite (resolve_conflicts_pairs _ _ _ _ _ (fmap_app _ _ _) Hk1 Hk2) in Hkept.
  injection Hkept as <-.
  split; intros ->.
  - rewrite bool_decide_eq_true_2 by by left.
    rewrite remove_from_app, fmap_app.
    eexists. split; [f_equal|].
    + rewrite (remove_from_filter (λ _, True)); [by rewrite filter_all|].
      intros j x Hj. split; [|tauto]. intros Hin. apply toRemove_from1 in Hin.
      destruct Hin as (j' & v & Hlt & Hj' & Hv). simpl in Hv, Hlt.
      rewrite (lookup_keys_app_l _ _ _ _ _ Hj) in Hv. simplify_eq/=.
      apply lookup_keys_inv in Hj' as [[_ Hj']|[Hge _]];
        [|apply lookup_lt_Some in Hj; lia].
      assert ((duplicate_key ByPosition <$> rows1) !! j
              = Some (duplicate_key ByPosition x)) as Hjx
        by by rewrite list_lookup_fmap, Hj.
      pose proof (NoDup_lookup _ _ _ _ Hk1 Hj' Hjx). lia.
    + rewrite <- Hsrc2. apply fmap_sublist, remove_from_sublist.
  - rewrite bool_decide_eq_true_2 by by right.
    rewrite remove_from_app, fmap_app.
    eexists. split; [f_equal|].
    + rewrite (remove_from_filter (λ _, True)); [by rewrite filter_all|].
      intros j x Hj. split; [|tauto]. intros Hin. apply toRemove_from2 in Hin.
      destruct Hin as (v & Hv & _ & j' & Hlt & Hj'). simpl in Hv, Hlt.
      rewrite (lookup_keys_app_r _ _ _ _ _ Hj) in Hv. simplify_eq/=.
      apply lookup_keys_inv in Hj' as [[Hlt' _]|[Hge Hj']]; [lia|].
      assert ((duplicate_key ByPosition <$> rows2) !! j
              = Some (duplicate_key ByPosition x)) as Hjx
        by by rewrite list_lookup_fmap, Hj.
      pose proof (NoDup_lookup _ _ _ _ Hk2 Hj' Hjx). lia.
    + rewrite <- Hsrc1. apply fmap_sublist, remove_from_sublist.
Qed.

End KeptCatalog.

(** ** The codec and the merge on concrete data, continued *)

Section MoreExamples.
Import DecFloat Py.
Local Open Scope Q_scope.

(** *** The format line *)

Lemma normalise_format_two_styles_witness :
  normalise_format ("FORMAT = " +:+ "Name, Type, Ra, Dec, I" +:+ newline)
  = Ok ("FORMAT = " +:+ "Name, Type, Ra, Dec, I")
  ∧ normalise_format ("# (" +:+ "Name, Type, Ra, Dec, I" +:+ ") = format" +:+ newline)
    = Ok ("FORMAT = " +:+ "Name, Type, Ra, Dec, I").
Proof.
  apply (normalise_format_two_styles "Name, Type, Ra, Dec, I");
    [done|reflexivity..].
Defined.

(** A format line that ends with [format] is taken for a line of the
    second style, whatever it starts with. *)
Example normalise_format_ends_with_format :
  normalise_format ("FORMAT = Name, Type, format" +:+ newline) = Ok "FORMAT = FORMAT".
Proof. reflexivity. Qed.

Lemma identified_file_has_format_line_witness :
  let lines := ["# a sky model" +:+ newline; "FORMAT = Name, Type" +:+ newline] in
  ∃ i line,
    find_format_line lines = Ok line ∧
    lines !! i = Some line ∧
    contains "format" (lower line) = true ∧
    ∀ j l, (j < i)%nat → lines !! j = Some l →
           startswith l "FORMAT" || startswith l "format" = false.
Proof.
  exact (identified_file_has_format_line
           (FileName ["# a sky model" +:+ newline; "FORMAT = Name, Type" +:+ newline])
           _ (or_introl eq_refl) eq_refl).
Defined.

(** The reader reads a file whose format line is of the second style;
    [skyModelIdentify] does not identify it. *)
Example hash_style_not_identified :
  let lines := ["# (Name, Type, Ra, Dec, I) = format" +:+ newline;
                "a, POINT, 12:00:00, 10.00.00, 1.5" +:+ newline] in
  skyModelIdentify (FileName lines) = false ∧
  result_map (λ r, keys r.1) (skyModelReader (F:=Q) [0] lines)
  = Ok ["Name"; "Type"; "Ra"; "Dec"; "I"].
Proof. split; vm_compute; reflexivity. Qed.

Lemma header_unclosed_list_raises_witness :
  parse_header (F:=Q) [0] "FORMAT = Name, Type, SpectralIndex='[0.0, 1.0'"
  = Raise ValueError.
Proof.
  apply (header_unclosed_list_raises (F:=Q) [0] _
           "FORMAT = Name, Type, SpectralIndex='[0.0, 1.0'").
  - reflexivity.
  - reflexivity.
  - exists " SpectralIndex='[0.0". split; [|reflexivity].
    vm_compute. do 2 right. by left.
  - vm_compute. by repeat constructor.
Defined.

Lemma written_header_read_back_witness :
  ∃ hdr,
    parse_header (F:=Q) [0] (hd "" (format_lines table_defaults) +:+ newline) = Ok hdr ∧
    h_colNames hdr
    = ["Name"; "Type"; "Ra"; "Dec"; "I"; "ReferenceFrequency"; "SpectralIndex"] ∧
    h_explicit hdr
    = None :: ((λ c, t_meta table_defaults !! c) <$>
               ["Type"; "Ra"; "Dec"; "I"; "ReferenceFrequency"; "SpectralIndex"]).
Proof.
  apply (written_header_read_back (F:=Q) [0] table_defaults "Name"
           ["Type"; "Ra"; "Dec"; "I"; "ReferenceFrequency"; "SpectralIndex"]).
  - vm_compute. reflexivity.
  - done.
  - reflexivity.
  - repeat (constructor; [by vm_compute|]). constructor.
Defined.

(** *** Data lines *)

Lemma mask_brackets_one_list_witness :
  let c := replace_char "," ";" "-0.8, 0.1" in
  mask_brackets ("a, POINT, 1.5, " +:+ "[" +:+ "-0.8, 0.1" +:+ "]" +:+ ", 74e6")
  = "a, POINT, 1.5, " +:+ c +:+ ", 74e6" ∧
  contains_char "," c = false ∧
  split ";" c = split "," "-0.8, 0.1".
Proof.
  apply (mask_brackets_one_list "a, POINT, 1.5, " "-0.8, 0.1" ", 74e6"); reflexivity.
Defined.

Lemma mask_brackets_two_lists_witness :
  let inner := "1, 2" +:+ "]" +:+ ", x, " +:+ "[" +:+ "3, 4" in
  mask_brackets ("a, " +:+ "[" +:+ "1, 2" +:+ "]" +:+ ", x, " +:+ "["
                 +:+ "3, 4" +:+ "]" +:+ ", y")
  = "a, " +:+ replace_char "," ";" inner +:+ ", y"
  ∧ contains_char "," (replace_char "," ";" inner) = false.
Proof.
  apply (mask_brackets_two_lists "a, " "1, 2" ", x, " "3, 4" ", y");
    [reflexivity..|done|done].
Defined.

(** The fields of a line with two lists: the field between the lists is
    gone. *)
Example fields_two_lists :
  fields ("a, [1, 2], x, [3, 4], y" +:+ newline) = ["a"; " 1; 2]; x; [3; 4"; " y"].
Proof. reflexivity. Qed.

Lemma patch_line_read_back_witness :
  read_line (F:=Q) 6 {| ls_meta := ∅; ls_outlines := [] |}
    (patch_definition_line "b" 180 10)
  = Ok {| ls_meta := <["b" := VPos 180 10]> ∅; ls_outlines := [] |}.
Proof.
  apply (patch_line_read_back (F:=Q) 6 {| ls_meta := ∅; ls_outlines := [] |}
           "b" 180 10 180 10); reflexivity.
Defined.

Lemma dec_colons_drop_fraction_witness :
  dec_of_string (F:=Q) ("10" +:+ ":" +:+ "30" +:+ ":" +:+ "15" +:+ "." +:+ "5")
  = dec_of_string ("10" +:+ ":" +:+ "30" +:+ ":" +:+ "15").
Proof. apply (dec_colons_drop_fraction (F:=Q) "10" "30" "15" "5"); reflexivity. Defined.

(** With ['.'] between the fields the fraction of the seconds is read. *)
Example dec_fraction :
  dec_of_string (F:=Q) "10:30:15.5" = Ok (2521 # 240) ∧
  dec_of_string (F:=Q) "10.30.15.5" = Ok (75631 # 7200).
Proof. split; vm_compute; reflexivity. Qed.

(** *** The writer *)

Lemma written_file_is_identified_witness :
  ∃ out, skyModelWriter (F:=Q) [0] table_b_a = Ok out ∧
         skyModelIdentify (FileName (readlines (writelines out))) = true.
Proof.
  eexists. split; [vm_compute; reflexivity|].
  apply (written_file_is_identified (F:=Q) [0] table_b_a).
  vm_compute. reflexivity.
Defined.

(** A row whose cells are all masked cannot be written. *)
Example rowStr_all_blank :
  rowStr (F:=Q) [0]
    {| t_columns := [("I", [VNone]); ("Q", [VNone])]; t_meta := ∅; t_masked := true |} 0
  = Raise IndexError.
Proof. vm_compute. reflexivity. Qed.

(** A table whose column [Ra] holds a text that is no angle cannot be
    written. *)
Example rowStr_text_in_Ra :
  rowStr (F:=Q) [0]
    {| t_columns := [("Name", [VStr "a"]); ("Ra", [VStr "noon"])];
       t_meta := ∅; t_masked := false |} 0
  = Raise ValueError.
Proof. vm_compute. reflexivity. Qed.

Lemma written_row_read_back_witness :
  ∃ row,
    read_line (F:=Q) (length (omap (header_token (t_meta table_defaults))
                                   (keys table_defaults)))
      {| ls_meta := ∅; ls_outlines := [] |}
      (join ", " ["a"; "POINT"; "12:00:00"; "10.00.00"; "1.5"; "74000000.0";
                  "[-0.8, 0.1]"] +:+ newline)
    = Ok {| ls_meta := ∅; ls_outlines := [] ++ [row] |} ∧
    strip_ws <$> split "," row
    = strip_ws <$> "a" :: ["POINT"; "12:00:00"; "10.00.00"; "1.5"; "74000000.0"]
                   ++ replace_char "," ";" "-0.8, 0.1" :: [].
Proof.
  apply (written_row_read_back (F:=Q) [0] table_defaults 0
           {| ls_meta := ∅; ls_outlines := [] |}
           ["a"; "POINT"; "12:00:00"; "10.00.00"; "1.5"; "74000000.0"; "[-0.8, 0.1]"]
           ["POINT"; "12:00:00"; "10.00.00"; "1.5"; "74000000.0"] [] "a" "-0.8, 0.1").
  - vm_compute. reflexivity.
  - vm_compute. reflexivity.
  - vm_compute. by repeat constructor.
  - reflexivity.
  - done.
  - reflexivity.
Defined.

(** *** The reader *)

(** A line whose first field begins with a blank and then [#] is a row of
    the table: Astropy looks for the comment character at the beginning of
    a line only. *)
Example ascii_read_comment :
  result_map (λ r, r.1) (ascii_read (F:=Q) ["Name"; "I"] [" #b, 1.5"; "#c, 2.5"; newline])
  = Ok [("Name", [VStr "#b"]); ("I", [VFloat (3 # 2)])].
Proof. vm_compute. reflexivity. Qed.

(** A column with an integer that does not fit in 64 bits is a column of
    text, also when its other tokens are numbers; an integer that fits
    leaves the column to the next converters. *)
Example convert_column_overflow :
  convert_column (F:=Q) false ["9223372036854775808"; "2"]
  = [VStr "9223372036854775808"; VStr "2"] ∧
  convert_column (F:=Q) false ["9223372036854775807"; "2"]
  = [VInt 9223372036854775807; VInt 2] ∧
  convert_column (F:=Q) false ["1.5"; "9223372036854775808"]
  = [VFloat (3 # 2); VFloat 9223372036854775808].
Proof. repeat split; vm_compute; reflexivity. Qed.

Lemma read_spectral_succeeds_witness :
  ∃ t',
    read_spectral table_raw
    = Ok (t', Some (spectral_maxLen [VStr "-0.8;0.1"; VNone])) ∧
    keys t' = keys table_raw ∧
    column "SpectralIndex" t'
    = Ok (VList <$> (spectral_row (spectral_maxLen [VStr "-0.8;0.1"; VNone])
                       <$> [VStr "-0.8;0.1"; VNone])) ∧
    ∀ name, name ≠ "SpectralIndex" → column name t' = column name table_raw.
Proof.
  apply (read_spectral_succeeds table_raw [VStr "-0.8;0.1"; VNone]).
  - reflexivity.
  - right. reflexivity.
Defined.

Lemma reader_columns_witness :
  ∃ formatString hdr t,
    skyModelReader (F:=Q) [0] (readlines file_blank_spectral) = Ok (t, [0; 0]) ∧
    find_format_line (readlines file_blank_spectral) = Ok formatString ∧
    parse_header (F:=Q) [0] formatString = Ok hdr ∧
    keys t = h_colNames hdr ∧
    Forall (λ c, ∃ k, allowedColumnNames !! k = Some c) (keys t) ∧
    "Name" ∈ keys t ∧ "Type" ∈ keys t ∧ "Ra" ∈ keys t ∧ "Dec" ∈ keys t.
Proof.
  destruct (skyModelReader (F:=Q) [0] (readlines file_blank_spectral))
    as [[t spdef']|] eqn:Hread; [|by vm_compute in Hread].
  assert (spdef' = [0; 0]) as -> by (vm_compute in Hread; by injection Hread).
  destruct (reader_columns (F:=Q) [0] [0; 0] (readlines file_blank_spectral) t Hread)
    as (formatString & hdr & Hrest).
  by exists formatString, hdr, t.
Defined.

(** Reading a file with a blank spectral index extends the default of the
    module from [[0.0]] to [[0.0, 0.0]]. *)
Lemma reader_extends_module_default_witness :
  ∃ k, [0; 0] = [0] ++ replicate k (fzero (F:=Q)).
Proof.
  eapply (reader_extends_module_default (F:=Q) [0] [0; 0]
            (readlines file_blank_spectral)).
  vm_compute. reflexivity.
Defined.

(** *** The merge *)

(** Merging with [keep = 'all'] two catalogs that both have a source
    [X], in a column of 50 characters: the rows are renamed as the
    specification says. *)
Example concatenate_renames_X :
  renamed_after_resolution meridian_separation catalog_X1 catalog_X2 "name" (1 # 10) "all"
    [ {| row_src := source_at "A" 10 [1; 2]; row_Name := "A";
         row_match := None; row_SpectralIndex := [1; 2] |};
      {| row_src := source_at "X" 20 [3; 4]; row_Name := "X_1";
         row_match := None; row_SpectralIndex := [5; 6] |};
      {| row_src := source_at "X" 30 [5; 6]; row_Name := "X_2";
         row_match := None; row_SpectralIndex := [5; 6] |};
      {| row_src := source_at "C" 40 [7; 8]; row_Name := "C";
         row_match := None; row_SpectralIndex := [7; 8] |} ].
Proof.
  apply (concatenate_renames meridian_separation remove_dups 50).
  - intros names. split; [apply NoDup_remove_dups|]. intros x. apply elem_of_remove_dups.
  - repeat constructor.
  - vm_compute. reflexivity.
Qed.

(** In a column of one character no suffix fits: the two rows [X] keep
    their name. *)
Example merge_renames_X_width_1 :
  result_map (fmap row_Name)
    (concatenate meridian_separation remove_dups 1 catalog_X1 catalog_X2
       "name" (1 # 10) "all")
  = Ok ["A"; "X"; "X"; "C"].
Proof. vm_compute. reflexivity. Qed.

Lemma concatenate_keeps_all_witness :
  ∃ out,
    concatenate meridian_separation remove_dups 50 catalog_X1 catalog_X2
      "position" (1 # 10) "all" = Ok out ∧
    row_src <$> out = catalog_X1 ++ catalog_X2 ∧
    Forall (λ r, row_match r = None) out.
Proof.
  eexists. split; [vm_compute; reflexivity|].
  apply (concatenate_keeps_all meridian_separation remove_dups 50 catalog_X1 catalog_X2
           "position" (1 # 10) "all"); [done|done|].
  vm_compute. reflexivity.
Defined.

Lemma concatenate_by_name_keeps_one_witness :
  ∃ out,
    concatenate meridian_separation remove_dups 50 catalog_X1 catalog_X2
      "name" (1 # 10) "from1" = Ok out ∧
    row_src <$> out
    = catalog_X1 ++ filter (λ s, src_Name s ∉ src_Name <$> catalog_X1) catalog_X2 ∧
    row_Name <$> out = src_Name <$> (row_src <$> out) ∧
    NoDup (row_Name <$> out).
Proof.
  eexists. split; [vm_compute; reflexivity|].
  apply (concatenate_by_name_keeps_one meridian_separation remove_dups 50
           catalog_X1 catalog_X2 "name" (1 # 10) "from1").
  - reflexivity.
  - apply (bool_decide_unpack (NoDup (src_Name <$> catalog_X1))). vm_compute. exact I.
  - apply (bool_decide_unpack (NoDup (src_Name <$> catalog_X2))). vm_compute. exact I.
  - by left.
  - vm_compute. reflexivity.
Defined.

Lemma concatenate_spectral_by_name_witness :
  ∃ out,
    concatenate meridian_separation remove_dups 50 catalog_X1 catalog_X2
      "name" (1 # 10) "from1" = Ok out ∧
    ∀ r, r ∈ out →
      (∀ s2, s2 ∈ catalog_X2 → src_Name s2 = src_Name (row_src r) →
             row_SpectralIndex r = src_SpectralIndex s2) ∧
      (src_Name (row_src r) ∉ src_Name <$> catalog_X2 →
       row_SpectralIndex r = src_SpectralIndex (row_src r)).
Proof.
  apply (concatenate_spectral_by_name meridian_separation remove_dups 50
           catalog_X1 catalog_X2 "name" ByName (1 # 10) "from1").
  - reflexivity.
  - by left.
  - apply (bool_decide_unpack (NoDup (src_Name <$> catalog_X1))). vm_compute. exact I.
  - apply (bool_decide_unpack (NoDup (src_Name <$> catalog_X2))). vm_compute. exact I.
  - vm_compute. by repeat constructor.
Defined.

(** With [keep = 'from1'] the source [X] of catalog 1 stays, with the
    spectral index of the source [X] of catalog 2. *)
Example merge_from1_spectral :
  result_map (fmap (λ r, (src_Dec (row_src r), row_SpectralIndex r)))
    (concatenate meridian_separation remove_dups 50 catalog_X1 catalog_X2
       "name" (1 # 10) "from1")
  = Ok [(10, [1; 2]); (20, [5; 6]); (40, [7; 8])].
Proof. vm_compute. reflexivity. Qed.

Lemma concatenate_duplicate_name_raises_witness :
  concatenate meridian_separation remove_dups 50 catalog_X1 catalog_D
    "name" (1 # 10) "all" = Raise ValueError.
Proof.
  apply (concatenate_duplicate_name_raises meridian_separation remove_dups 50
           catalog_X1 catalog_D "name" ByName (1 # 10) "all" 0 1
           (source_at "D" 50 [1; 2]) (source_at "D" 60 [3; 4]));
    [reflexivity|lia|reflexivity..].
Defined.

Lemma concatenate_far_apart_witness :
  ∃ out,
    concatenate meridian_separation remove_dups 50 catalog_X1 catalog_X2
      "position" (1 # 10) "from2" = Ok out ∧
    row_src <$> out = catalog_X1 ++ catalog_X2.
Proof.
  eexists. split; [vm_compute; reflexivity|].
  apply (concatenate_far_apart meridian_separation remove_dups 50 catalog_X1 catalog_X2
           "position" (1 # 10) "from2").
  - reflexivity.
  - intros s1 s2 H1 H2.
    repeat (apply elem_of_cons in H1 as [->|H1]);
      repeat (apply elem_of_cons in H2 as [->|H2]);
      try (by apply elem_of_nil in H1); try (by apply elem_of_nil in H2);
      reflexivity.
  - vm_compute. reflexivity.
Defined.

Lemma concatenate_by_position_keeps_catalog_witness :
  ∃ out,
    concatenate meridian_separation remove_dups 50 catalog_p catalog_q
      "position" (1 # 10) "from2" = Ok out ∧
    ("from2" = "from1" →
       ∃ others, row_src <$> out = catalog_p ++ others ∧ others `sublist_of` catalog_q) ∧
    ("from2" = "from2" →
       ∃ others, row_src <$> out = others ++ catalog_q ∧ others `sublist_of` catalog_p).
Proof.
  eexists. split; [vm_compute; reflexivity|].
  apply (concatenate_by_position_keeps_catalog meridian_separation remove_dups 50
           catalog_p catalog_q "position" (1 # 10) "from2").
  - reflexivity.
  - vm_compute. reflexivity.
Defined.

(** The source of catalog 1 that has a source of catalog 2 within the
    radius goes with [keep = 'from2'], and the source of catalog 2 that
    got its id goes with [keep = 'from1']. *)
Example merge_by_position_p_q :
  result_map (fmap row_Name)
    (concatenate meridian_separation remove_dups 50 catalog_p catalog_q
       "position" (1 # 10) "from2")
  = Ok ["q0"; "q1"]
  ∧
  result_map (fmap row_Name)
    (concatenate meridian_separation remove_dups 50 catalog_p catalog_q
       "position" (1 # 10) "from1")
  = Ok ["p0"; "q1"].
Proof. split; vm_compute; reflexivity. Qed.

End MoreExamples.
